(** * jobly: the job-ingestion pipeline, embedded and verified

A shallow embedding of the ingestion core of jobly
(app/utils/filter.py, app/utils/hashing.py, app/gmail/parser.py,
app/sources/github_readme.py and the storage and queue commands of
app/cli/main.py) and of what it leans on (the cache of answers of
app/models/schema.py with the question resolver of app/cli/main.py, the
resume of app/utils/config.py and the registry of app/adapters), followed
by the properties of its specification and by further properties of the
code.

Conventions.
- A Python [str] is a [string]: the bytes of its UTF-8 encoding.  Substring
  tests, splitting and concatenation on UTF-8 bytes agree with the same
  operations on code points.  [lower] lowers the ASCII letters and
  [strip] strips the ASCII white space, which is what [str.lower] and
  [str.strip] do on ASCII text.
- A Python [float] is a primitive binary64 [float]; arithmetic and
  comparisons are the IEEE 754 ones of [PrimFloat].
- [None]-able values are [option]s; an exception is the [None] of an
  [option] result. *)

From Stdlib Require Import Bool Arith ZArith List Lia.
From Stdlib Require Import Ascii String.
From Stdlib Require Import Uint63 Floats.
From Stdlib Require DecimalString.
Import ListNotations.

#[local] Set Warnings "-inexact-float".
#[local] Open Scope string_scope.
#[local] Open Scope bool_scope.

(** ** Python string primitives *)

Module PyStr.

(** [c.lower()] on one ASCII character. *)
Definition lower_ascii (c : ascii) : ascii :=
  let n := nat_of_ascii c in
  if ((65 <=? n)%nat && (n <=? 90)%nat) then ascii_of_nat (n + 32) else c.

(** [s.lower()]. *)
Fixpoint lower (s : string) : string :=
  match s with
  | EmptyString => EmptyString
  | String c t => String (lower_ascii c) (lower t)
  end.

(** [s.startswith(p)]. *)
Fixpoint startswith (s p : string) {struct p} : bool :=
  match p, s with
  | EmptyString, _ => true
  | String _ _, EmptyString => false
  | String a p', String b s' => Ascii.eqb a b && startswith s' p'
  end.

(** [needle in hay]: the substring test. *)
Fixpoint contains (needle hay : string) : bool :=
  startswith hay needle ||
  match hay with
  | EmptyString => false
  | String _ t => contains needle t
  end.

(** [sep.join(parts)]. *)
Fixpoint join (sep : string) (parts : list string) : string :=
  match parts with
  | [] => ""
  | [p] => p
  | p :: rest => p ++ sep ++ join sep rest
  end.

(** [s.endswith(p)], as a proposition. *)
Definition endswith (s p : string) : Prop := exists q, s = q ++ p.

(** [x in xs] for a list or a set of strings. *)
Definition mem (x : string) (xs : list string) : bool :=
  existsb (String.eqb x) xs.

(** Truthiness of a [str]. *)
Definition nonempty (s : string) : bool :=
  match s with EmptyString => false | _ => true end.

(** [x or d] for an optional string [x]: [d] when [x] is [None] or empty. *)
Definition or_else (x : option string) (d : string) : string :=
  match x with
  | Some s => if nonempty s then s else d
  | None => d
  end.

(** [s.lstrip(chars)], with [chars] given as a predicate. *)
Fixpoint lstrip_by (p : ascii -> bool) (s : string) : string :=
  match s with
  | EmptyString => EmptyString
  | String c t => if p c then lstrip_by p t else s
  end.

(** [s.rstrip(chars)]: the tail is stripped first, and the head goes too
    when nothing of the tail is left and the head is in [chars]. *)
Fixpoint rstrip_by (p : ascii -> bool) (s : string) : string :=
  match s with
  | EmptyString => EmptyString
  | String c t =>
      match rstrip_by p t with
      | EmptyString => if p c then EmptyString else String c EmptyString
      | t' => String c t'
      end
  end.

(** [str.isspace] on ASCII: tab to carriage return, the four separators
    0x1c to 0x1f, and the space. *)
Definition is_space (c : ascii) : bool :=
  let n := nat_of_ascii c in
  ((9 <=? n)%nat && (n <=? 13)%nat) || ((28 <=? n)%nat && (n <=? 32)%nat).

(** [s.strip()]. *)
Definition strip (s : string) : string :=
  rstrip_by is_space (lstrip_by is_space s).

(** [s.replace(c, "")] for every [c] that satisfies [p]. *)
Fixpoint remove_by (p : ascii -> bool) (s : string) : string :=
  match s with
  | EmptyString => EmptyString
  | String c t => if p c then remove_by p t else String c (remove_by p t)
  end.

(** [s.replace(a, b)] for single characters. *)
Fixpoint replace_char (a b : ascii) (s : string) : string :=
  match s with
  | EmptyString => EmptyString
  | String c t => String (if Ascii.eqb c a then b else c) (replace_char a b t)
  end.

(** [s.partition(c)] when [c] occurs: the text before its first occurrence
    and the text after it; [None] when [c in s] is false. *)
Fixpoint partition (c : ascii) (s : string) : option (string * string) :=
  match s with
  | EmptyString => None
  | String a t =>
      if Ascii.eqb a c then Some (EmptyString, t)
      else match partition c t with
           | Some (b, r) => Some (String a b, r)
           | None => None
           end
  end.

(** The same at the last occurrence of [c] ([s.rfind(c)]). *)
Fixpoint rpartition (c : ascii) (s : string) : option (string * string) :=
  match s with
  | EmptyString => None
  | String a t =>
      match rpartition c t with
      | Some (b, r) => Some (String a b, r)
      | None => if Ascii.eqb a c then Some (EmptyString, t) else None
      end
  end.

(** The longest prefix whose characters all fail [p], and the rest. *)
Fixpoint break_at (p : ascii -> bool) (s : string) : string * string :=
  match s with
  | EmptyString => (EmptyString, EmptyString)
  | String a t =>
      if p a then (EmptyString, s)
      else let '(b, r) := break_at p t in (String a b, r)
  end.

(** [s.split(c)]. *)
Fixpoint split (c : ascii) (s : string) : list string :=
  match s with
  | EmptyString => [EmptyString]
  | String a t =>
      if Ascii.eqb a c then EmptyString :: split c t
      else match split c t with
           | h :: r => String a h :: r
           | [] => [String a EmptyString]
           end
  end.

(** [all(p(c) for c in s)]. *)
Fixpoint forallb_str (p : ascii -> bool) (s : string) : bool :=
  match s with
  | EmptyString => true
  | String c t => p c && forallb_str p t
  end.

Definition is_ascii (c : ascii) : bool := (nat_of_ascii c <? 128)%nat.

Definition is_upper (c : ascii) : bool :=
  let n := nat_of_ascii c in (65 <=? n)%nat && (n <=? 90)%nat.

Definition is_lower (c : ascii) : bool :=
  let n := nat_of_ascii c in (97 <=? n)%nat && (n <=? 122)%nat.

Definition is_digit (c : ascii) : bool :=
  let n := nat_of_ascii c in (48 <=? n)%nat && (n <=? 57)%nat.

(** [c.isascii() and c.isalpha()]. *)
Definition is_ascii_alpha (c : ascii) : bool := is_upper c || is_lower c.

(** [c] does not occur in [s]. *)
Definition free_of (c : ascii) (s : string) : bool :=
  forallb_str (fun a => negb (Ascii.eqb a c)) s.

End PyStr.

(** ** Python float primitives *)

Module PyFloat.

#[local] Open Scope Z_scope.

(** [min(a, b)] on floats: the builtin keeps [a] unless [b < a]. *)
Definition min (a b : float) : float :=
  if PrimFloat.ltb b a then b else a.

(** [float(n)] for a list length. *)
Definition of_nat (n : nat) : float :=
  PrimFloat.of_uint63 (Uint63.of_Z (Z.of_nat n)).

(** The integer nearest to [m * 2^e * scale], ties to even: the decimal
    rounding of [dtoa] on the exact binary value. *)
Definition round_half_even (scale : Z) (m : positive) (e : Z) : Z :=
  match e with
  | Zneg p =>
      let num := Z.pos m * scale in
      let den := 2 ^ Z.pos p in
      let q := num / den in
      let r := num mod den in
      match 2 * r ?= den with
      | Lt => q
      | Gt => q + 1
      | Eq => if Z.even q then q else q + 1
      end
  | _ => Z.pos m * 2 ^ e * scale
  end.

(** 2^43: from here on the spacing of doubles exceeds 0.001 and
    [round(x, 3)] is [x] itself. *)
Definition round3_limit : float := 8796093022208%float.

(** [round(x, 3)]: CPython prints [x] correctly rounded to three decimal
    places and reads the decimal back.  Below [round3_limit] the decimal is
    [n / 1000] with [n < 2^53], and the correctly rounded quotient of the
    two exact doubles [n] and [1000] is the double nearest to it.
    Zeros, infinities and NaN round to themselves. *)
Definition round3 (x : float) : float :=
  match Prim2SF x with
  | S754_finite s m e =>
      if PrimFloat.leb round3_limit (PrimFloat.abs x) then x
      else
        let n := round_half_even 1000 m e in
        let r := PrimFloat.div (PrimFloat.of_uint63 (Uint63.of_Z n)) 1000%float in
        if s then PrimFloat.opp r else r
  | _ => x
  end.

(** [f"{x:.0%}"] for a finite [x]: [x * 100] in double arithmetic, printed
    with no decimals, then a percent sign. *)
Definition format_percent0 (x : float) : string :=
  match Prim2SF (PrimFloat.mul x 100%float) with
  | S754_finite s m e =>
      ((if s then "-" else "") ++
       DecimalString.NilEmpty.string_of_uint
         (N.to_uint (Z.to_N (round_half_even 1 m e))) ++ "%")%string
  | S754_zero s => ((if s then "-" else "") ++ "0%")%string
  | S754_infinity s => ((if s then "-" else "") ++ "inf%")%string
  | S754_nan => "nan%"%string
  end.

(** A float that is zero, positive or plus infinity. *)
Definition nonneg_sf (x : spec_float) : Prop :=
  match x with
  | S754_zero _ | S754_infinity false | S754_finite false _ _ => True
  | _ => False
  end.

Definition nonneg (x : float) : Prop := nonneg_sf (Prim2SF x).

End PyFloat.

(** ** app/utils/config.py: FilterConfig *)

Record FilterConfig := {
  min_score : float;
  title_keywords : list string;
  preferred_ats : list string;
  preferred_locations : list string;
  excluded_locations : list string;
}.

(** The dataclass defaults. *)
Definition default_FilterConfig : FilterConfig := {|
  min_score := 0.30%float;
  title_keywords :=
    [ "intern"; "internship"; "swe"; "software engineer";
      "backend"; "platform"; "infra"; "infrastructure";
      "data"; "distributed"; "database"; "systems" ];
  preferred_ats := [ "ashby"; "greenhouse"; "lever" ];
  preferred_locations := [];
  excluded_locations := [];
|}.

(** ** app/utils/filter.py *)

Module Filter.

Import PyStr.

Record ScoringResult := {
  score : float;
  reason : string;
  should_queue : bool;
}.

(** [_ATS_BOOST], as its lookup. *)
Definition _ATS_BOOST (ats : string) : option float :=
  if String.eqb ats "ashby" then Some 0.20%float
  else if String.eqb ats "greenhouse" then Some 0.10%float
  else if String.eqb ats "lever" then Some 0.10%float
  else None.

(** The keywords of the configuration that occur in the lowered title, in
    configuration order. *)
Definition matched_keywords (cfg : FilterConfig) (title_lower : string) : list string :=
  filter (fun kw => contains (lower kw) title_lower) (title_keywords cfg).

(** [min(0.50, 0.35 + 0.05 * (len(matched_keywords) - 1))]. *)
Definition keyword_score (matched : list string) : float :=
  PyFloat.min 0.50%float
    (0.35 + 0.05 * PyFloat.of_nat (List.length matched - 1))%float.

(** The running state of [score_job]: the accumulated score and the reasons
    collected so far. *)
Definition acc : Type := float * list string.

Definition title_step (cfg : FilterConfig) (title_lower : string) (a : acc) : acc :=
  let '(sc, reasons) := a in
  match matched_keywords cfg title_lower with
  | [] => (sc, (reasons ++ ["no title keyword match"])%list)
  | matched =>
      ((sc + keyword_score matched)%float,
       (reasons ++ [("title matches: " ++ join ", " (firstn 3 matched))%string])%list)
  end.

Definition ats_step (ats : string) (a : acc) : acc :=
  let '(sc, reasons) := a in
  match _ATS_BOOST ats with
  | Some boost =>
      ((sc + boost)%float,
       (reasons ++
        [("preferred ATS (" ++ ats ++ " +"
          ++ PyFloat.format_percent0 boost ++ ")")%string])%list)
  | None => (sc, reasons)
  end.

(** The first excluded location that occurs in the lowered location. *)
Definition excluded_match (cfg : FilterConfig) (location_lower : string) : option string :=
  find (fun excl => contains (lower excl) location_lower) (excluded_locations cfg).

Definition location_step (cfg : FilterConfig) (location_lower : string) (a : acc) : acc :=
  let '(sc, reasons) := a in
  match preferred_locations cfg with
  | [] =>
      if contains "remote" location_lower
      then ((sc + 0.05)%float, (reasons ++ ["remote"])%list)
      else (sc, reasons)
  | prefs =>
      match find (fun pref => contains (lower pref) location_lower
                              || contains "remote" location_lower) prefs with
      | Some pref =>
          ((sc + 0.05)%float,
           (reasons ++ [("preferred location (" ++ pref ++ ")")%string])%list)
      | None => (sc, reasons)
      end
  end.

Definition score_job (title company : string) (location ats_type : option string)
    (cfg : FilterConfig) : ScoringResult :=
  let title_lower := lower title in
  let location_lower := lower (or_else location "") in
  let ats := lower (or_else ats_type "unknown") in
  let a := ats_step ats (title_step cfg title_lower (0%float, [])) in
  match excluded_match cfg location_lower with
  | Some excl =>
      {| score := 0.0%float;
         reason := join "; " (snd a ++ [("excluded location: " ++ excl)%string])%list;
         should_queue := false |}
  | None =>
      let '(sc, reasons) := location_step cfg location_lower a in
      let sc := PyFloat.min 1.0%float (PyFloat.round3 sc) in
      {| score := sc;
         reason := join "; " reasons;
         should_queue := PrimFloat.leb (min_score cfg) sc |}
  end.

(** The default configuration, the title of scenario 1 and the Ashby tag. *)
Definition scenario1 (company : string) : ScoringResult :=
  score_job "Software Engineer Intern" company None (Some "ashby") default_FilterConfig.

(** The score before rounding when no excluded location matches. *)
Definition raw_score (title : string) (location ats_type : option string)
    (cfg : FilterConfig) : float :=
  fst (location_step cfg (lower (or_else location ""))
         (ats_step (lower (or_else ats_type "unknown"))
            (title_step cfg (lower title) (0%float, [])))).

(** Whether the location earns the bonus. *)
Definition location_bonus (cfg : FilterConfig) (l : string) : bool :=
  match preferred_locations cfg with
  | [] => contains "remote" l
  | prefs => existsb (fun pref => contains (lower pref) l || contains "remote" l) prefs
  end.

End Filter.

(** ** urllib.parse (CPython 3.11), the part jobly calls

Where CPython would consult Unicode tables or the [ipaddress] module (a
non-ASCII or bracketed network location) the parse yields [None], as it
does where CPython raises [ValueError]. *)

Module Urllib.

Import PyStr.

Record ParseResult := {
  scheme : string;
  netloc : string;
  path : string;
  params : string;
  query : string;
  fragment : string;
}.

Definition uses_netloc : list string :=
  [ ""; "ftp"; "http"; "gopher"; "nntp"; "telnet";
    "imap"; "wais"; "file"; "mms"; "https"; "shttp";
    "snews"; "prospero"; "rtsp"; "rtspu"; "rsync";
    "svn"; "svn+ssh"; "sftp"; "nfs"; "git"; "git+ssh";
    "ws"; "wss" ].

Definition uses_params : list string :=
  [ ""; "ftp"; "hdl"; "prospero"; "http"; "imap";
    "https"; "shttp"; "rtsp"; "rtspu"; "sip"; "sips";
    "mms"; "sftp"; "tel" ].

(** [c in scheme_chars]. *)
Definition scheme_char (c : ascii) : bool :=
  is_upper c || is_lower c || is_digit c
  || Ascii.eqb c "+" || Ascii.eqb c "-" || Ascii.eqb c ".".

(** [c in _WHATWG_C0_CONTROL_OR_SPACE]. *)
Definition c0_control_or_space (c : ascii) : bool := (nat_of_ascii c <=? 32)%nat.

(** [c in _UNSAFE_URL_BYTES_TO_REMOVE]: tab, carriage return, newline. *)
Definition unsafe_url_byte (c : ascii) : bool :=
  let n := nat_of_ascii c in
  (n =? 9)%nat || (n =? 13)%nat || (n =? 10)%nat.

(** The scheme test of [urlsplit]: a colon at a position [i > 0], a first
    character that is an ASCII letter, and only scheme characters before
    the colon.  Yields the lowered scheme and the text after the colon. *)
Definition split_scheme (url : string) : string * string :=
  match partition ":" url with
  | Some (String c0 rest as s, after) =>
      if is_ascii_alpha c0 && forallb_str scheme_char s
      then (lower s, after)
      else (EmptyString, url)
  | _ => (EmptyString, url)
  end.

Definition is_netloc_delim (c : ascii) : bool :=
  Ascii.eqb c "/" || Ascii.eqb c "?" || Ascii.eqb c "#".

(** [_splitnetloc(url, 2)] on a [url] that starts with two slashes, given
    without them. *)
Definition _splitnetloc (after_slashes : string) : string * string :=
  break_at is_netloc_delim after_slashes.

(** The three checks of [urlsplit] on the network location. *)
Definition netloc_ok (nl : string) : bool :=
  negb (contains "[" nl) && negb (contains "]" nl) && forallb_str is_ascii nl.

Definition urlsplit (url : string) : option (string * string * string * string * string) :=
  let url := lstrip_by c0_control_or_space url in
  let url := remove_by unsafe_url_byte url in
  let '(scheme, url) := split_scheme url in
  let '(netloc, url) :=
    match url with
    | String "/" (String "/" rest) => _splitnetloc rest
    | _ => (EmptyString, url)
    end in
  let '(url, fragment) :=
    match partition "#" url with
    | Some (u, f) => (u, f)
    | None => (url, EmptyString)
    end in
  let '(url, query) :=
    match partition "?" url with
    | Some (u, q) => (u, q)
    | None => (url, EmptyString)
    end in
  if netloc_ok netloc then Some (scheme, netloc, url, query, fragment) else None.

(** [_splitparams(url)], called when [';' in url]. *)
Definition _splitparams (url : string) : string * string :=
  match rpartition "/" url with
  | Some (dir, last) =>
      match partition ";" last with
      | Some (seg, ps) => ((dir ++ "/" ++ seg)%string, ps)
      | None => (url, EmptyString)
      end
  | None =>
      match partition ";" url with
      | Some (seg, ps) => (seg, ps)
      | None => (url, EmptyString)
      end
  end.

Definition urlparse (url : string) : option ParseResult :=
  match urlsplit url with
  | Some (scheme, netloc, url, query, fragment) =>
      let '(url, params) :=
        if mem scheme uses_params && contains ";" url
        then _splitparams url
        else (url, EmptyString) in
      Some {| scheme := scheme; netloc := netloc; path := url;
              params := params; query := query; fragment := fragment |}
  | None => None
  end.

Definition urlunsplit (scheme netloc url query fragment : string) : string :=
  let url :=
    if nonempty netloc
       || (nonempty scheme && mem scheme uses_netloc
           && negb (startswith url "//"))
    then
      let url :=
        if nonempty url && negb (startswith url "/")
        then ("/" ++ url)%string else url in
      ("//" ++ netloc ++ url)%string
    else url in
  let url := if nonempty scheme then (scheme ++ ":" ++ url)%string else url in
  let url := if nonempty query then (url ++ "?" ++ query)%string else url in
  if nonempty fragment then (url ++ "#" ++ fragment)%string else url.

Definition urlunparse (p : ParseResult) : string :=
  let url :=
    if nonempty (params p) then (path p ++ ";" ++ params p)%string else path p in
  urlunsplit (scheme p) (netloc p) url (query p) (fragment p).

(** *** Percent-encoding *)

Definition hex_value (c : ascii) : option nat :=
  let n := nat_of_ascii c in
  if is_digit c then Some (n - 48)
  else if (65 <=? n)%nat && (n <=? 70)%nat then Some (n - 55)
  else if (97 <=? n)%nat && (n <=? 102)%nat then Some (n - 87)
  else None.

(** [unquote_to_bytes]: every [%XY] with two hexadecimal digits becomes the
    byte it names; any other percent sign stays. *)
Fixpoint unquote_to_bytes (s : string) : string :=
  match s with
  | EmptyString => EmptyString
  | String c t =>
      match c, t with
      | "%"%char, String h (String l t') =>
          match hex_value h, hex_value l with
          | Some a, Some b => String (ascii_of_nat (16 * a + b)) (unquote_to_bytes t')
          | _, _ => String c (unquote_to_bytes t)
          end
      | _, _ => String c (unquote_to_bytes t)
      end
  end.

(** U+FFFD, the replacement character, in UTF-8. *)
Definition replacement : string :=
  String (ascii_of_nat 239) (String (ascii_of_nat 191) (String (ascii_of_nat 189) "")).

(** For a lead byte, the range of its second byte and the length of its
    sequence (Unicode, table 3-7); [None] for a byte that leads nothing. *)
Definition utf8_lead (n : nat) : option (nat * nat * nat) :=
  if (n <? 194)%nat then None
  else if (n <? 224)%nat then Some (128, 191, 2)
  else if (n =? 224)%nat then Some (160, 191, 3)
  else if (n =? 237)%nat then Some (128, 159, 3)
  else if (n <? 240)%nat then Some (128, 191, 3)
  else if (n =? 240)%nat then Some (144, 191, 4)
  else if (n <? 244)%nat then Some (128, 191, 4)
  else if (n =? 244)%nat then Some (128, 143, 4)
  else None.

Definition in_range (c : ascii) (lo hi : nat) : bool :=
  let n := nat_of_ascii c in (lo <=? n)%nat && (n <=? hi)%nat.

(** [bs.decode("utf-8", "replace")], encoded again: a well-formed sequence
    stays, and every maximal ill-formed run of one to three bytes becomes
    one replacement character. *)
Fixpoint decode_replace (s : string) : string :=
  match s with
  | EmptyString => EmptyString
  | String b0 t =>
      if is_ascii b0 then String b0 (decode_replace t)
      else
        match utf8_lead (nat_of_ascii b0) with
        | None => (replacement ++ decode_replace t)%string
        | Some (lo, hi, len) =>
            match t with
            | EmptyString => replacement
            | String b1 t1 =>
                if negb (in_range b1 lo hi) then (replacement ++ decode_replace t)%string
                else if (len =? 2)%nat then String b0 (String b1 (decode_replace t1))
                else
                  match t1 with
                  | EmptyString => replacement
                  | String b2 t2 =>
                      if negb (in_range b2 128 191)
                      then (replacement ++ decode_replace t1)%string
                      else if (len =? 3)%nat
                      then String b0 (String b1 (String b2 (decode_replace t2)))
                      else
                        match t2 with
                        | EmptyString => replacement
                        | String b3 t3 =>
                            if negb (in_range b3 128 191)
                            then (replacement ++ decode_replace t2)%string
                            else String b0 (String b1 (String b2 (String b3
                                   (decode_replace t3))))
                        end
                  end
            end
        end
  end.

(** The maximal runs of ASCII and of non-ASCII bytes of [s], in order, each
    with whether it is the ASCII kind. *)
Fixpoint ascii_runs (s : string) : list (bool * string) :=
  match s with
  | EmptyString => []
  | String c t =>
      match ascii_runs t with
      | (b, r) :: rest =>
          if Bool.eqb b (is_ascii c) then (b, String c r) :: rest
          else (is_ascii c, String c EmptyString) :: (b, r) :: rest
      | [] => [(is_ascii c, String c EmptyString)]
      end
  end.

(** [unquote(s)]: each ASCII run is percent-decoded and read as UTF-8 with
    replacement; the text between the runs stays. *)
Definition unquote (s : string) : string :=
  String.concat ""
    (map (fun br : bool * string =>
            if fst br then decode_replace (unquote_to_bytes (snd br)) else snd br)
         (ascii_runs s)).

Definition hex_digit (n : nat) : ascii :=
  if (n <? 10)%nat then ascii_of_nat (48 + n) else ascii_of_nat (55 + n).

(** [c in _ALWAYS_SAFE]: letters, digits and [_.-~]. *)
Definition always_safe (c : ascii) : bool :=
  is_upper c || is_lower c || is_digit c
  || Ascii.eqb c "_" || Ascii.eqb c "." || Ascii.eqb c "-" || Ascii.eqb c "~".

(** [quote_plus(s)]: safe characters stay, a space becomes a plus sign,
    every other byte becomes [%XY] in upper-case hexadecimal. *)
Fixpoint quote_plus (s : string) : string :=
  match s with
  | EmptyString => EmptyString
  | String c t =>
      if always_safe c then String c (quote_plus t)
      else if Ascii.eqb c " " then String "+" (quote_plus t)
      else
        let n := nat_of_ascii c in
        String "%" (String (hex_digit (n / 16)) (String (hex_digit (n mod 16))
          (quote_plus t)))
  end.

(** *** Query strings *)

(** A [dict] from names to lists of values, in insertion order. *)
Definition qdict : Type := list (string * list string).

(** [d[name]], or [None] when [name in d] is false. *)
Definition qget (name : string) (d : qdict) : option (list string) :=
  match find (fun kv => String.eqb (fst kv) name) d with
  | Some kv => Some (snd kv)
  | None => None
  end.

(** [d[name].append(value)] if [name in d], else [d[name] = [value]]. *)
Fixpoint qadd (name value : string) (d : qdict) : qdict :=
  match d with
  | [] => [(name, [value])]
  | (k, vs) :: rest =>
      if String.eqb k name then (k, (vs ++ [value])%list) :: rest
      else (k, vs) :: qadd name value rest
  end.

(** One field of [parse_qsl] with [keep_blank_values=False]: a field with
    no equals sign or with an empty value is dropped. *)
Definition parse_field (name_value : string) : option (string * string) :=
  match partition "=" name_value with
  | Some (n, v) =>
      if nonempty v
      then Some (unquote (replace_char "+" " " n), unquote (replace_char "+" " " v))
      else None
  | None => None
  end.

Definition parse_qsl (qs : string) : list (string * string) :=
  if nonempty qs
  then flat_map (fun nv => match parse_field nv with
                           | Some kv => [kv]
                           | None => []
                           end) (split "&" qs)
  else [].

Definition parse_qs (qs : string) : qdict :=
  fold_left (fun d kv => qadd (fst kv) (snd kv) d) (parse_qsl qs) [].

(** [urlencode(d, doseq=True)]. *)
Definition urlencode (d : qdict) : string :=
  join "&"
    (flat_map (fun kv =>
       map (fun v => (quote_plus (fst kv) ++ "=" ++ quote_plus v)%string) (snd kv)) d).

End Urllib.

(** ** hashlib.sha256 (FIPS 180-4), on 32-bit words held in [Z] *)

Module Sha256.

#[local] Open Scope Z_scope.

Definition wrap32 (x : Z) : Z := x mod 2 ^ 32.

Definition add32 (x y : Z) : Z := wrap32 (x + y).

Definition rotr (n x : Z) : Z :=
  Z.lor (Z.shiftr x n) (wrap32 (Z.shiftl x (32 - n))).

Definition Ch (x y z : Z) : Z :=
  Z.lxor (Z.land x y) (Z.land (Z.lxor x (2 ^ 32 - 1)) z).

Definition Maj (x y z : Z) : Z :=
  Z.lxor (Z.lxor (Z.land x y) (Z.land x z)) (Z.land y z).

Definition Sigma0 (x : Z) : Z := Z.lxor (Z.lxor (rotr 2 x) (rotr 13 x)) (rotr 22 x).
Definition Sigma1 (x : Z) : Z := Z.lxor (Z.lxor (rotr 6 x) (rotr 11 x)) (rotr 25 x).
Definition sigma0 (x : Z) : Z := Z.lxor (Z.lxor (rotr 7 x) (rotr 18 x)) (Z.shiftr x 3).
Definition sigma1 (x : Z) : Z := Z.lxor (Z.lxor (rotr 17 x) (rotr 19 x)) (Z.shiftr x 10).

(** The first 64 primes. *)
Definition is_prime (n : nat) : bool :=
  forallb (fun d => negb (n mod d =? 0)%nat) (seq 2 (n - 2)).

Definition primes : list Z := map Z.of_nat (filter is_prime (seq 2 310)).

(** The integer cube root, bit by bit from the top. *)
Fixpoint cbrt_bits (bits : nat) (n r : Z) : Z :=
  match bits with
  | O => r
  | S b =>
      let r' := r + 2 ^ Z.of_nat b in
      cbrt_bits b n (if r' * r' * r' <=? n then r' else r)
  end.

(** The round constants: the first 32 bits of the fractional parts of the
    cube roots of the first 64 primes. *)
Definition K : list Z :=
  Eval vm_compute in map (fun p => wrap32 (cbrt_bits 40 (p * 2 ^ 96) 0)) primes.

(** The initial hash value: the same of the square roots of the first 8
    primes. *)
Definition H0 : list Z :=
  Eval vm_compute in map (fun p => wrap32 (Z.sqrt (p * 2 ^ 64))) (firstn 8 primes).

(** The message followed by the bit 1, zeros up to 56 modulo 64 bytes, and
    the length in bits as a 64-bit big-endian number. *)
Definition be_bytes (n : nat) (x : Z) : list Z :=
  map (fun i => (x / 2 ^ (8 * Z.of_nat i)) mod 256) (rev (seq 0 n)).

Definition pad (msg : list Z) : list Z :=
  let len := Z.of_nat (List.length msg) in
  let zeros := Z.to_nat ((55 - len) mod 64) in
  (msg ++ [0x80] ++ repeat 0 zeros ++ be_bytes 8 (8 * len))%list.

Fixpoint be_words (fuel : nat) (bs : list Z) : list Z :=
  match fuel, bs with
  | S fuel', b0 :: b1 :: b2 :: b3 :: rest =>
      (((b0 * 256 + b1) * 256 + b2) * 256 + b3) :: be_words fuel' rest
  | _, _ => []
  end.

(** The message schedule, latest word first: [recent] holds
    [W(t-1), W(t-2), ...]. *)
Fixpoint schedule (n : nat) (recent : list Z) : list Z :=
  match n with
  | O => recent
  | S n' =>
      let w := add32 (add32 (sigma1 (nth 1 recent 0)) (nth 6 recent 0))
                     (add32 (sigma0 (nth 14 recent 0)) (nth 15 recent 0)) in
      schedule n' (w :: recent)
  end.

Definition round (st : list Z) (kw : Z * Z) : list Z :=
  match st with
  | [a; b; c; d; e; f; g; h] =>
      let t1 := add32 (add32 (add32 h (Sigma1 e)) (add32 (Ch e f g) (fst kw))) (snd kw) in
      let t2 := add32 (Sigma0 a) (Maj a b c) in
      [add32 t1 t2; a; b; c; add32 d t1; e; f; g]
  | _ => st
  end.

Definition compress (h : list Z) (block : list Z) : list Z :=
  let w := rev (schedule 48 (rev block)) in
  let st := fold_left round (combine K w) h in
  map (fun p => add32 (fst p) (snd p)) (combine h st).

Fixpoint blocks (fuel : nat) (ws : list Z) : list (list Z) :=
  match fuel, ws with
  | S fuel', _ :: _ => firstn 16 ws :: blocks fuel' (skipn 16 ws)
  | _, _ => []
  end.

Definition digest_words (msg : list Z) : list Z :=
  let bs := pad msg in
  let ws := be_words (List.length bs) bs in
  fold_left compress (blocks (List.length ws) ws) H0.

Definition hex_char (n : Z) : ascii :=
  if n <? 10 then ascii_of_nat (Z.to_nat (48 + n)) else ascii_of_nat (Z.to_nat (87 + n)).

Definition hex_word (w : Z) : string :=
  string_of_list_ascii
    (map (fun i => hex_char ((w / 16 ^ Z.of_nat i) mod 16)) (rev (seq 0 8))).

(** [hashlib.sha256(s.encode()).hexdigest()]. *)
Definition hexdigest (s : string) : string :=
  String.concat ""
    (map hex_word
       (digest_words (map (fun c => Z.of_nat (nat_of_ascii c)) (list_ascii_of_string s)))).

(** A lower-case hexadecimal digit. *)
Definition is_hex_lower (c : ascii) : bool :=
  PyStr.is_digit c || ((97 <=? nat_of_ascii c)%nat && (nat_of_ascii c <=? 102)%nat).

End Sha256.

(** ** app/utils/hashing.py *)

Module Hashing.

Import PyStr Urllib.

Definition _TRACKING_PARAMS : list string :=
  [ "utm_source"; "utm_medium"; "utm_campaign"; "utm_term"; "utm_content";
    "ref"; "referrer"; "source"; "gh_src"; "lever-origin"; "lever-source";
    "ashby_source"; "ems"; "sid"; "cid"; "gclid"; "fbclid"; "msclkid" ].

Definition _REDIRECT_PARAMS : list string :=
  [ "url"; "link"; "target"; "redirect"; "dest"; "destination" ].

(** The loop of [extract_redirect_url]: the first value of the first
    redirect parameter that is present and starts with [http]. *)
Fixpoint redirect_candidate (qs : qdict) (names : list string) : option string :=
  match names with
  | [] => None
  | param :: rest =>
      match qget param qs with
      | Some (candidate :: _) =>
          if startswith candidate "http" then Some candidate
          else redirect_candidate qs rest
      | _ => redirect_candidate qs rest
      end
  end.

Definition extract_redirect_url (url : string) : option string :=
  match urlparse url with
  | Some parsed =>
      match redirect_candidate (parse_qs (query parsed)) _REDIRECT_PARAMS with
      | Some candidate => Some candidate
      | None => Some url
      end
  | None => None
  end.

(** [{k: v for k, v in qs.items() if k.lower() not in _TRACKING_PARAMS}]. *)
Definition clean_qs (qs : qdict) : qdict :=
  filter (fun kv => negb (mem (lower (fst kv)) _TRACKING_PARAMS)) qs.

(** [path.rstrip("/") or "/"]. *)
Definition normalise_path (p : string) : string :=
  match rstrip_by (Ascii.eqb "/") p with
  | EmptyString => "/"
  | p' => p'
  end.

(** The body of [canonicalise_url] after redirect extraction. *)
Definition canonical_of (parsed : ParseResult) : string :=
  urlunparse {|
    scheme := lower (scheme parsed);
    netloc := lower (netloc parsed);
    path := normalise_path (path parsed);
    params := "";
    query := urlencode (clean_qs (parse_qs (query parsed)));
    fragment := "";
  |}.

Definition canonicalise_url (url : string) : option string :=
  match extract_redirect_url (strip url) with
  | Some url =>
      match urlparse url with
      | Some parsed => Some (canonical_of parsed)
      | None => None
      end
  | None => None
  end.

Definition url_hash (url : string) : option string :=
  match canonicalise_url url with
  | Some canon => Some (Sha256.hexdigest canon)
  | None => None
  end.

Definition detect_ats_from_url (url : string) : string :=
  let url_lower := lower url in
  if contains "ashbyhq.com" url_lower || contains "jobs.ashby" url_lower then "ashby"
  else if contains "greenhouse.io" url_lower || contains "grnh.se" url_lower
          || contains "gh_jid=" url_lower then "greenhouse"
  else if contains "lever.co" url_lower then "lever"
  else if contains "myworkdayjobs.com" url_lower || contains "workday.com" url_lower
  then "workday"
  else if contains "smartrecruiters.com" url_lower then "smartrecruiters"
  else if contains "icims.com" url_lower || contains "icims=1" url_lower then "icims"
  else if contains "taleo.net" url_lower then "taleo"
  else if contains "workable.com" url_lower then "workable"
  else if contains "breezy.hr" url_lower then "breezy"
  else if contains "simplify.jobs" url_lower then "simplify"
  else "unknown".

(** [canonicalise_url(canonicalise_url(url))]. *)
Definition canonicalise_twice (url : string) : option string :=
  match canonicalise_url url with
  | Some canon => canonicalise_url canon
  | None => None
  end.

(** A query field [name=value] without an ampersand whose name, unquoted and
    lowered, is a tracking parameter. *)
Definition is_tracking_field (field : string) : bool :=
  forallb_str (fun c => negb (Ascii.eqb c "&")) field
  && match partition "=" field with
     | Some (name, _) =>
         mem (lower (unquote (replace_char "+" " " name))) _TRACKING_PARAMS
     | None => false
     end.

(** [adds_field f q q']: the query [q'] is the query [q] with the field [f]
    added, alone, in front, at the end or between two fields. *)
Inductive adds_field (f : string) : string -> string -> Prop :=
  | add_only : adds_field f "" f
  | add_first q : adds_field f q (f ++ "&" ++ q)
  | add_last q : adds_field f q (q ++ "&" ++ f)
  | add_inside a b : adds_field f (a ++ "&" ++ b) (a ++ "&" ++ f ++ "&" ++ b).

(** *** URLs of the plain shape

    [http(s)://host/segment/.../segment[/][?name=value&...]], where the
    host, the segments, the names and the values are non-empty and made of
    the characters that [quote_plus] leaves alone. *)

Record PlainUrl := {
  secure : bool;
  host : string;
  segments : list string;
  trailing_slash : bool;
  fields : list (string * string);
}.

Definition plain (s : string) : bool := nonempty s && forallb_str always_safe s.

(** A field that [extract_redirect_url] would not follow. *)
Definition not_a_redirect (kv : string * string) : bool :=
  negb (mem (fst kv) _REDIRECT_PARAMS && startswith (snd kv) "http").

Definition plain_field (kv : string * string) : bool :=
  plain (fst kv) && plain (snd kv) && not_a_redirect kv.

Definition well_formed (x : PlainUrl) : bool :=
  plain (host x) && forallb plain (segments x) && forallb plain_field (fields x).

Definition field_string (kv : string * string) : string :=
  (fst kv ++ "=" ++ snd kv)%string.

Definition path_of (segs : list string) (slash : bool) : string :=
  (String.concat "" (map (fun s => "/" ++ s) segs) ++ (if slash then "/" else ""))%string.

Definition query_of (fs : list (string * string)) : string :=
  join "&" (map field_string fs).

Definition render (x : PlainUrl) : string :=
  ((if secure x then "https" else "http") ++ "://" ++ host x
   ++ path_of (segments x) (trailing_slash x)
   ++ match fields x with
      | [] => ""
      | fs => "?" ++ query_of fs
      end)%string.

(** The fields grouped by name, as [parse_qs] groups them, and back. *)
Definition group (fs : list (string * string)) : qdict :=
  fold_left (fun d kv => qadd (fst kv) (snd kv) d) fs [].

Definition ungroup (d : qdict) : list (string * string) :=
  flat_map (fun kv => map (pair (fst kv)) (snd kv)) d.

(** What [canonicalise_url] makes of a plain URL. *)
Definition canonical_plain (x : PlainUrl) : PlainUrl :=
  {| secure := secure x;
     host := lower (host x);
     segments := segments x;
     trailing_slash := match segments x with [] => true | _ => false end;
     fields := ungroup (clean_qs (group (fields x))) |}.

(** A plain URL with an upper-case host, a trailing slash, a tracking field
    and a name that occurs twice. *)
Definition example_plain : PlainUrl :=
  {| secure := true; host := "Jobs.Lever.Co"; segments := ["acme"; "1"];
     trailing_slash := true;
     fields := [("a", "1"); ("utm_source", "x"); ("b", "2"); ("a", "3")] |}.

(** *** The parts of a plain URL and of a parsed query

    Auxiliary notions in which the properties of [canonicalise_url] are
    stated and proved. *)

(** The characters of a plain URL. *)
Definition url_char (c : ascii) : bool :=
  always_safe c || existsb (Ascii.eqb c) [":"; "/"; "?"; "="; "&"]%char.

Definition path_char (c : ascii) : bool := always_safe c || Ascii.eqb c "/".

Definition field_char (c : ascii) : bool := always_safe c || Ascii.eqb c "=".

Definition query_char (c : ascii) : bool := field_char c || Ascii.eqb c "&".

(** The text of a plain URL after the two slashes. *)
Definition query_part (fs : list (string * string)) : string :=
  match fs with
  | [] => ""
  | _ => ("?" ++ query_of fs)%string
  end.

Definition after_slashes (x : PlainUrl) : string :=
  (host x ++ path_of (segments x) (trailing_slash x) ++ query_part (fields x))%string.

Definition scheme_of (x : PlainUrl) : string := if secure x then "https" else "http".

(** What is left of [urlsplit] once the scheme is split off. *)
Definition split_rest (scheme rest : string)
    : option (string * string * string * string * string) :=
  let '(netloc, url) := _splitnetloc rest in
  let '(url, fragment) :=
    match partition "#" url with
    | Some (u, f) => (u, f)
    | None => (url, EmptyString)
    end in
  let '(url, query) :=
    match partition "?" url with
    | Some (u, q) => (u, q)
    | None => (url, EmptyString)
    end in
  if netloc_ok netloc then Some (scheme, netloc, url, query, fragment) else None.

Definition query_string (fs : list (string * string)) : string :=
  match fs with
  | [] => ""
  | _ => query_of fs
  end.

Definition add_field (d : qdict) (kv : string * string) : qdict :=
  qadd (fst kv) (snd kv) d.

(** A dictionary as [parse_qs] builds it: no name twice, no empty list. *)
Definition normal (d : qdict) : Prop :=
  NoDup (map fst d) /\ forall kv, In kv d -> snd kv <> [].

(** [(k, v)] is one of the pairs that [d] holds. *)
Definition holds (d : qdict) (k v : string) : Prop :=
  exists vs, In (k, vs) d /\ In v vs.

Definition ends_safe (s : string) : Prop :=
  exists s' c, s = (s' ++ String c "")%string /\ always_safe c = true.

(** What [parse_qsl] keeps of one field. *)
Definition field_pairs (nv : string) : list (string * string) :=
  match parse_field nv with
  | Some kv => [kv]
  | None => []
  end.

(** A field that [clean_qs] keeps. *)
Definition kept (kv : string * string) : bool :=
  negb (mem (lower (fst kv)) _TRACKING_PARAMS).

(** Character classes: no fragment sign, no question mark, and what
    [quote_plus] writes. *)
Definition not_hash (c : ascii) : bool := negb (Ascii.eqb c "#").

Definition not_qmark (c : ascii) : bool := negb (Ascii.eqb c "?").

Definition quoted_char (c : ascii) : bool :=
  always_safe c || Ascii.eqb c "+" || Ascii.eqb c "%".

End Hashing.

(** ** app/gmail/parser.py: the post-processing of [parse_email_html] *)

Module Parser.

Import PyStr.

Record ParsedJob := {
  company : string;
  title : string;
  url : string;
  url_hash : string;
  ats_type : string;
  location : option string;
  source_email_id : option string;
  discovered_at : Z;
}.

(** A raw candidate [(company, title, url, location)]. *)
Definition candidate : Type := string * string * string * option string.

(** One turn of the loop over the candidates.  The state is the pair of
    [jobs] and [seen_hashes]; [None] is the [ValueError] of a URL that does
    not parse. *)
Definition parse_step (source_email_id : option string) (now : Z)
    (st : list ParsedJob * list string) (c : candidate)
    : option (list ParsedJob * list string) :=
  let '(jobs, seen_hashes) := st in
  let '(company, title, url, location) := c in
  if negb (nonempty url) || negb (nonempty title) then Some st
  else
    match Hashing.canonicalise_url url with
    | None => None
    | Some canon =>
        match Hashing.url_hash canon with
        | None => None
        | Some h =>
            if mem h seen_hashes then Some st
            else
              let ats := Hashing.detect_ats_from_url canon in
              Some ((jobs ++ [ {| company := company; title := title; url := canon;
                                  url_hash := h; ats_type := ats; location := location;
                                  source_email_id := source_email_id;
                                  discovered_at := now |} ])%list,
                    h :: seen_hashes)
        end
    end.

Fixpoint parse_loop (source_email_id : option string) (now : Z)
    (st : list ParsedJob * list string) (cs : list candidate)
    : option (list ParsedJob * list string) :=
  match cs with
  | [] => Some st
  | c :: rest =>
      match parse_step source_email_id now st c with
      | Some st' => parse_loop source_email_id now st' rest
      | None => None
      end
  end.

(** A candidate that passes the test [if not url or not title: continue]. *)
Definition has_url_and_title (c : candidate) : bool :=
  let '(_, title, url, _) := c in nonempty url && nonempty title.

(** The [ParsedJob] that the loop builds from a candidate, when its URL
    parses. *)
Definition job_of (source_email_id : option string) (now : Z) (c : candidate)
    : option ParsedJob :=
  let '(company, title, url, location) := c in
  match Hashing.canonicalise_url url with
  | None => None
  | Some canon =>
      match Hashing.url_hash canon with
      | None => None
      | Some h =>
          Some {| company := company; title := title; url := canon;
                  url_hash := h; ats_type := Hashing.detect_ats_from_url canon;
                  location := location; source_email_id := source_email_id;
                  discovered_at := now |}
      end
  end.

(** Three candidates: two whose URLs have one canonical form, and one
    without a title. *)
Definition example_candidates : list candidate :=
  [ ("Acme", "Software Engineer Intern", "https://x.com/a?utm_source=foo", None);
    ("Acme", "SWE Intern", "https://x.com/a/", Some "Remote");
    ("Unknown Company", "", "https://x.com/b", None) ].

Section WithExtractor.

(** [_extract_candidates(soup)] after [BeautifulSoup(html, "lxml")] and
    [_remove_boilerplate(soup)]: the HTML library's part, taken as given. *)
Variable extract_candidates : string -> list candidate.

Definition parse_email_html (html : string) (source_email_id : option string)
    (now : Z) : option (list ParsedJob) :=
  match parse_loop source_email_id now ([], []) (extract_candidates html) with
  | Some (jobs, _) => Some jobs
  | None => None
  end.

End WithExtractor.

(** The jobs that the example candidates give. *)
Definition example_jobs : list ParsedJob :=
  match parse_email_html (fun _ => example_candidates) "" None 0 with
  | Some jobs => jobs
  | None => []
  end.

(** A job is new to a run of the loop when it is the job of a candidate with
    a URL and a title, its hash is not in [seen], and no earlier candidate
    with a URL and a title has its hash. *)
Definition first_of (sid : option string) (now : Z) (seen : list string)
    (cs : list candidate) (j : ParsedJob) : Prop :=
  exists pre c post,
    cs = (pre ++ c :: post)%list
    /\ has_url_and_title c = true
    /\ job_of sid now c = Some j
    /\ ~ In (url_hash j) seen
    /\ forall c' j', In c' pre -> has_url_and_title c' = true ->
         job_of sid now c' = Some j' -> url_hash j' <> url_hash j.

(** *** [_clean_text] *)

(** [re.sub(r"\s+", " ", text)]: every maximal run of white space becomes
    one space.  [in_run] tells whether the character before was white
    space. *)
Fixpoint collapse_ws (in_run : bool) (text : string) : string :=
  match text with
  | EmptyString => EmptyString
  | String c t =>
      if is_space c
      then if in_run then collapse_ws true t else String " " (collapse_ws true t)
      else String c (collapse_ws false t)
  end.

(** [_clean_text(text)]. *)
Definition _clean_text (text : option string) : string :=
  strip (collapse_ws false (or_else text "")).

(** Whether a text starts with white space. *)
Definition head_space (s : string) : bool :=
  match s with
  | String c _ => is_space c
  | EmptyString => false
  end.

(** Every white-space character of the text is a space, and none follows
    another. *)
Fixpoint single_spaced (s : string) : bool :=
  match s with
  | EmptyString => true
  | String c t =>
      (if is_space c then Ascii.eqb c " " && negb (head_space t) else true)
      && single_spaced t
  end.
End Parser.

(** ** app/sources/github_readme.py *)

Module GithubReadme.

Import PyStr Parser.

(** What BeautifulSoup reports of an anchor with an [href]: the target and
    the [alt] texts of the images inside. *)
Record Anchor := {
  href : string;
  img_alts : list string;
}.

(** What BeautifulSoup reports of a table cell. *)
Record Cell := {
  get_text : string;                 (* td.get_text() *)
  get_text_strip : string;           (* td.get_text(strip=True) *)
  first_a_text : option string;      (* td.find("a").get_text(strip=True) *)
  anchors : list Anchor;             (* td.find_all("a", href=True) *)
}.

Record Table := {
  headers : list string;             (* th.get_text(strip=True), each th *)
  rows : list (list Cell);           (* row.find_all("td"), each tr *)
}.

Definition _SKIPPED_ATS : list string := [ "workday"; "taleo" ].

(** U+1F512, the lock, and U+21B3, the continuation arrow, in UTF-8. *)
Definition lock_glyph : string :=
  string_of_list_ascii (map ascii_of_nat [240; 159; 148; 146]).
Definition continuation_glyph : string :=
  string_of_list_ascii (map ascii_of_nat [226; 134; 179]).

(** [re.compile(r"^Apply$", re.I).search(alt)]: the dollar also matches
    before one final newline. *)
Definition is_apply_alt (alt : string) : bool :=
  let l := lower alt in
  String.eqb l "apply" || String.eqb l (String.append "apply" (String (ascii_of_nat 10) "")).

Definition _get_apply_url (application_td : Cell) : option string :=
  if contains lock_glyph (get_text application_td) then None
  else
    match find (fun a => existsb is_apply_alt (img_alts a)) (anchors application_td) with
    | Some a => Some (href a)
    | None => None
    end.

Section WithRegex.

(** [_strip_emoji]: a regular-expression substitution over code points
    followed by [strip()]; the regular-expression engine's part, taken
    as given. *)
Variable _strip_emoji : string -> string.

(** The loop state: [current_company], [jobs] and [seen_hashes]. *)
Definition state : Type := option string * list ParsedJob * list string.

Definition row_step (keywords_lower : list string) (now : Z)
    (st : state) (cells : list Cell) : option state :=
  let '(current_company, jobs, seen_hashes) := st in
  match cells with
  | company_td :: role_td :: location_td :: application_td :: _ =>
      let company_text := get_text_strip company_td in
      let current_company :=
        if negb (contains continuation_glyph company_text)
        then Some (_strip_emoji (match first_a_text company_td with
                                 | Some t => t
                                 | None => company_text
                                 end))
        else current_company in
      let skip := Some (current_company, jobs, seen_hashes) in
      match current_company with
      | None => skip
      | Some company =>
          if negb (nonempty company) then skip
          else
            match _get_apply_url application_td with
            | None => skip
            | Some url =>
                if negb (nonempty url) then skip
                else
                  let role := _strip_emoji (get_text_strip role_td) in
                  if negb (nonempty role) then skip
                  else if negb (existsb (fun kw => contains kw (lower role)) keywords_lower)
                  then skip
                  else
                    let ats := Hashing.detect_ats_from_url url in
                    if mem ats _SKIPPED_ATS then skip
                    else
                      match Hashing.canonicalise_url url with
                      | None => None
                      | Some canon =>
                          match Hashing.url_hash canon with
                          | None => None
                          | Some h =>
                              if mem h seen_hashes then skip
                              else
                                let loc := _strip_emoji (get_text_strip location_td) in
                                Some (current_company,
                                      (jobs ++ [ {| company := company; title := role;
                                                    url := canon; url_hash := h;
                                                    ats_type := ats;
                                                    location := if nonempty loc
                                                                then Some loc else None;
                                                    source_email_id := None;
                                                    discovered_at := now |} ])%list,
                                      h :: seen_hashes)
                          end
                      end
            end
      end
  | _ => Some st
  end.

Fixpoint row_loop (keywords_lower : list string) (now : Z)
    (st : state) (trs : list (list Cell)) : option state :=
  match trs with
  | [] => Some st
  | cells :: rest =>
      match row_step keywords_lower now st cells with
      | Some st' => row_loop keywords_lower now st' rest
      | None => None
      end
  end.

(** [fetch_github_jobs], from the parsed README on: [tables] is
    [soup.find_all("table")]. *)
Definition fetch_github_jobs (filter_cfg : FilterConfig) (tables : list Table)
    (now : Z) : option (list ParsedJob) :=
  let keywords_lower := map lower (title_keywords filter_cfg) in
  match find (fun t => mem "Company" (headers t) && mem "Role" (headers t)
                       && mem "Application" (headers t)) tables with
  | None => Some []
  | Some table =>
      match row_loop keywords_lower now (None, [], []) (rows table) with
      | Some (_, jobs, _) => Some jobs
      | None => None
      end
  end.

(** The job that a table row gives: the row has an open Application cell
    with an Apply link, and the job's fields are read off the row. *)
Definition built_from (cells : list Cell) (j : ParsedJob) : Prop :=
  exists company_td role_td location_td application_td rest a,
    cells = company_td :: role_td :: location_td :: application_td :: rest
    /\ contains lock_glyph (get_text application_td) = false
    /\ In a (anchors application_td)
    /\ existsb is_apply_alt (img_alts a) = true
    /\ Hashing.canonicalise_url (href a) = Some (url j)
    /\ Hashing.url_hash (url j) = Some (url_hash j)
    /\ ats_type j = Hashing.detect_ats_from_url (href a)
    /\ title j = _strip_emoji (get_text_strip role_td)
    /\ nonempty (title j) = true
    /\ nonempty (company j) = true
    /\ source_email_id j = None.

End WithRegex.

(** A feed with an open role, a role on Workday, a role without a keyword
    and a closed role. *)
Definition example_cell (text : string) : Cell :=
  {| get_text := text; get_text_strip := text; first_a_text := None; anchors := [] |}.

Definition example_apply (target : string) : Cell :=
  {| get_text := ""; get_text_strip := ""; first_a_text := None;
     anchors := [ {| href := "https://simplify.jobs/p/1"; img_alts := ["Simplify"] |};
                  {| href := target; img_alts := ["Apply"] |} ] |}.

Definition example_tables : list Table :=
  [ {| headers := ["Company"; "Role"; "Location"; "Application"; "Age"];
       rows :=
         [ [ example_cell "Acme"; example_cell "Software Engineer Intern";
             example_cell "Remote"; example_apply "https://jobs.ashbyhq.com/acme/1";
             example_cell "1d" ];
           [ example_cell continuation_glyph; example_cell "Backend Intern";
             example_cell "NYC";
             example_apply "https://acme.wd1.myworkdayjobs.com/jobs/2";
             example_cell "1d" ];
           [ example_cell "Beta"; example_cell "Accountant";
             example_cell "NYC"; example_apply "https://boards.greenhouse.io/beta/3";
             example_cell "2d" ];
           [ example_cell "Gamma"; example_cell "Data Intern";
             example_cell "SF"; example_cell lock_glyph; example_cell "3d" ] ] |} ].

Definition example_feed_jobs : list ParsedJob :=
  match fetch_github_jobs strip default_FilterConfig example_tables 0 with
  | Some jobs => jobs
  | None => []
  end.

(** What the feed lets through: a title with a configured keyword in it,
    case-insensitively, and an ATS tag that is not skipped. *)
Definition relevant (cfg : FilterConfig) (j : ParsedJob) : Prop :=
  (exists kw, In kw (title_keywords cfg)
              /\ contains (lower kw) (lower (title j)) = true)
  /\ ats_type j <> "workday" /\ ats_type j <> "taleo".

End GithubReadme.

(** ** app/models/schema.py: the tables, and a session over them *)

Module Schema.

Module JobStatus.
Inductive t := discovered | queued | filtered_out | skipped.

Definition eqb (a b : t) : bool :=
  match a, b with
  | discovered, discovered | queued, queued
  | filtered_out, filtered_out | skipped, skipped => true
  | _, _ => false
  end.
End JobStatus.

Module ApplicationStatus.
Inductive t :=
  | queued | started | filled | needs_review | submitted | skipped | error.
End ApplicationStatus.

(** A row of [job_posts].  The primary key is a fresh number where the
    code draws a [uuid4]. *)
Record JobPost := {
  id : nat;
  url_hash : string;
  company : string;
  title : string;
  location : option string;
  url : string;
  ats_type : option string;
  fit_score : float;
  fit_reason : string;
  source_email_id : option string;
  discovered_at : Z;
  status : JobStatus.t;
}.

(** A row of [applications]; the columns that [queue] leaves at their
    default [None] are not carried. *)
Record Application := {
  app_id : nat;
  job_post_id : nat;
  app_status : ApplicationStatus.t;
  app_ats_type : option string;
}.

(** The contents of the database, with the supply of fresh keys. *)
Record Db := {
  job_posts : list JobPost;
  applications : list Application;
  next_id : nat;
}.

(** A session: what is committed, and what the open transaction sees
    (queries flush pending changes first, so they read [pending]). *)
Record Session := {
  committed : Db;
  pending : Db;
}.

Definition get_session (db : Db) : Session := {| committed := db; pending := db |}.

(** [session.commit()]. *)
Definition commit (s : Session) : Session :=
  {| committed := pending s; pending := pending s |}.

(** Leaving the [with] block: what was not committed is dropped. *)
Definition close (s : Session) : Db := committed s.

(** [select(JobPost).where(JobPost.url_hash == h)], [.first()]. *)
Definition first_by_hash (h : string) (s : Session) : option JobPost :=
  find (fun jp => String.eqb (url_hash jp) h) (job_posts (pending s)).

(** [session.add(jp)] for a new [JobPost], flushed: the column
    [url_hash] is unique, and a second row with a stored hash is the
    database's [IntegrityError], here [None]. *)
Definition add_job_post (mk : nat -> JobPost) (s : Session) : option Session :=
  let d := pending s in
  let jp := mk (next_id d) in
  if existsb (fun r => String.eqb (url_hash r) (url_hash jp)) (job_posts d) then None
  else Some {| committed := committed s;
               pending := {| job_posts := (job_posts d ++ [jp])%list;
                             applications := applications d;
                             next_id := S (next_id d) |} |}.

(** [session.add(app)] for a new [Application]. *)
Definition add_application (mk : nat -> Application) (s : Session) : Session :=
  let d := pending s in
  {| committed := committed s;
     pending := {| job_posts := job_posts d;
                   applications := (applications d ++ [mk (next_id d)])%list;
                   next_id := S (next_id d) |} |}.

(** Attribute assignments on the persistent row with key [i], then
    [session.add]: the row is updated in place. *)
Definition update_job_post (i : nat) (f : JobPost -> JobPost) (s : Session) : Session :=
  let d := pending s in
  {| committed := committed s;
     pending := {| job_posts := map (fun r => if Nat.eqb (id r) i then f r else r)
                                    (job_posts d);
                   applications := applications d;
                   next_id := next_id d |} |}.

Definition set_fit (sc : float) (why : string) (jp : JobPost) : JobPost :=
  {| id := id jp; url_hash := url_hash jp; company := company jp; title := title jp;
     location := location jp; url := url jp; ats_type := ats_type jp;
     fit_score := sc; fit_reason := why;
     source_email_id := source_email_id jp; discovered_at := discovered_at jp;
     status := status jp |}.

Definition set_status (st : JobStatus.t) (jp : JobPost) : JobPost :=
  {| id := id jp; url_hash := url_hash jp; company := company jp; title := title jp;
     location := location jp; url := url jp; ats_type := ats_type jp;
     fit_score := fit_score jp; fit_reason := fit_reason jp;
     source_email_id := source_email_id jp; discovered_at := discovered_at jp;
     status := st |}.

(** The rows after [update_job_post]. *)
Definition apply_update (i : nat) (f : JobPost -> JobPost) (rows : list JobPost)
    : list JobPost :=
  map (fun r => if Nat.eqb (id r) i then f r else r) rows.

End Schema.

(** ** app/cli/main.py: [_store_jobs] and [queue] *)

Module Cli.

Import Schema.

(** One turn of the loop of [_store_jobs]; the state is the session and
    [new_count]. *)
Definition store_step (source_email_db_id : option string) (dry_run : bool)
    (st : Session * nat) (job : Parser.ParsedJob) : option (Session * nat) :=
  let '(session, new_count) := st in
  match first_by_hash (Parser.url_hash job) session with
  | Some existing => Some st
  | None =>
      if dry_run then Some (session, S new_count)
      else
        match add_job_post
                (fun fresh =>
                   {| id := fresh;
                      url_hash := Parser.url_hash job;
                      company := Parser.company job;
                      title := Parser.title job;
                      location := Parser.location job;
                      url := Parser.url job;
                      ats_type := Some (Parser.ats_type job);
                      fit_score := 0%float;
                      fit_reason := "";
                      source_email_id := source_email_db_id;
                      discovered_at := Parser.discovered_at job;
                      status := JobStatus.discovered |}) session with
        | Some session' => Some (session', S new_count)
        | None => None
        end
  end.

Fixpoint store_loop (source_email_db_id : option string) (dry_run : bool)
    (st : Session * nat) (jobs : list Parser.ParsedJob) : option (Session * nat) :=
  match jobs with
  | [] => Some st
  | job :: rest =>
      match store_step source_email_db_id dry_run st job with
      | Some st' => store_loop source_email_db_id dry_run st' rest
      | None => None
      end
  end.

(** [_store_jobs(session, jobs, source_email_db_id, dry_run)]: the session
    after it and [(total, new_count)]. *)
Definition _store_jobs (session : Session) (jobs : list Parser.ParsedJob)
    (source_email_db_id : option string) (dry_run : bool)
    : option (Session * (nat * nat)) :=
  match store_loop source_email_db_id dry_run (session, 0) jobs with
  | Some (session', new_count) => Some (session', (List.length jobs, new_count))
  | None => None
  end.

(** The storing block of [fetch] and [watch] for one batch of jobs (the
    jobs of the feed, with no source email, or the jobs of one email): a
    session, [_store_jobs], and a commit unless it is a dry run. *)
Definition store_batch (source_email_db_id : option string) (dry_run : bool)
    (db : Db) (jobs : list Parser.ParsedJob) : option Db :=
  match _store_jobs (get_session db) jobs source_email_db_id dry_run with
  | Some (session, _) => Some (close (if dry_run then session else commit session))
  | None => None
  end.

(** A sequence of such blocks, each with its source email and its
    [--dry-run] flag. *)
Fixpoint store_batches (db : Db)
    (batches : list (option string * bool * list Parser.ParsedJob)) : option Db :=
  match batches with
  | [] => Some db
  | (source_email_db_id, dry_run, jobs) :: rest =>
      match store_batch source_email_db_id dry_run db jobs with
      | Some db' => store_batches db' rest
      | None => None
      end
  end.

(** The hashes of the stored rows, the number of rows with a given hash, and
    the constraint that the column [url_hash] is unique. *)
Definition hashes (db : Db) : list string := map url_hash (job_posts db).

Definition count_hash (h : string) (db : Db) : nat :=
  List.length (filter (fun r => String.eqb (url_hash r) h) (job_posts db)).

Definition unique_hashes (db : Db) : Prop := NoDup (hashes db).

(** *** [queue] *)

Definition is_active (a : ApplicationStatus.t) : bool :=
  match a with
  | ApplicationStatus.queued | ApplicationStatus.started
  | ApplicationStatus.filled | ApplicationStatus.needs_review => true
  | _ => false
  end.

(** The scoring loop: each discovered row gets its score and reason, and
    is put on [to_queue] or on [filtered_out]. *)
Fixpoint score_loop (cfg : FilterConfig) (session : Session)
    (to_queue filtered_out : list JobPost) (rows : list JobPost)
    : Session * list JobPost * list JobPost :=
  match rows with
  | [] => (session, to_queue, filtered_out)
  | jp :: rest =>
      let result :=
        Filter.score_job (title jp) (company jp) (location jp) (ats_type jp) cfg in
      let session :=
        update_job_post (id jp)
          (set_fit (Filter.score result) (Filter.reason result)) session in
      if Filter.should_queue result
      then score_loop cfg session (to_queue ++ [jp])%list filtered_out rest
      else score_loop cfg session to_queue (filtered_out ++ [jp])%list rest
  end.

(** The loop over [to_queue]: the status, and an application record unless
    an active one exists. *)
Fixpoint queue_loop (session : Session) (queued_count : nat) (to_queue : list JobPost)
    : Session * nat :=
  match to_queue with
  | [] => (session, queued_count)
  | jp :: rest =>
      let session := update_job_post (id jp) (set_status JobStatus.queued) session in
      let existing_app :=
        find (fun a => Nat.eqb (job_post_id a) (id jp) && is_active (app_status a))
             (applications (pending session)) in
      match existing_app with
      | Some _ => queue_loop session queued_count rest
      | None =>
          let session :=
            add_application
              (fun fresh => {| app_id := fresh; job_post_id := id jp;
                               app_status := ApplicationStatus.queued;
                               app_ats_type := ats_type jp |}) session in
          queue_loop session (S queued_count) rest
      end
  end.

Definition filter_loop (session : Session) (filtered_out : list JobPost) : Session :=
  fold_left (fun s jp => update_job_post (id jp) (set_status JobStatus.filtered_out) s)
            filtered_out session.

(** What one run of [queue] leaves: the database after each commit, in
    order, and the database at the end. *)
Record QueueRun := {
  commits : list Db;
  final : Db;
}.

(** [if min_score is not None: cfg.filter.min_score = min_score]. *)
Definition with_min_score (cfg : FilterConfig) (min_score_opt : option float)
    : FilterConfig :=
  match min_score_opt with
  | Some m => {| min_score := m; title_keywords := title_keywords cfg;
                 preferred_ats := preferred_ats cfg;
                 preferred_locations := preferred_locations cfg;
                 excluded_locations := excluded_locations cfg |}
  | None => cfg
  end.

(** [queue]: [min_score_opt] is the [--min-score] option, [yes] the [--yes]
    flag and [confirmed] the answer to the prompt when it is asked. *)
Definition queue (db : Db) (cfg : FilterConfig) (min_score_opt : option float)
    (yes confirmed : bool) : QueueRun :=
  let cfg := with_min_score cfg min_score_opt in
  let session := get_session db in
  let discovered_rows :=
    filter (fun jp => JobStatus.eqb (status jp) JobStatus.discovered)
           (job_posts (pending session)) in
  match discovered_rows with
  | [] => {| commits := []; final := close session |}
  | _ =>
      let '(session, to_queue, filtered_out) :=
        score_loop cfg session [] [] discovered_rows in
      let session := commit session in
      let first := committed session in
      match to_queue with
      | [] => {| commits := [first]; final := close session |}
      | _ =>
          if negb yes && negb confirmed
          then {| commits := [first]; final := close session |}
          else
            let '(session, _) := queue_loop session 0 to_queue in
            let session := filter_loop session filtered_out in
            let session := commit session in
            {| commits := [first; committed session]; final := close session |}
      end
  end.

(** *** What a scoring pass does to one row *)

Definition is_discovered (jp : JobPost) : bool :=
  JobStatus.eqb (status jp) JobStatus.discovered.

Definition result_of (cfg : FilterConfig) (jp : JobPost) : Filter.ScoringResult :=
  Filter.score_job (title jp) (company jp) (location jp) (ats_type jp) cfg.

(** A discovered row with its score and reason written, the status as it
    was. *)
Definition scored (cfg : FilterConfig) (jp : JobPost) : JobPost :=
  if is_discovered jp
  then set_fit (Filter.score (result_of cfg jp)) (Filter.reason (result_of cfg jp)) jp
  else jp.

(** A discovered row with its score and reason written and the status that
    the score decides. *)
Definition decided (cfg : FilterConfig) (jp : JobPost) : JobPost :=
  if is_discovered jp
  then set_status (if Filter.should_queue (result_of cfg jp)
                   then JobStatus.queued else JobStatus.filtered_out)
                  (scored cfg jp)
  else jp.

(** The primary key identifies the row. *)
Definition unique_ids (db : Db) : Prop := NoDup (map id (job_posts db)).

(** The empty store. *)
Definition empty_db : Db := {| job_posts := []; applications := []; next_id := 0 |}.

(** A store with one discovered job, the posting of scenario 1. *)
Definition one_discovered_job : Db :=
  {| job_posts :=
       [ {| id := 0;
            url_hash := Sha256.hexdigest "https://jobs.ashbyhq.com/acme/1";
            company := "Acme"; title := "Software Engineer Intern";
            location := None; url := "https://jobs.ashbyhq.com/acme/1";
            ats_type := Some "ashby"; fit_score := 0%float; fit_reason := "";
            source_email_id := None; discovered_at := 0%Z;
            status := JobStatus.discovered |} ];
     applications := [];
     next_id := 1 |}.

(** *** What a run of [queue] does to the applications *)

(** The application record that [queue] looks for: one of the job, in an
    active status. *)
Definition active_for (jp : JobPost) (a : Application) : bool :=
  Nat.eqb (job_post_id a) (id jp) && is_active (app_status a).

Definition has_active (apps : list Application) (jp : JobPost) : bool :=
  existsb (active_for jp) apps.

(** The jobs that a confirmed run queues, and those of them for which it
    creates an application record. *)
Definition queued_by (cfg : FilterConfig) (db : Db) : list JobPost :=
  filter (fun jp => Filter.should_queue (result_of cfg jp))
         (filter is_discovered (job_posts db)).

Definition needs_application (cfg : FilterConfig) (db : Db) : list JobPost :=
  filter (fun jp => negb (has_active (applications db) jp)) (queued_by cfg db).

(** A run of [queue] that went past the confirmation. *)
Definition confirmed_run (cfg : FilterConfig) (db : Db) (yes confirmed : bool) : Prop :=
  queued_by cfg db <> [] /\ (yes = true \/ confirmed = true).

(** *** What [_store_jobs] counts *)

(** The number of jobs of a batch whose hash the store does not hold. *)
Definition unknown_jobs (s : Session) (jobs : list Parser.ParsedJob) : nat :=
  List.length (filter (fun job => negb (PyStr.mem (Parser.url_hash job) (hashes (pending s))))
                      jobs).

(** The row that [_store_jobs] builds from a job. *)
Definition row_of (src : option string) (fresh : nat) (job : Parser.ParsedJob) : JobPost :=
  {| id := fresh;
     url_hash := Parser.url_hash job;
     company := Parser.company job;
     title := Parser.title job;
     location := Parser.location job;
     url := Parser.url job;
     ats_type := Some (Parser.ats_type job);
     fit_score := 0%float;
     fit_reason := "";
     source_email_id := src;
     discovered_at := Parser.discovered_at job;
     status := JobStatus.discovered |}.

End Cli.

(** ** app/models/schema.py: the cache of answers *)

Module Answers.

Import PyStr.

(** A row of [question_answers]. *)
Record QuestionAnswer := {
  qa_id : nat;
  question_label : string;
  ats_type : string;
  answer : string;
  created_at : Z;
  updated_at : Z;
}.

(** The table, with the supply of fresh keys. *)
Record Table := {
  rows : list QuestionAnswer;
  next_id : nat;
}.

Record Session := {
  committed : Table;
  pending : Table;
}.

Definition get_session (t : Table) : Session := {| committed := t; pending := t |}.

Definition commit (s : Session) : Session :=
  {| committed := pending s; pending := pending s |}.

Definition close (s : Session) : Table := committed s.

(** [question_label.strip().lower()]. *)
Definition normalised (question_label : string) : string := lower (strip question_label).

(** The [where] clause of [find_cached_answer]. *)
Definition matches (question_label ats : string) (qa : QuestionAnswer) : bool :=
  String.eqb (Answers.question_label qa) (normalised question_label)
  && String.eqb (ats_type qa) ats.

Definition find_cached_answer (session : Session) (question_label ats : string)
    : option QuestionAnswer :=
  find (matches question_label ats) (rows (pending session)).

(** Attribute assignments on the first row that satisfies [p]: the row that
    [.first()] returned. *)
Fixpoint update_first (p : QuestionAnswer -> bool) (f : QuestionAnswer -> QuestionAnswer)
    (l : list QuestionAnswer) : list QuestionAnswer :=
  match l with
  | [] => []
  | r :: rest => if p r then f r :: rest else r :: update_first p f rest
  end.

Definition set_answer (a : string) (now : Z) (qa : QuestionAnswer) : QuestionAnswer :=
  {| qa_id := qa_id qa; question_label := Answers.question_label qa;
     ats_type := ats_type qa; answer := a;
     created_at := created_at qa; updated_at := now |}.

(** [upsert_answer]: the session after it and the row it returns.  [now] is
    the reading of the clock for [updated_at], and [created] the one for the
    [created_at] of a new row. *)
Definition upsert_answer (session : Session) (question_label ats a : string)
    (created now : Z) : Session * QuestionAnswer :=
  let d := pending session in
  match find_cached_answer session question_label ats with
  | Some existing =>
      (commit {| committed := committed session;
                 pending := {| rows := update_first (matches question_label ats)
                                         (set_answer a now) (rows d);
                               next_id := next_id d |} |},
       set_answer a now existing)
  | None =>
      let qa := {| qa_id := next_id d; question_label := normalised question_label;
                   ats_type := ats; answer := a;
                   created_at := created; updated_at := now |} in
      (commit {| committed := committed session;
                 pending := {| rows := (rows d ++ [qa])%list;
                               next_id := S (next_id d) |} |},
       qa)
  end.

End Answers.

(** ** app/cli/main.py: [QuestionResolver] *)

Module Resolver.

Import PyStr Answers.

(** [self._run_cache]: a [dict] from keys to answers, in insertion order. *)
Definition cache : Type := list (string * string).

Definition cache_get (key : string) (c : cache) : option string :=
  match find (fun kv => String.eqb (fst kv) key) c with
  | Some kv => Some (snd kv)
  | None => None
  end.

(** [c[key] = value]. *)
Fixpoint cache_set (key value : string) (c : cache) : cache :=
  match c with
  | [] => [(key, value)]
  | (k, v) :: rest =>
      if String.eqb k key then (k, value) :: rest else (k, v) :: cache_set key value rest
  end.

(** [f"{ats_type}::{label.strip().lower()}"]. *)
Definition cache_key (label ats : string) : string :=
  (ats ++ "::" ++ normalised label)%string.

(** [get_cached_answer]. *)
Definition get_cached_answer (c : cache) (label ats : string) : string :=
  match cache_get (cache_key label ats) c with
  | Some a => a
  | None => ""
  end.

(** Where an answer came from. *)
Inductive source := from_run_cache | from_database | from_prompt.

(** [__call__]: the answer, the run cache and the table after the call, and
    where the answer came from.  [typed] is what [Prompt.ask] returns when
    the user is asked. *)
Definition resolve (c : cache) (db : Table) (label ats typed : string)
    (created now : Z) : string * cache * Table * source :=
  let key := cache_key label ats in
  match cache_get key c with
  | Some a => (a, c, db, from_run_cache)
  | None =>
      let session := get_session db in
      match find_cached_answer session label ats with
      | Some cached =>
          (answer cached, cache_set key (answer cached) c, close session, from_database)
      | None =>
          let session := get_session db in
          let '(session, _) := upsert_answer session label ats typed created now in
          (typed, cache_set key typed c, close session, from_prompt)
      end
  end.

(** A table with an answer for Greenhouse. *)
Definition example_table : Table :=
  {| rows := [ {| qa_id := 0; question_label := "visa sponsorship?";
                  ats_type := "greenhouse"; answer := "No";
                  created_at := 0; updated_at := 0 |} ];
     next_id := 1 |}.

End Resolver.

(** ** app/utils/config.py: the resume of [AppConfig] *)

Module Config.

Import PyStr.

(** The exceptions that [validate_resume] and [get_resume] raise. *)
Inductive error := ValueError | FileNotFoundError.

(** The fields of [AppConfig] that [get_resume] reads; a path is its text. *)
Record AppConfig := {
  resume_default_path : option string;
  resume_variants : list (string * string);
}.

(** [variant in self.resume_variants], with [self.resume_variants[variant]]. *)
Definition variant_path (cfg : AppConfig) (variant : string) : option string :=
  match find (fun kv => String.eqb (fst kv) variant) (resume_variants cfg) with
  | Some kv => Some (snd kv)
  | None => None
  end.

Section WithFiles.

(** [p.exists()]: the state of the file system. *)
Variable exists_ : string -> bool.

Definition validate_resume (cfg : AppConfig) : error + unit :=
  match resume_default_path cfg with
  | None => inl ValueError
  | Some p => if exists_ p then inr tt else inl FileNotFoundError
  end.

Definition get_resume (cfg : AppConfig) (variant : option string) : error + string :=
  let by_default :=
    match validate_resume cfg with
    | inl e => inl e
    | inr _ =>
        match resume_default_path cfg with
        | Some p => inr p
        | None => inl ValueError
        end
    end in
  match variant with
  | Some v =>
      if nonempty v
      then match variant_path cfg v with
           | Some p => if exists_ p then inr p else inl FileNotFoundError
           | None => by_default
           end
      else by_default
  | None => by_default
  end.

End WithFiles.

(** A configuration with a default resume and one variant. *)
Definition example_config : AppConfig :=
  {| resume_default_path := Some "/home/u/resume.pdf";
     resume_variants := [("backend", "/home/u/resume-backend.pdf")] |}.

End Config.

(** ** app/adapters: the registry

    A pattern compiled with [re.I] is searched in the lowered URL. *)

Module Adapters.

Import PyStr.

(** [s[len(p):]] when [s] starts with [p]. *)
Fixpoint drop_prefix (p s : string) {struct p} : option string :=
  match p, s with
  | EmptyString, _ => Some s
  | String a p', String b s' => if Ascii.eqb a b then drop_prefix p' s' else None
  | String _ _, EmptyString => None
  end.

(** [workday\.com/[^/]+/hiring], matched at the start of [s]: the segment
    after the first slash is not empty and runs up to the next slash. *)
Definition hiring_here (s : string) : bool :=
  match drop_prefix "workday.com/" s with
  | Some rest =>
      let '(segment, after) := break_at (fun c => Ascii.eqb c "/") rest in
      nonempty segment && startswith after "/hiring"
  | None => false
  end.

(** [pattern.search(s)] for a pattern that [here] matches at the start. *)
Fixpoint search (here : string -> bool) (s : string) : bool :=
  here s ||
  match s with
  | EmptyString => false
  | String _ t => search here t
  end.

(** [can_handle] of the four adapters, by their [ats_type]. *)
Definition ashby_can_handle (url : string) : bool :=
  contains "ashbyhq.com" (lower url) || contains "ashby.com" (lower url).

Definition greenhouse_can_handle (url : string) : bool :=
  contains "greenhouse.io" (lower url) || contains "grnh.se" (lower url).

Definition lever_can_handle (url : string) : bool :=
  contains "jobs.lever.co" (lower url).

Definition workday_can_handle (url : string) : bool :=
  contains "myworkdayjobs.com" (lower url) || search hiring_here (lower url).

(** [_REGISTRY], each adapter with its [ats_type]. *)
Definition _REGISTRY : list (string * (string -> bool)) :=
  [ ("ashby", ashby_can_handle); ("greenhouse", greenhouse_can_handle);
    ("lever", lever_can_handle); ("workday", workday_can_handle) ].

(** [get_adapter(url)]: the [ats_type] of the adapter it instantiates. *)
Definition get_adapter (url : string) : option string :=
  match find (fun a => snd a url) _REGISTRY with
  | Some a => Some (fst a)
  | None => None
  end.

Definition detect_ats (url : string) : string :=
  match get_adapter url with
  | Some ats_type => ats_type
  | None => Hashing.detect_ats_from_url url
  end.

End Adapters.

(** * Properties *)

(** ** Signs and bounds of binary64 arithmetic *)

Module FloatFacts.

#[local] Open Scope Z_scope.

Lemma shr_1_nonneg mrs : 0 <= shr_m mrs -> 0 <= shr_m (shr_1 mrs).
Proof.
  destruct mrs as [m r s]; simpl.
  destruct m as [|p|p]; simpl; try lia; destruct p; simpl; lia.
Qed.

Lemma iter_pos_invariant {A} (P : A -> Prop) (f : A -> A) :
  (forall x, P x -> P (f x)) -> forall p x, P x -> P (iter_pos f p x).
Proof.
  intros Hf p; induction p as [p IH|p IH|]; intros x Hx; simpl; auto.
Qed.

Lemma shr_nonneg mrs e n : 0 <= shr_m mrs -> 0 <= shr_m (fst (shr mrs e n)).
Proof.
  intros H; unfold shr; destruct n; simpl; auto.
  apply (iter_pos_invariant (fun r => 0 <= shr_m r)); auto using shr_1_nonneg.
Qed.

Lemma shr_record_of_loc_m m l : shr_m (shr_record_of_loc m l) = m.
Proof. destruct l as [|[]]; reflexivity. Qed.

Lemma shr_fexp_nonneg m e l : 0 <= m -> 0 <= shr_m (fst (shr_fexp prec emax m e l)).
Proof.
  intros H; unfold shr_fexp; apply shr_nonneg; now rewrite shr_record_of_loc_m.
Qed.

Lemma round_nearest_even_nonneg m l : 0 <= m -> 0 <= round_nearest_even m l.
Proof.
  intros H; destruct l as [|[]]; simpl; try lia.
  destruct (Z.even m); lia.
Qed.

Lemma binary_round_aux_nonneg mx ex lx :
  0 <= mx -> PyFloat.nonneg_sf (binary_round_aux prec emax false mx ex lx).
Proof.
  intros H; unfold binary_round_aux.
  pose proof (shr_fexp_nonneg mx ex lx H) as H1.
  destruct (shr_fexp prec emax mx ex lx) as [mrs' e']; simpl in H1.
  pose proof (shr_fexp_nonneg _ e' loc_Exact
                (round_nearest_even_nonneg _ (loc_of_shr_record mrs') H1)) as H2.
  destruct (shr_fexp prec emax _ e' loc_Exact) as [mrs'' e'']; simpl in H2.
  destruct (shr_m mrs'') as [|p|p]; simpl; auto; try lia.
  destruct (_ <=? _); simpl; auto.
Qed.

Lemma binary_round_nonneg m e : PyFloat.nonneg_sf (binary_round prec emax false m e).
Proof.
  unfold binary_round.
  destruct (shl_align m e _) as [mz ez].
  apply binary_round_aux_nonneg; lia.
Qed.

Lemma binary_normalize_nonneg m e :
  0 <= m -> PyFloat.nonneg_sf (binary_normalize prec emax m e false).
Proof.
  intros H; destruct m; simpl; auto using binary_round_nonneg; lia.
Qed.

Lemma SFadd_nonneg x y :
  PyFloat.nonneg_sf x -> PyFloat.nonneg_sf y -> PyFloat.nonneg_sf (SF64add x y).
Proof.
  destruct x as [[]|[]| |[] mx ex]; destruct y as [[]|[]| |[] my ey];
    simpl; try tauto; intros _ _.
  apply binary_round_nonneg.
Qed.

Lemma SFmul_nonneg mx ex y :
  PyFloat.nonneg_sf y -> PyFloat.nonneg_sf (SF64mul (S754_finite false mx ex) y).
Proof.
  destruct y as [[]|[]| |[] my ey]; simpl; try tauto; intros _.
  apply binary_round_aux_nonneg; lia.
Qed.

Lemma SFdiv_nonneg x my ey :
  PyFloat.nonneg_sf x -> PyFloat.nonneg_sf (SF64div x (S754_finite false my ey)).
Proof.
  destruct x as [[]|[]| |[] mx ex]; simpl; try tauto; intros _.
  unfold SFdiv_core_binary.
  set (s := _ - _ - _).
  set (m' := match s with Z0 => _ | Zpos _ => _ | Zneg _ => _ end).
  assert (Hm : 0 <= m').
  { subst m'; destruct s; try lia. apply Z.shiftl_nonneg; lia. }
  pose proof (Z.div_pos m' (Z.pos my) Hm ltac:(lia)) as Hq.
  unfold Z.div in Hq.
  destruct (Z.div_eucl m' (Z.pos my)) as [q r]; simpl in Hq.
  now apply binary_round_aux_nonneg.
Qed.

Lemma add_nonneg x y : PyFloat.nonneg x -> PyFloat.nonneg y -> PyFloat.nonneg (x + y)%float.
Proof. unfold PyFloat.nonneg; rewrite add_spec; apply SFadd_nonneg. Qed.

Lemma of_uint63_nonneg n : PyFloat.nonneg (PrimFloat.of_uint63 n).
Proof.
  unfold PyFloat.nonneg; rewrite of_uint63_spec.
  apply binary_normalize_nonneg. apply Uint63.to_Z_bounded.
Qed.

Lemma leb_zero x : PyFloat.nonneg x -> (0 <=? x)%float = true.
Proof.
  unfold PyFloat.nonneg; rewrite leb_spec.
  change (Prim2SF 0%float) with (S754_zero false).
  destruct (Prim2SF x) as [[]|[]| |[] m e]; simpl; tauto.
Qed.

Lemma ltb_leb x y : (x <? y)%float = true -> (x <=? y)%float = true.
Proof.
  rewrite ltb_spec, leb_spec; unfold SFltb, SFleb.
  destruct (SFcompare _ _) as [[]|]; congruence.
Qed.

Lemma min_nonneg a b : PyFloat.nonneg a -> PyFloat.nonneg b -> PyFloat.nonneg (PyFloat.min a b).
Proof. unfold PyFloat.min; destruct (b <? a)%float; auto. Qed.

Lemma min_le a b : (a <=? a)%float = true -> (PyFloat.min a b <=? a)%float = true.
Proof.
  intros Ha; unfold PyFloat.min.
  destruct (b <? a)%float eqn:E; auto using ltb_leb.
Qed.

Lemma round3_nonneg x : PyFloat.nonneg x -> PyFloat.nonneg (PyFloat.round3 x).
Proof.
  intros H; unfold PyFloat.round3.
  destruct (Prim2SF x) as [s|s| |s m e] eqn:E; auto.
  destruct (PyFloat.round3_limit <=? abs x)%float; auto.
  unfold PyFloat.nonneg in H; rewrite E in H; destruct s; [contradiction|].
  unfold PyFloat.nonneg; rewrite div_spec.
  change (Prim2SF 1000%float) with (S754_finite false 8796093022208000 (-43)).
  apply SFdiv_nonneg, of_uint63_nonneg.
Qed.

Lemma mul_nonneg x y :
  (exists m e, Prim2SF x = S754_finite false m e) ->
  PyFloat.nonneg y -> PyFloat.nonneg (x * y)%float.
Proof.
  intros (m & e & Hx) Hy; unfold PyFloat.nonneg; rewrite mul_spec, Hx.
  now apply SFmul_nonneg.
Qed.

Lemma SFcompare_Eq_sym x y : SFcompare x y = Some Eq -> SFcompare y x = Some Eq.
Proof.
  destruct x as [[]|[]| |[] mx ex]; destruct y as [[]|[]| |[] my ey];
    simpl; try congruence; intros H;
    (destruct (ex ?= ey) eqn:Ee; try congruence;
     apply Z.compare_eq in Ee; subst ey; rewrite Z.compare_refl;
     destruct (Pos.compare_cont Eq mx my) eqn:Em; try discriminate H;
     apply Pos.compare_eq in Em; subst my;
     change (Pos.compare_cont Eq mx mx) with (Pos.compare mx mx);
     now rewrite Pos.compare_refl).
Qed.

(** Equal floats are ordered both ways (NaN equals nothing). *)
Lemma eqb_leb x y : (x =? y)%float = true -> (y <=? x)%float = true.
Proof.
  rewrite eqb_spec, leb_spec; unfold SFeqb, SFleb.
  destruct (SFcompare (Prim2SF x) (Prim2SF y)) as [[]|] eqn:E; try discriminate.
  now rewrite (SFcompare_Eq_sym _ _ E).
Qed.

End FloatFacts.

(** ** Facts about strings *)

Module PyStrFacts.

Import PyStr.

Lemma append_assoc (a b c : string) : ((a ++ b) ++ c = a ++ (b ++ c))%string.
Proof. induction a as [|x a IH]; simpl; [reflexivity|now rewrite IH]. Qed.

Lemma append_nil_r (a : string) : (a ++ "")%string = a.
Proof. induction a as [|x a IH]; simpl; [reflexivity|now rewrite IH]. Qed.

(** Joining a list that ends in [y] gives a string that ends in [y]. *)
Lemma join_snoc_endswith sep xs y : endswith (join sep (xs ++ [y])) y.
Proof.
  induction xs as [|x xs IH]; simpl.
  - now exists "".
  - destruct IH as [q Hq].
    destruct (xs ++ [y])%list eqn:E.
    + now destruct xs.
    + exists (x ++ sep ++ q)%string. rewrite Hq.
      now rewrite !append_assoc.
Qed.

Lemma endswith_append p s t : endswith s t -> endswith (p ++ s) t.
Proof.
  intros [q ->]. exists (p ++ q)%string. now rewrite append_assoc.
Qed.

(** *** Character classes *)

Lemma forallb_str_app p a b :
  forallb_str p (a ++ b) = forallb_str p a && forallb_str p b.
Proof.
  induction a as [|x a IH]; simpl; [reflexivity|].
  now rewrite IH, andb_assoc.
Qed.

Lemma forallb_str_impl (p q : ascii -> bool) s :
  (forall c, p c = true -> q c = true) ->
  forallb_str p s = true -> forallb_str q s = true.
Proof.
  intros Hpq. induction s as [|x s IH]; simpl; [reflexivity|].
  intros H. apply andb_prop in H as [H1 H2]. now rewrite (Hpq _ H1), IH.
Qed.

Lemma partition_free c s : free_of c s = true -> partition c s = None.
Proof.
  unfold free_of. induction s as [|x s IH]; simpl; [reflexivity|].
  intros H. apply andb_prop in H as [H1 H2].
  apply negb_true_iff in H1. now rewrite H1, IH.
Qed.

Lemma partition_app c a b :
  free_of c a = true -> partition c (a ++ String c b) = Some (a, b).
Proof.
  unfold free_of. induction a as [|x a IH]; simpl.
  - now rewrite Ascii.eqb_refl.
  - intros H. apply andb_prop in H as [H1 H2].
    apply negb_true_iff in H1. now rewrite H1, IH.
Qed.

Lemma break_at_app p a b :
  forallb_str (fun c => negb (p c)) a = true ->
  match b with EmptyString => True | String c _ => p c = true end ->
  break_at p (a ++ b) = (a, b).
Proof.
  induction a as [|x a IH]; simpl; intros Ha Hb.
  - destruct b as [|c b]; simpl; [reflexivity|now rewrite Hb].
  - apply andb_prop in Ha as [H1 H2]. apply negb_true_iff in H1.
    now rewrite H1, IH.
Qed.

Lemma lstrip_by_none p s :
  forallb_str (fun c => negb (p c)) s = true -> lstrip_by p s = s.
Proof.
  destruct s as [|x s]; simpl; [reflexivity|].
  intros H. apply andb_prop in H as [H1 _]. apply negb_true_iff in H1. now rewrite H1.
Qed.

Lemma lstrip_by_cons p c s : p c = false -> lstrip_by p (String c s) = String c s.
Proof. intros H; simpl; now rewrite H. Qed.

Lemma remove_by_cons p c s :
  p c = false -> remove_by p (String c s) = String c (remove_by p s).
Proof. intros H; simpl; now rewrite H. Qed.

Lemma partition_cons_ne c a t :
  Ascii.eqb a c = false ->
  partition c (String a t)
  = match partition c t with
    | Some (b, r) => Some (String a b, r)
    | None => None
    end.
Proof. intros H; simpl; now rewrite H. Qed.

Lemma partition_cons_eq c t : partition c (String c t) = Some (EmptyString, t).
Proof. simpl; now rewrite Ascii.eqb_refl. Qed.

Lemma rstrip_by_none p s :
  forallb_str (fun c => negb (p c)) s = true -> rstrip_by p s = s.
Proof.
  induction s as [|x s IH]; simpl; [reflexivity|].
  intros H. apply andb_prop in H as [H1 H2]. apply negb_true_iff in H1.
  rewrite (IH H2). destruct s; [now rewrite H1|reflexivity].
Qed.

Lemma remove_by_none p s :
  forallb_str (fun c => negb (p c)) s = true -> remove_by p s = s.
Proof.
  induction s as [|x s IH]; simpl; [reflexivity|].
  intros H. apply andb_prop in H as [H1 H2]. apply negb_true_iff in H1.
  now rewrite H1, IH.
Qed.

(** Stripping [c] on the right takes a final [c] away, and then goes on. *)
Lemma rstrip_by_snoc p s c :
  p c = true -> rstrip_by p (s ++ String c "") = rstrip_by p s.
Proof.
  intros Hc. induction s as [|x s IH]; simpl; [now rewrite Hc|now rewrite IH].
Qed.

Lemma rstrip_by_keep p s c :
  p c = false -> rstrip_by p (s ++ String c "") = (s ++ String c "")%string.
Proof.
  intros Hc. induction s as [|x s IH]; simpl; [now rewrite Hc|].
  rewrite IH. now destruct s.
Qed.

Lemma contains_char_free c s :
  free_of c s = true -> contains (String c "") s = false.
Proof.
  unfold free_of. induction s as [|x s IH]; simpl; [reflexivity|].
  intros H. apply andb_prop in H as [H1 H2]. apply negb_true_iff in H1.
  rewrite Ascii.eqb_sym, H1, (IH H2). reflexivity.
Qed.

Lemma split_free c s : free_of c s = true -> split c s = [s].
Proof.
  unfold free_of. induction s as [|x s IH]; simpl; [reflexivity|].
  intros H. apply andb_prop in H as [H1 H2]. apply negb_true_iff in H1.
  now rewrite H1, (IH H2).
Qed.

Lemma split_app c a b :
  free_of c a = true -> split c (a ++ String c b) = a :: split c b.
Proof.
  unfold free_of. induction a as [|x a IH]; simpl.
  - now rewrite Ascii.eqb_refl.
  - intros H. apply andb_prop in H as [H1 H2]. apply negb_true_iff in H1.
    now rewrite H1, (IH H2).
Qed.

Lemma split_join c l :
  l <> [] -> forallb (free_of c) l = true -> split c (join (String c "") l) = l.
Proof.
  induction l as [|a l IH]; [congruence|]. intros _ H.
  simpl in H. apply andb_prop in H as [H1 H2].
  destruct l as [|b l]; [now apply split_free|].
  change (join (String c "") (a :: b :: l))
    with (a ++ String c (join (String c "") (b :: l)))%string.
  rewrite (split_app _ _ _ H1), IH; [reflexivity|congruence|assumption].
Qed.

Lemma split_nonempty c s : split c s <> [].
Proof.
  destruct s as [|x s]; simpl; [discriminate|].
  destruct (Ascii.eqb x c); [discriminate|]. destruct (split c s); discriminate.
Qed.

(** Splitting at [c] splits a text with a [c] in it into the parts of what
    is before and the parts of what is behind. *)
Lemma split_at c a b : split c (a ++ String c b) = (split c a ++ split c b)%list.
Proof.
  induction a as [|x a IH]; simpl.
  - now rewrite Ascii.eqb_refl.
  - destruct (Ascii.eqb x c); rewrite IH; [reflexivity|].
    pose proof (split_nonempty c a) as H.
    destruct (split c a); [congruence|reflexivity].
Qed.

Lemma replace_char_free a b s : free_of a s = true -> replace_char a b s = s.
Proof.
  unfold free_of. induction s as [|x s IH]; simpl; [reflexivity|].
  intros H. apply andb_prop in H as [H1 H2]. apply negb_true_iff in H1.
  now rewrite H1, (IH H2).
Qed.

Lemma forallb_map_impl {A B} (p : A -> bool) (q : B -> bool) (f : A -> B) l :
  (forall x, p x = true -> q (f x) = true) ->
  forallb p l = true -> forallb q (map f l) = true.
Proof.
  intros Hpq. induction l as [|x l IH]; simpl; [reflexivity|].
  intros H. apply andb_prop in H as [H1 H2]. now rewrite (Hpq _ H1), IH.
Qed.

Lemma lower_idempotent s : lower (lower s) = lower s.
Proof.
  induction s as [|x s IH]; simpl; [reflexivity|]. rewrite IH. f_equal.
  destruct x as [[] [] [] [] [] [] [] []]; reflexivity.
Qed.

Lemma lower_nonempty s : nonempty (lower s) = nonempty s.
Proof. now destruct s. Qed.

End PyStrFacts.

(** ** The fit scorer *)

Module FilterFacts.

Import PyStr Filter FloatFacts.

(** C1, as the specification states it, fails: the score of scenario 1 is
    not within 0.01 of 0.55, because the title matches two configured
    keywords ("intern" and "software engineer"), so that the keyword
    contribution is 0.40 and not 0.35. *)
Lemma scenario1_score_is_not_0_55 :
  ~ ((abs (score (scenario1 "Stripe") - 0.55) <=? 0.01)%float = true
     /\ should_queue (scenario1 "Stripe") = true)
  /\ matched_keywords default_FilterConfig (lower "Software Engineer Intern")
     = ["intern"; "software engineer"]
  /\ (keyword_score ["intern"; "software engineer"] =? 0.35)%float = false.
Proof.
  split; [|split]; [|reflexivity|vm_compute; reflexivity].
  intros [H _]. vm_compute in H. discriminate H.
Qed.

(** C1, amended: with the default configuration, the title
    "Software Engineer Intern", the Ashby tag and no location, [score_job]
    returns the score 0.6 (0.40 for two matched keywords plus 0.20 for
    Ashby), names both keywords and the ATS in the reason, and queues the
    job. *)
Theorem scenario1_score company :
  scenario1 company =
    {| score := 0.6%float;
       reason := "title matches: intern, software engineer; preferred ATS (ashby +20%)";
       should_queue := true |}
  /\ (keyword_score ["intern"; "software engineer"] + 0.20 =? 0.6)%float = true.
Proof. split; vm_compute; reflexivity. Qed.

(** *** The excluded-location override *)



(** *** The threshold *)



(** *** Bounds *)

Lemma keyword_score_nonneg matched : PyFloat.nonneg (keyword_score matched).
Proof.
  unfold keyword_score. apply min_nonneg; [exact I|].
  apply add_nonneg; [exact I|].
  apply mul_nonneg; [|apply of_uint63_nonneg].
  eexists; eexists; vm_compute; reflexivity.
Qed.

Lemma title_step_nonneg cfg t a : PyFloat.nonneg (fst a) -> PyFloat.nonneg (fst (title_step cfg t a)).
Proof.
  destruct a as [sc rs]; unfold title_step; simpl; intros H.
  destruct (matched_keywords cfg t); simpl; auto.
  apply add_nonneg; auto using keyword_score_nonneg.
Qed.

Lemma ats_step_nonneg ats a : PyFloat.nonneg (fst a) -> PyFloat.nonneg (fst (ats_step ats a)).
Proof.
  destruct a as [sc rs]; unfold ats_step, _ATS_BOOST; simpl; intros H.
  repeat (match goal with |- context [if ?b then _ else _] => destruct b end;
          simpl; auto; try (apply add_nonneg; [assumption|exact I])).
Qed.

Lemma location_step_nonneg cfg l a :
  PyFloat.nonneg (fst a) -> PyFloat.nonneg (fst (location_step cfg l a)).
Proof.
  destruct a as [sc rs]; unfold location_step; cbn [fst]; intros H.
  destruct (preferred_locations cfg) as [|p ps].
  - destruct (contains _ _); cbn [fst]; auto. apply add_nonneg; [assumption|exact I].
  - destruct (find _ (p :: ps)); cbn [fst]; auto.
    apply add_nonneg; [assumption|exact I].
Qed.

(** C8: for every title, company, location (absent or empty too), ATS tag
    (absent too) and configuration, the score that [score_job] returns
    satisfies [0.0 <= score <= 1.0]: every contribution is zero or
    positive, and the rounded sum is capped at 1.0. *)
Theorem score_job_bounded title company location ats_type cfg :
  let r := score_job title company location ats_type cfg in
  (0 <=? score r)%float = true /\ (score r <=? 1)%float = true.
Proof.
  intro r; subst r; unfold score_job.
  destruct (excluded_match cfg _); [split; reflexivity|].
  pose proof (location_step_nonneg cfg (lower (or_else location ""))
                _ (ats_step_nonneg (lower (or_else ats_type "unknown"))
                     _ (title_step_nonneg cfg (lower title) (0%float, []) I))) as H.
  destruct (location_step cfg _ _) as [sc reasons]; simpl in *.
  split.
  - apply leb_zero, min_nonneg; [exact I|now apply round3_nonneg].
  - apply min_le. reflexivity.
Qed.

End FilterFacts.

(** ** The extractor's post-processing *)

Module ParserFacts.

Import PyStr Parser.

Lemma mem_In x xs : mem x xs = true <-> In x xs.
Proof.
  unfold mem; rewrite existsb_exists; split.
  - intros (y & Hy & E). apply String.eqb_eq in E. now subst.
  - intros H. exists x. split; [assumption|apply String.eqb_refl].
Qed.

Lemma mem_false x xs : mem x xs = false <-> ~ In x xs.
Proof.
  rewrite <- mem_In. destruct (mem x xs); split; congruence.
Qed.

(** One turn of the loop, in terms of [has_url_and_title] and [job_of]. *)
Lemma parse_step_unfold sid now jobs seen c :
  parse_step sid now (jobs, seen) c =
    if negb (has_url_and_title c) then Some (jobs, seen)
    else match job_of sid now c with
         | None => None
         | Some j =>
             if mem (url_hash j) seen then Some (jobs, seen)
             else Some ((jobs ++ [j])%list, url_hash j :: seen)
         end.
Proof.
  destruct c as [[[company title] url] location]; unfold parse_step, job_of; simpl.
  destruct (nonempty url), (nonempty title); simpl; try reflexivity;
    destruct (Hashing.canonicalise_url url) as [canon|]; try reflexivity;
    destruct (Hashing.url_hash canon) as [h|]; reflexivity.
Qed.

Lemma first_of_skip sid now seen c cs j :
  has_url_and_title c = false ->
  first_of sid now seen (c :: cs) j <-> first_of sid now seen cs j.
Proof.
  intros Hc; split.
  - intros (pre & c0 & post & E & Hv & Hj & Hs & Hf).
    destruct pre as [|p pre]; simpl in E; injection E as <- E.
    + congruence.
    + exists pre, c0, post. repeat split; auto.
      intros c' j' Hin; apply Hf; now right.
  - intros (pre & c0 & post & E & Hv & Hj & Hs & Hf).
    exists (c :: pre), c0, post. subst cs. repeat split; auto.
    intros c' j' [<-|Hin]; [congruence|now apply Hf].
Qed.

Lemma first_of_cons sid now seen c cs j0 j :
  has_url_and_title c = true -> job_of sid now c = Some j0 ->
  first_of sid now seen (c :: cs) j <->
    (j = j0 /\ ~ In (url_hash j0) seen)
    \/ (url_hash j <> url_hash j0 /\ first_of sid now seen cs j).
Proof.
  intros Hc Hj0; split.
  - intros (pre & c0 & post & E & Hv & Hj & Hs & Hf).
    destruct pre as [|p pre]; simpl in E; injection E as <- E.
    + left. split; congruence.
    + right. split.
      * intros Heq. apply (Hf c j0); auto. now left.
      * exists pre, c0, post. repeat split; auto.
        intros c' j' Hin; apply Hf; now right.
  - intros [[-> Hs]|[Hne (pre & c0 & post & E & Hv & Hj & Hs & Hf)]].
    + exists [], c, cs. repeat split; auto; intros c' j' [].
    + exists (c :: pre), c0, post. subst cs. repeat split; auto.
      intros c' j' [<-|Hin] Hv' Hj'; [congruence|now apply (Hf c')].
Qed.

(** The loop, from any state whose [seen_hashes] are the hashes of its
    [jobs]: the hashes stay distinct, and the jobs added are exactly the new
    ones. *)
Lemma parse_loop_spec sid now cs : forall jobs seen jobs' seen',
  (forall h, In h seen <-> In h (map url_hash jobs)) ->
  NoDup (map url_hash jobs) ->
  parse_loop sid now (jobs, seen) cs = Some (jobs', seen') ->
  NoDup (map url_hash jobs')
  /\ (forall j, In j jobs' <-> In j jobs \/ first_of sid now seen cs j)
  /\ exists added, jobs' = (jobs ++ added)%list.
Proof.
  induction cs as [|c cs IH]; intros jobs seen jobs' seen' Hseen Hnd Hrun;
    cbn [parse_loop] in Hrun.
  - injection Hrun as <- <-. split; [assumption|]. split; [|exists []; now rewrite app_nil_r].
    intros j; split; [now left|].
    intros [H|(pre & c & post & E & _)]; [assumption|now destruct pre].
  - rewrite parse_step_unfold in Hrun.
    destruct (has_url_and_title c) eqn:Hc; simpl in Hrun.
    + destruct (job_of sid now c) as [j0|] eqn:Hj0; [|discriminate].
      destruct (mem (url_hash j0) seen) eqn:Hm.
      * destruct (IH _ _ _ _ Hseen Hnd Hrun) as (H1 & H2 & H3).
        split; [assumption|]. split; [|assumption].
        intros j. rewrite H2, (first_of_cons _ _ _ _ _ _ _ Hc Hj0).
        apply mem_In in Hm.
        split; [intros [H|H]; auto|].
        { right; right; split; [|assumption].
          destruct H as (pre & c0 & post & _ & _ & _ & Hs & _). congruence. }
        intros [H|[[-> H]|[_ H]]]; auto; contradiction.
      * apply mem_false in Hm.
        assert (Hseen' : forall h, In h (url_hash j0 :: seen)
                                   <-> In h (map url_hash (jobs ++ [j0]))).
        { intros h. rewrite map_app, in_app_iff; simpl. rewrite Hseen. tauto. }
        assert (Hnd' : NoDup (map url_hash (jobs ++ [j0]))).
        { rewrite map_app; simpl. apply NoDup_app; auto.
          - repeat constructor; auto.
          - intros x Hx [<-|[]]. apply Hm, Hseen, Hx. }
        destruct (IH _ _ _ _ Hseen' Hnd' Hrun) as (H1 & H2 & added & H3).
        split; [assumption|]. split.
        2:{ exists (j0 :: added). rewrite H3, <- app_assoc. reflexivity. }
        intros j. rewrite H2, in_app_iff, (first_of_cons _ _ _ _ _ _ _ Hc Hj0).
        simpl. split.
        { intros [[H|[<-|[]]]|(pre & c0 & post & E & Hv & Hj & Hs & Hf)]; auto.
          right; right. split.
          - intros Heq. apply Hs. left. congruence.
          - exists pre, c0, post. repeat split; auto.
            intros Hin. apply Hs. now right. }
        { intros [H|[[-> H]|[Hne (pre & c0 & post & E & Hv & Hj & Hs & Hf)]]]; auto.
          right. exists pre, c0, post. repeat split; auto.
          intros [Heq|Hin]; [congruence|contradiction]. }
    + destruct (IH _ _ _ _ Hseen Hnd Hrun) as (H1 & H2 & H3).
      split; [assumption|]. split; [|assumption].
      intros j. rewrite H2, (first_of_skip _ _ _ _ _ _ Hc). reflexivity.
Qed.

Section WithExtractor.

Variable extract_candidates : string -> list candidate.


End WithExtractor.


(** Of the three example candidates one job is left. *)
Example example_jobs_one :
  map (fun j => (title j, url j)) example_jobs
  = [("Software Engineer Intern", "https://x.com/a")].
Proof. vm_compute. reflexivity. Qed.

End ParserFacts.

(** ** The README feed *)

Module GithubReadmeFacts.

Import PyStr Parser GithubReadme.

Lemma not_skipped ats :
  mem ats _SKIPPED_ATS = false -> ats <> "workday" /\ ats <> "taleo".
Proof.
  unfold mem, _SKIPPED_ATS; simpl. rewrite !orb_false_r.
  intros H. apply orb_false_elim in H as [H1 H2].
  apply String.eqb_neq in H1, H2. now split.
Qed.

Section WithRegex.

Variable _strip_emoji : string -> string.

Lemma row_step_relevant cfg now st cells st' :
  row_step _strip_emoji (map lower (title_keywords cfg)) now st cells = Some st' ->
  Forall (relevant cfg) (snd (fst st)) -> Forall (relevant cfg) (snd (fst st')).
Proof.
  destruct st as [[cur jobs] seen]; unfold row_step; intros H Hall.
  repeat match type of H with
         | Some _ = Some _ => injection H as <-; exact Hall
         | None = Some _ => discriminate H
         | match ?x with _ => _ end = _ => destruct x eqn:?
         | (let '(_, _) := ?x in _) = _ => destruct x eqn:?
         end.
  injection H as <-; simpl.
  apply Forall_app; split; [exact Hall|]. constructor; [|constructor].
  unfold relevant; simpl. split.
  - match goal with
    | E : negb (existsb _ _) = false |- _ =>
        apply negb_false_iff, existsb_exists in E; destruct E as (kw' & Hin & Hc)
    end.
    apply in_map_iff in Hin as (kw & <- & Hin). now exists kw.
  - apply not_skipped.
    match goal with E : mem _ _SKIPPED_ATS = false |- _ => exact E end.
Qed.

Lemma row_loop_relevant cfg now trs : forall st st',
  row_loop _strip_emoji (map lower (title_keywords cfg)) now st trs = Some st' ->
  Forall (relevant cfg) (snd (fst st)) -> Forall (relevant cfg) (snd (fst st')).
Proof.
  induction trs as [|cells trs IH]; intros st st' H Hall; cbn [row_loop] in H.
  - now injection H as <-.
  - destruct (row_step _ _ _ st cells) as [st1|] eqn:E; [|discriminate].
    eapply IH; [exact H|]. eapply row_step_relevant; eauto.
Qed.


End WithRegex.


(** Of the four example rows one job is left. *)
Example example_feed_jobs_one :
  map (fun j => (company j, title j, ats_type j)) example_feed_jobs
  = [("Acme", "Software Engineer Intern", "ashby")].
Proof. vm_compute. reflexivity. Qed.

End GithubReadmeFacts.

(** ** The job store *)

Module StoreFacts.

Import Schema Cli.

Lemma first_by_hash_none h s :
  first_by_hash h s = None <-> ~ In h (hashes (pending s)).
Proof.
  unfold first_by_hash, hashes; split.
  - intros H Hin. apply in_map_iff in Hin as (r & <- & Hr).
    pose proof (find_none _ _ H r Hr) as E. simpl in E.
    now rewrite String.eqb_refl in E.
  - intros H. destruct (find _ _) as [r|] eqn:E; [|reflexivity].
    apply find_some in E as [Hr E]. apply String.eqb_eq in E.
    exfalso; apply H. rewrite <- E. now apply in_map.
Qed.

Lemma existsb_hash_false h rows :
  ~ In h (map url_hash rows) ->
  existsb (fun r => String.eqb (url_hash r) h) rows = false.
Proof.
  intros H. destruct (existsb _ rows) eqn:E; [|reflexivity].
  apply existsb_exists in E as (r & Hr & E). apply String.eqb_eq in E.
  exfalso; apply H. rewrite <- E. now apply in_map.
Qed.

(** One turn of the loop never raises; it leaves the session alone when the
    hash is stored already (or on a dry run), and otherwise appends one row
    with the job's hash. *)
Lemma store_step_spec src dry s n job :
  exists s' n',
    store_step src dry (s, n) job = Some (s', n')
    /\ committed s' = committed s
    /\ ((In (Parser.url_hash job) (hashes (pending s)) /\ s' = s /\ n' = n)
        \/ (~ In (Parser.url_hash job) (hashes (pending s)) /\ dry = true /\ s' = s)
        \/ (~ In (Parser.url_hash job) (hashes (pending s)) /\ dry = false
            /\ exists row, url_hash row = Parser.url_hash job
                 /\ status row = JobStatus.discovered
                 /\ job_posts (pending s') = (job_posts (pending s) ++ [row])%list
                 /\ applications (pending s') = applications (pending s))).
Proof.
  unfold store_step.
  destruct (first_by_hash (Parser.url_hash job) s) as [r|] eqn:E.
  - exists s, n. repeat split. left. repeat split.
    apply find_some in E as [Hr E]. apply String.eqb_eq in E.
    unfold hashes. rewrite <- E. now apply in_map.
  - apply first_by_hash_none in E.
    destruct dry.
    + exists s, (S n). repeat split. right; left. now repeat split.
    + unfold add_job_post; simpl.
      rewrite (existsb_hash_false _ _ E).
      eexists; eexists. split; [reflexivity|]. split; [reflexivity|].
      right; right. repeat split; auto.
      eexists. repeat split; simpl; reflexivity.
Qed.

Lemma store_loop_spec src dry jobs : forall s n,
  unique_hashes (pending s) ->
  exists s' n',
    store_loop src dry (s, n) jobs = Some (s', n')
    /\ committed s' = committed s
    /\ unique_hashes (pending s')
    /\ (exists added, job_posts (pending s') = (job_posts (pending s) ++ added)%list)
    /\ applications (pending s') = applications (pending s)
    /\ (dry = true -> s' = s)
    /\ ((forall job, In job jobs -> In (Parser.url_hash job) (hashes (pending s)))
        -> s' = s /\ n' = n)
    /\ (dry = false ->
        forall job, In job jobs -> In (Parser.url_hash job) (hashes (pending s'))).
Proof.
  induction jobs as [|job jobs IH]; intros s n Hu; cbn [store_loop].
  - exists s, n. repeat split; auto.
    + exists []. now rewrite app_nil_r.
    + intros _ job [].
  - destruct (store_step_spec src dry s n job) as (s1 & n1 & -> & Hc & Hcase).
    assert (Hu1 : unique_hashes (pending s1)).
    { destruct Hcase as [(_ & -> & _)|[(_ & _ & ->)|(Hn & _ & row & Hh & _ & Hj & _)]]; auto.
      unfold unique_hashes, hashes in *. rewrite Hj, map_app; simpl.
      apply NoDup_app; auto.
      - repeat constructor; auto.
      - intros x Hx [<-|[]]. apply Hn. now rewrite <- Hh. }
    destruct (IH s1 n1 Hu1) as (s' & n' & -> & Hc' & Hu' & (added & Ha) & Happ & Hdry & Hold & Hall).
    exists s', n'. split; [reflexivity|]. split; [congruence|]. split; [assumption|].
    assert (Hpre : exists added1,
               job_posts (pending s1) = (job_posts (pending s) ++ added1)%list
               /\ applications (pending s1) = applications (pending s)).
    { destruct Hcase as [(_ & -> & _)|[(_ & _ & ->)|(_ & _ & row & _ & _ & Hj & Hap)]].
      - exists []. now rewrite app_nil_r.
      - exists []. now rewrite app_nil_r.
      - now exists [row]. }
    destruct Hpre as (added1 & Ha1 & Hap1).
    split; [exists (added1 ++ added)%list; now rewrite Ha, Ha1, app_assoc|].
    split; [congruence|].
    split; [|split].
    + intros ->. rewrite (Hdry eq_refl).
      destruct Hcase as [(_ & -> & _)|[(_ & _ & ->)|(_ & Hf & _)]]; auto; discriminate.
    + intros Hin.
      destruct Hcase as [(_ & -> & ->)|[(Hn & _)|(Hn & _)]];
        [|exfalso; apply Hn, Hin; now left ..].
      apply Hold. intros j Hj. apply Hin. now right.
    + intros Hd j [<-|Hj]; [|now apply Hall].
      unfold hashes. rewrite Ha.
      destruct Hcase as [(Hin & -> & _)|[(_ & Hf & _)|(_ & _ & row & Hh & _ & Hj & _)]].
      * rewrite map_app, in_app_iff. now left.
      * congruence.
      * rewrite Hj, !map_app, !in_app_iff. left; right. simpl. now left.
Qed.

Lemma store_batch_spec src dry db jobs :
  unique_hashes db ->
  exists db',
    store_batch src dry db jobs = Some db'
    /\ unique_hashes db'
    /\ (exists added, job_posts db' = (job_posts db ++ added)%list)
    /\ ((forall job, In job jobs -> In (Parser.url_hash job) (hashes db)) -> db' = db)
    /\ (dry = false -> forall job, In job jobs -> In (Parser.url_hash job) (hashes db')).
Proof.
  intros Hu. unfold store_batch, _store_jobs.
  destruct (store_loop_spec src dry jobs (get_session db) 0 Hu)
    as (s' & n' & -> & Hc & Hu' & Ha & _ & Hdry & Hold & Hall).
  eexists; split; [reflexivity|].
  destruct dry; simpl.
  - rewrite (Hdry eq_refl); simpl. repeat split; auto.
    + exists []. now rewrite app_nil_r.
    + discriminate.
  - repeat split; auto.
    intros Hin. destruct (Hold Hin) as [-> _]. reflexivity.
Qed.

Lemma count_hash_unique h db :
  unique_hashes db -> In h (hashes db) -> count_hash h db = 1.
Proof.
  unfold unique_hashes, hashes, count_hash.
  induction (job_posts db) as [|r rows IH]; simpl; intros Hnd Hin; [contradiction|].
  inversion Hnd as [|x l Hx Hl]; subst.
  destruct (String.eqb (url_hash r) h) eqn:E; simpl.
  - apply String.eqb_eq in E. subst h. f_equal.
    rewrite (proj2 (List.length_zero_iff_nil _)); [reflexivity|].
    destruct (filter _ rows) as [|r' l'] eqn:F; [reflexivity|].
    assert (Hr : In r' (filter (fun r0 => String.eqb (url_hash r0) (url_hash r)) rows))
      by (rewrite F; now left).
    apply filter_In in Hr as [Hr1 Hr2]. apply String.eqb_eq in Hr2.
    exfalso; apply Hx. rewrite <- Hr2. now apply in_map.
  - apply String.eqb_neq in E. destruct Hin as [Hin|Hin]; [contradiction|auto].
Qed.



(** Storing the example jobs twice in one batch leaves one row. *)
Example store_twice_one_row :
  option_map (fun db => List.length (job_posts db))
    (store_batch None false empty_db (Parser.example_jobs ++ Parser.example_jobs)%list)
  = Some 1.
Proof. vm_compute. reflexivity. Qed.

End StoreFacts.

(** ** The scoring pass of [queue] *)

Module QueueFacts.

Import Schema Cli.

Lemma unique_by_id rows a b :
  NoDup (map id rows) -> In a rows -> In b rows -> id a = id b -> a = b.
Proof.
  induction rows as [|r rows IH]; simpl; intros Hnd Ha Hb E; [contradiction|].
  inversion Hnd as [|x l Hx Hl]; subst.
  destruct Ha as [<-|Ha], Hb as [<-|Hb]; auto.
  - exfalso; apply Hx. rewrite E. now apply in_map.
  - exfalso; apply Hx. rewrite <- E. now apply in_map.
Qed.

Lemma NoDup_map_filter (p : JobPost -> bool) rows :
  NoDup (map id rows) -> NoDup (map id (filter p rows)).
Proof.
  induction rows as [|r rows IH]; simpl; intros Hnd; [constructor|].
  inversion Hnd as [|x l Hx Hl]; subst.
  destruct (p r); simpl; auto. constructor; auto.
  intros Hin. apply Hx. apply in_map_iff in Hin as (y & E & Hy).
  apply filter_In in Hy as [Hy _]. rewrite <- E. now apply in_map.
Qed.

(** Looking a row of [rows] up by its key in a filtered part of [rows]. *)
Lemma find_in_filter (p : JobPost -> bool) rows r :
  NoDup (map id rows) -> In r rows ->
  find (fun jp => Nat.eqb (id jp) (id r)) (filter p rows) = if p r then Some r else None.
Proof.
  intros Hnd Hr.
  destruct (find _ (filter p rows)) as [jp|] eqn:E.
  - apply find_some in E as [Hjp E]. apply Nat.eqb_eq in E.
    apply filter_In in Hjp as [Hjp Hp].
    rewrite (unique_by_id rows jp r Hnd Hjp Hr E) in *. now rewrite Hp.
  - destruct (p r) eqn:Hp; [|reflexivity].
    pose proof (find_none _ _ E r (proj2 (filter_In p r rows) (conj Hr Hp))) as H.
    simpl in H. now rewrite Nat.eqb_refl in H.
Qed.

(** A run of updates, one for each row of [D] and keyed by it, is one pass
    over the rows. *)
Lemma updates_as_map (F : JobPost -> JobPost -> JobPost) D :
  (forall jp r, id (F jp r) = id r) ->
  NoDup (map id D) ->
  forall rows,
    fold_left (fun rows jp => apply_update (id jp) (F jp) rows) D rows
    = map (fun r => match find (fun jp => Nat.eqb (id jp) (id r)) D with
                    | Some jp => F jp r
                    | None => r
                    end) rows.
Proof.
  intros HF. induction D as [|jp D IH]; intros Hnd rows; simpl.
  - symmetry. apply map_id.
  - inversion Hnd as [|x l Hx Hl]; subst.
    rewrite (IH Hl). unfold apply_update. rewrite map_map.
    apply map_ext. intros r.
    destruct (Nat.eqb (id r) (id jp)) eqn:E.
    + rewrite HF. rewrite Nat.eqb_sym, E.
      apply Nat.eqb_eq in E.
      destruct (find _ D) as [jp'|] eqn:F'; [|reflexivity].
      apply find_some in F' as [Hjp' E']. apply Nat.eqb_eq in E'.
      exfalso; apply Hx. rewrite <- E, <- E'. now apply in_map.
    + now rewrite Nat.eqb_sym, E.
Qed.

Lemma score_loop_spec cfg rows : forall s tq fo,
  let sq := fun jp => Filter.should_queue (result_of cfg jp) in
  let '(s', tq', fo') := score_loop cfg s tq fo rows in
  committed s' = committed s
  /\ applications (pending s') = applications (pending s)
  /\ next_id (pending s') = next_id (pending s)
  /\ job_posts (pending s')
     = fold_left (fun rows jp =>
                    apply_update (id jp)
                      (set_fit (Filter.score (result_of cfg jp))
                               (Filter.reason (result_of cfg jp))) rows)
                 rows (job_posts (pending s))
  /\ tq' = (tq ++ filter sq rows)%list
  /\ fo' = (fo ++ filter (fun jp => negb (sq jp)) rows)%list.
Proof.
  induction rows as [|jp rows IH]; intros s tq fo sq; cbn [score_loop].
  - now rewrite !app_nil_r.
  - fold (result_of cfg jp). subst sq. cbn [filter fold_left].
    destruct (Filter.should_queue (result_of cfg jp)); cbn [negb].
    + specialize (IH (update_job_post (id jp)
                        (set_fit (Filter.score (result_of cfg jp))
                                 (Filter.reason (result_of cfg jp))) s)
                     (tq ++ [jp])%list fo).
      destruct (score_loop _ _ _ _ rows) as [[s' tq'] fo'].
      destruct IH as (H1 & H2 & H3 & H4 & H5 & H6).
      repeat split; auto. now rewrite H5, <- app_assoc.
    + specialize (IH (update_job_post (id jp)
                        (set_fit (Filter.score (result_of cfg jp))
                                 (Filter.reason (result_of cfg jp))) s)
                     tq (fo ++ [jp])%list).
      destruct (score_loop _ _ _ _ rows) as [[s' tq'] fo'].
      destruct IH as (H1 & H2 & H3 & H4 & H5 & H6).
      repeat split; auto. now rewrite H6, <- app_assoc.
Qed.

Lemma queue_loop_spec tq : forall s n,
  let '(s', n') := queue_loop s n tq in
  job_posts (pending s')
  = fold_left (fun rows jp => apply_update (id jp) (set_status JobStatus.queued) rows)
              tq (job_posts (pending s)).
Proof.
  induction tq as [|jp tq IH]; intros s n; cbn [queue_loop fold_left]; [reflexivity|].
  destruct (find _ _).
  - specialize (IH (update_job_post (id jp) (set_status JobStatus.queued) s) n).
    now destruct (queue_loop _ _ tq).
  - match goal with |- context [queue_loop ?s1 ?n1 tq] => specialize (IH s1 n1) end.
    now destruct (queue_loop _ _ tq).
Qed.

Lemma filter_loop_spec fo : forall s,
  job_posts (pending (filter_loop s fo))
  = fold_left (fun rows jp => apply_update (id jp) (set_status JobStatus.filtered_out) rows)
              fo (job_posts (pending s)).
Proof.
  unfold filter_loop.
  induction fo as [|jp fo IH]; intros s; cbn [fold_left]; [reflexivity|].
  now rewrite IH.
Qed.

Lemma filter_andb (p q : JobPost -> bool) rows :
  filter q (filter p rows) = filter (fun r => p r && q r) rows.
Proof.
  induction rows as [|r rows IH]; simpl; [reflexivity|].
  destruct (p r); simpl; [destruct (q r)|]; now rewrite IH.
Qed.

Lemma id_scored cfg r : id (scored cfg r) = id r.
Proof. unfold scored; now destruct (is_discovered r). Qed.

(** The scoring loop over the discovered rows is one pass of [scored]. *)
Lemma scored_rows cfg rows :
  NoDup (map id rows) ->
  fold_left (fun rows jp =>
               apply_update (id jp)
                 (set_fit (Filter.score (result_of cfg jp))
                          (Filter.reason (result_of cfg jp))) rows)
            (filter is_discovered rows) rows
  = map (scored cfg) rows.
Proof.
  intros Hnd.
  rewrite (updates_as_map
             (fun jp => set_fit (Filter.score (result_of cfg jp))
                                (Filter.reason (result_of cfg jp))));
    [|reflexivity|now apply NoDup_map_filter].
  apply map_ext_in. intros r Hr.
  rewrite (find_in_filter _ _ _ Hnd Hr). unfold scored.
  now destruct (is_discovered r).
Qed.

(** The two status loops after it are one pass of [decided]. *)
Lemma decided_rows cfg rows :
  NoDup (map id rows) ->
  let sq := fun jp => Filter.should_queue (result_of cfg jp) in
  let D := filter is_discovered rows in
  fold_left (fun rows jp => apply_update (id jp) (set_status JobStatus.filtered_out) rows)
    (filter (fun jp => negb (sq jp)) D)
    (fold_left (fun rows jp => apply_update (id jp) (set_status JobStatus.queued) rows)
       (filter sq D) (map (scored cfg) rows))
  = map (decided cfg) rows.
Proof.
  intros Hnd sq D. subst D. rewrite !filter_andb.
  rewrite (updates_as_map (fun _ => set_status JobStatus.queued));
    [|reflexivity|now apply NoDup_map_filter].
  rewrite (updates_as_map (fun _ => set_status JobStatus.filtered_out));
    [|reflexivity|now apply NoDup_map_filter].
  rewrite !map_map. apply map_ext_in. intros r Hr.
  assert (E1 : forall x, id x = id r ->
            find (fun jp => Nat.eqb (id jp) (id x))
                 (filter (fun r0 => is_discovered r0 && sq r0) rows)
            = if is_discovered r && sq r then Some r else None).
  { intros x ->. now apply find_in_filter. }
  assert (E2 : forall x, id x = id r ->
            find (fun jp => Nat.eqb (id jp) (id x))
                 (filter (fun r0 => is_discovered r0 && negb (sq r0)) rows)
            = if is_discovered r && negb (sq r) then Some r else None).
  { intros x ->. now apply find_in_filter. }
  rewrite (E1 _ (id_scored cfg r)).
  unfold decided. subst sq. cbn beta in *.
  destruct (is_discovered r) eqn:Hd, (Filter.should_queue (result_of cfg r)) eqn:Hs;
    cbn [andb negb]; rewrite E2; cbn [andb negb]; auto using id_scored.
  all: try (simpl; apply id_scored).
  all: unfold scored; rewrite Hd; reflexivity.
Qed.

(** C2, as the specification states it, fails: [queue] commits the score and
    the reason of a discovered job while its status is still [discovered].
    With [--yes] the status follows in a second commit; without it, and with
    the prompt declined, the scored job stays [discovered]. *)
Lemma queue_commits_score_before_status :
  (exists first second jp,
      commits (queue one_discovered_job default_FilterConfig None true false)
      = [first; second]
      /\ job_posts first = [jp]
      /\ fit_score jp = 0.6%float
      /\ fit_reason jp
         = "title matches: intern, software engineer; preferred ATS (ashby +20%)"
      /\ status jp = JobStatus.discovered)
  /\ (exists jp,
        job_posts (final (queue one_discovered_job default_FilterConfig None false false))
        = [jp]
        /\ fit_score jp = 0.6%float
        /\ status jp = JobStatus.discovered).
Proof.
  split.
  - eexists; eexists; eexists. split; [vm_compute; reflexivity|].
    repeat split.
  - eexists. split; [vm_compute; reflexivity|]. repeat split.
Qed.

(** C2, amended: one run of [queue] first writes the score and the reason of
    every discovered job and commits them, the statuses as they were; when
    at least one job reaches the threshold and the run is confirmed (by
    [--yes] or at the prompt), a second commit gives every job scored in the
    run the status [queued] or [filtered_out] that its score decides, and
    leaves the other jobs as they were. *)
Theorem queue_score_then_status db cfg min_score_opt yes confirmed :
  unique_ids db ->
  let cfg' := with_min_score cfg min_score_opt in
  let run := queue db cfg min_score_opt yes confirmed in
  let D := filter is_discovered (job_posts db) in
  let to_queue := filter (fun jp => Filter.should_queue (result_of cfg' jp)) D in
  (D = [] -> commits run = [] /\ final run = db)
  /\ (D <> [] ->
      exists first,
        job_posts first = map (scored cfg') (job_posts db)
        /\ applications first = applications db
        /\ ((to_queue = [] \/ (yes = false /\ confirmed = false)) ->
            commits run = [first] /\ final run = first)
        /\ (to_queue <> [] -> yes = true \/ confirmed = true ->
            exists second,
              commits run = [first; second] /\ final run = second
              /\ job_posts second = map (decided cfg') (job_posts db))).
Proof.
  intros Hu cfg' run D to_queue.
  assert (ED : D = filter is_discovered (job_posts db)) by reflexivity.
  assert (Etq : to_queue = filter (fun jp => Filter.should_queue (result_of cfg' jp)) D)
    by reflexivity.
  unfold run, queue. fold cfg'. cbn [get_session pending]. fold is_discovered.
  clearbody to_queue D. rewrite <- ED.
  split.
  - intros ->. split; reflexivity.
  - intros HD.
    pose proof (score_loop_spec cfg' D (get_session db) [] []) as Hs.
    destruct (score_loop cfg' (get_session db) [] [] D) as [[s tq] fo].
    cbn zeta in Hs. destruct Hs as (Hc & Ha & Hn & Hj & Htq & Hfo).
    cbn [get_session pending app] in *.
    rewrite <- Etq in Htq. subst tq.
    rewrite ED, (scored_rows cfg' _ Hu) in Hj.
    exists (pending s). split; [assumption|]. split; [assumption|].
    destruct D as [|d D']; [congruence|].
    cbn [commit committed pending close].
    split.
    + intros [E|[-> ->]].
      * rewrite E. split; reflexivity.
      * destruct to_queue; split; reflexivity.
    + intros Hq Hyes.
      destruct to_queue as [|q tq'] eqn:Eq; [congruence|].
      assert (Hgo : negb yes && negb confirmed = false)
        by (destruct Hyes as [-> | ->]; [reflexivity|apply andb_false_r]).
      rewrite Hgo.
      pose proof (queue_loop_spec (q :: tq')
                    {| committed := pending s; pending := pending s |} 0) as Hql.
      destruct (queue_loop _ 0 (q :: tq')) as [s2 n2].
      cbn [commit committed pending close].
      eexists. split; [reflexivity|]. split; [reflexivity|].
      rewrite filter_loop_spec, Hql. cbn [pending]. rewrite Hj, Hfo, Etq, ED.
      apply (decided_rows cfg' (job_posts db) Hu).
Qed.

Lemma queue_score_then_status_witness :
  let cfg' := with_min_score default_FilterConfig None in
  let run := queue one_discovered_job default_FilterConfig None true false in
  let D := filter is_discovered (job_posts one_discovered_job) in
  let to_queue := filter (fun jp => Filter.should_queue (result_of cfg' jp)) D in
  (D = [] -> commits run = [] /\ final run = one_discovered_job)
  /\ (D <> [] ->
      exists first,
        job_posts first = map (scored cfg') (job_posts one_discovered_job)
        /\ applications first = applications one_discovered_job
        /\ ((to_queue = [] \/ (true = false /\ false = false)) ->
            commits run = [first] /\ final run = first)
        /\ (to_queue <> [] -> true = true \/ false = true ->
            exists second,
              commits run = [first; second] /\ final run = second
              /\ job_posts second = map (decided cfg') (job_posts one_discovered_job))).
Proof.
  apply (queue_score_then_status one_discovered_job default_FilterConfig None true false).
  unfold unique_ids. simpl. repeat constructor. intros [].
Defined.

End QueueFacts.

(** ** URL canonicalisation *)

Module HashingFacts.

Import PyStr PyStrFacts Urllib Hashing.

(** Brute force over the 256 characters. *)
Ltac by_ascii :=
  let c := fresh "c" in
  intros c; destruct c as [[] [] [] [] [] [] [] []]; vm_compute;
  let H := fresh in intros H; first [reflexivity | discriminate H].

Lemma plain_safe s : plain s = true -> forallb_str always_safe s = true.
Proof. unfold plain. intros H. now apply andb_prop in H. Qed.

Lemma plain_nonempty s : plain s = true -> nonempty s = true.
Proof. unfold plain. intros H. now apply andb_prop in H. Qed.

Lemma safe_class (q : ascii -> bool) s :
  (forall c, always_safe c = true -> q c = true) ->
  plain s = true -> forallb_str q s = true.
Proof. intros Hq H. eapply forallb_str_impl; [exact Hq|now apply plain_safe]. Qed.

Lemma path_of_class (q : ascii -> bool) segs slash :
  (forall c, path_char c = true -> q c = true) ->
  forallb plain segs = true -> forallb_str q (path_of segs slash) = true.
Proof.
  intros Hq Hs. unfold path_of. rewrite forallb_str_app. apply andb_true_intro. split.
  - induction segs as [|seg segs IH]; [reflexivity|].
    simpl in Hs. apply andb_prop in Hs as [H1 H2].
    assert (E : String.concat "" (map (fun s => ("/" ++ s)%string) (seg :: segs))
                = ("/" ++ seg ++ String.concat "" (map (fun s => ("/" ++ s)%string) segs))%string).
    { simpl. destruct (map _ segs); simpl; [now rewrite append_nil_r|reflexivity]. }
    rewrite E, !forallb_str_app, (IH H2), andb_true_r.
    change (forallb_str q "/") with (q "/"%char && true).
    rewrite (Hq "/"%char eq_refl). cbn [andb].
    apply safe_class; [|assumption].
    intros c Hc. apply Hq. unfold path_char. now rewrite Hc.
  - destruct slash; [|reflexivity]. cbn. now rewrite (Hq "/"%char eq_refl).
Qed.

Lemma field_string_class (q : ascii -> bool) kv :
  (forall c, field_char c = true -> q c = true) ->
  plain_field kv = true -> forallb_str q (field_string kv) = true.
Proof.
  intros Hq H. unfold plain_field in H.
  apply andb_prop in H as [H _]. apply andb_prop in H as [H1 H2].
  assert (Hs : forall c, always_safe c = true -> q c = true).
  { intros c Hc. apply Hq. unfold field_char. now rewrite Hc. }
  unfold field_string. rewrite !forallb_str_app.
  change (forallb_str q "=") with (q "="%char && true).
  now rewrite (safe_class q _ Hs H1), (safe_class q _ Hs H2), (Hq "="%char eq_refl).
Qed.

Lemma query_of_class (q : ascii -> bool) fs :
  (forall c, query_char c = true -> q c = true) ->
  forallb plain_field fs = true -> forallb_str q (query_of fs) = true.
Proof.
  intros Hq. unfold query_of.
  assert (Hq' : forall c, field_char c = true -> q c = true).
  { intros c Hc. apply Hq. unfold query_char. now rewrite Hc. }
  induction fs as [|kv fs IH]; [reflexivity|].
  intros H. simpl in H. apply andb_prop in H as [H1 H2].
  cbn [map join]. destruct (map field_string fs) as [|f fs'] eqn:E.
  - now apply field_string_class.
  - rewrite !forallb_str_app.
    change (forallb_str q "&") with (q "&"%char && true).
    rewrite (field_string_class q kv Hq' H1), (Hq "&"%char eq_refl).
    cbn [andb]. apply IH, H2.
Qed.

(** Facts about the safe characters, by enumeration. *)
Lemma safe_not_unsafe c : url_char c = true -> negb (unsafe_url_byte c) = true.
Proof. revert c. by_ascii. Qed.

Lemma safe_not_space c : url_char c = true -> negb (is_space c) = true.
Proof. revert c. by_ascii. Qed.

Lemma safe_is_url_char c : always_safe c = true -> url_char c = true.
Proof. revert c. by_ascii. Qed.

Lemma path_is_url_char c : path_char c = true -> url_char c = true.
Proof. revert c. by_ascii. Qed.

Lemma query_is_url_char c : query_char c = true -> url_char c = true.
Proof. revert c. by_ascii. Qed.

Lemma safe_not_delim c : always_safe c = true -> negb (is_netloc_delim c) = true.
Proof. revert c. by_ascii. Qed.

Lemma safe_is_ascii c : always_safe c = true -> is_ascii c = true.
Proof. revert c. by_ascii. Qed.

Lemma safe_not_char (x : ascii) :
  always_safe x = false -> forall c, always_safe c = true -> negb (Ascii.eqb c x) = true.
Proof.
  intros Hx c Hc. apply negb_true_iff, Ascii.eqb_neq. intros ->. congruence.
Qed.

Lemma path_not_char (x : ascii) :
  path_char x = false -> forall c, path_char c = true -> negb (Ascii.eqb c x) = true.
Proof.
  intros Hx c Hc. apply negb_true_iff, Ascii.eqb_neq. intros ->. congruence.
Qed.

Lemma query_not_char (x : ascii) :
  query_char x = false -> forall c, query_char c = true -> negb (Ascii.eqb c x) = true.
Proof.
  intros Hx c Hc. apply negb_true_iff, Ascii.eqb_neq. intros ->. congruence.
Qed.

Lemma field_not_char (x : ascii) :
  field_char x = false -> forall c, field_char c = true -> negb (Ascii.eqb c x) = true.
Proof.
  intros Hx c Hc. apply negb_true_iff, Ascii.eqb_neq. intros ->. congruence.
Qed.

Lemma render_eq x : render x = (scheme_of x ++ "://" ++ after_slashes x)%string.
Proof. unfold render, after_slashes, scheme_of, query_part. now destruct (fields x). Qed.

Lemma urlsplit_http (https : bool) rest :
  forallb_str (fun c => negb (unsafe_url_byte c)) rest = true ->
  urlsplit ((if https then "https" else "http") ++ "://" ++ rest)
  = split_rest (if https then "https" else "http") rest.
Proof.
  intros H. unfold urlsplit, split_rest.
  destruct https; cbn [append];
    rewrite lstrip_by_cons by reflexivity;
    rewrite !remove_by_cons by reflexivity;
    rewrite (remove_by_none _ _ H);
    unfold split_scheme;
    rewrite !partition_cons_ne by reflexivity;
    rewrite partition_cons_eq; reflexivity.
Qed.

Lemma well_formed_parts x :
  well_formed x = true ->
  plain (host x) = true /\ forallb plain (segments x) = true
  /\ forallb plain_field (fields x) = true.
Proof.
  unfold well_formed. intros H.
  apply andb_prop in H as [H H3]. apply andb_prop in H as [H1 H2]. auto.
Qed.

Lemma query_part_class (q : ascii -> bool) fs :
  (forall c, query_char c = true -> q c = true) -> q "?"%char = true ->
  forallb plain_field fs = true -> forallb_str q (query_part fs) = true.
Proof.
  intros Hq H1 Hf. destruct fs as [|kv fs]; [reflexivity|].
  unfold query_part. cbn [append forallb_str]. rewrite H1.
  now apply query_of_class.
Qed.

Lemma after_slashes_class (q : ascii -> bool) x :
  (forall c, url_char c = true -> q c = true) ->
  well_formed x = true -> forallb_str q (after_slashes x) = true.
Proof.
  intros Hq Hwf. destruct (well_formed_parts x Hwf) as (Hh & Hs & Hf).
  unfold after_slashes. rewrite !forallb_str_app.
  rewrite (safe_class q (host x)); auto using safe_is_url_char.
  rewrite (path_of_class q); auto using path_is_url_char.
  rewrite (query_part_class q); auto using query_is_url_char.
Qed.

(** The text after the host is empty or starts with a delimiter. *)
Lemma tail_starts_with_delim segs slash fs :
  match (path_of segs slash ++ query_part fs)%string with
  | EmptyString => True
  | String c _ => is_netloc_delim c = true
  end.
Proof.
  unfold path_of. destruct segs as [|seg segs].
  - destruct slash; [reflexivity|]. destruct fs; [exact I|reflexivity].
  - cbn [map String.concat]. destruct (map _ segs); reflexivity.
Qed.

Lemma urlparse_render x :
  well_formed x = true ->
  urlparse (render x)
  = Some {| scheme := scheme_of x; netloc := host x;
            path := path_of (segments x) (trailing_slash x);
            params := ""; query := query_string (fields x); fragment := "" |}.
Proof.
  intros Hwf. destruct (well_formed_parts x Hwf) as (Hh & Hs & Hf).
  unfold urlparse. rewrite render_eq. unfold scheme_of.
  rewrite urlsplit_http by (apply after_slashes_class; auto using safe_not_unsafe).
  unfold split_rest, _splitnetloc, after_slashes.
  rewrite break_at_app;
    [|apply safe_class; auto using safe_not_delim|apply tail_starts_with_delim].
  assert (Hhash : free_of "#" (path_of (segments x) (trailing_slash x)
                                ++ query_part (fields x)) = true).
  { unfold free_of. rewrite forallb_str_app.
    rewrite (path_of_class _ _ _ (path_not_char "#" eq_refl) Hs).
    apply (query_part_class _ _ (query_not_char "#" eq_refl) eq_refl Hf). }
  rewrite (partition_free _ _ Hhash).
  assert (Hq : free_of "?" (path_of (segments x) (trailing_slash x)) = true)
    by apply (path_of_class _ _ _ (path_not_char "?" eq_refl) Hs).
  assert (Hnl : netloc_ok (host x) = true).
  { unfold netloc_ok.
    rewrite (contains_char_free "[" (host x)),
            (contains_char_free "]" (host x)); cbn [negb andb].
    - apply safe_class; auto using safe_is_ascii.
    - apply safe_class; auto. apply (safe_not_char "]" eq_refl).
    - apply safe_class; auto. apply (safe_not_char "[" eq_refl). }
  assert (Hsemi : contains ";" (path_of (segments x) (trailing_slash x)) = false).
  { apply contains_char_free. apply (path_of_class _ _ _ (path_not_char ";" eq_refl) Hs). }
  assert (Hup : mem (if secure x then "https" else "http") uses_params = true)
    by (destruct (secure x); reflexivity).
  destruct (fields x) as [|kv fs] eqn:Efs; unfold query_part, query_string.
  - rewrite append_nil_r, (partition_free _ _ Hq), Hnl, Hup, Hsemi. reflexivity.
  - cbn [append]. rewrite (partition_app _ _ _ Hq), Hnl, Hup, Hsemi. reflexivity.
Qed.

(** *** Quoting and unquoting plain text *)

Lemma unquote_to_bytes_free s : free_of "%" s = true -> unquote_to_bytes s = s.
Proof.
  unfold free_of. induction s as [|x s IH]; [reflexivity|].
  intros H. cbn [forallb_str] in H. apply andb_prop in H as [H1 H2].
  cbn [unquote_to_bytes]. rewrite (IH H2).
  destruct x as [[] [] [] [] [] [] [] []]; try reflexivity. discriminate H1.
Qed.

Lemma decode_replace_ascii s : forallb_str is_ascii s = true -> decode_replace s = s.
Proof.
  induction s as [|x s IH]; [reflexivity|].
  intros H. cbn [forallb_str] in H. apply andb_prop in H as [H1 H2].
  cbn [decode_replace]. now rewrite H1, (IH H2).
Qed.

Lemma ascii_runs_ascii c s :
  forallb_str is_ascii (String c s) = true -> ascii_runs (String c s) = [(true, String c s)].
Proof.
  revert c. induction s as [|x s IH]; intros c H.
  - cbn in H |- *. apply andb_prop in H as [H _]. now rewrite H.
  - cbn [forallb_str] in H. apply andb_prop in H as [H1 H2].
    cbn [ascii_runs] in *. rewrite (IH x H2), H1. reflexivity.
Qed.

Lemma unquote_safe s : forallb_str always_safe s = true -> unquote s = s.
Proof.
  intros H. destruct s as [|c s]; [reflexivity|].
  unfold unquote.
  rewrite ascii_runs_ascii by (eapply forallb_str_impl; [exact safe_is_ascii|exact H]).
  cbn [map fst snd String.concat].
  rewrite unquote_to_bytes_free
    by (eapply forallb_str_impl; [exact (safe_not_char "%" eq_refl)|exact H]).
  apply decode_replace_ascii. eapply forallb_str_impl; [exact safe_is_ascii|exact H].
Qed.

Lemma quote_plus_safe s : forallb_str always_safe s = true -> quote_plus s = s.
Proof.
  induction s as [|x s IH]; [reflexivity|].
  intros H. cbn [forallb_str] in H. apply andb_prop in H as [H1 H2].
  cbn [quote_plus]. now rewrite H1, (IH H2).
Qed.

Lemma parse_field_plain kv :
  plain_field kv = true -> parse_field (field_string kv) = Some kv.
Proof.
  intros H. unfold plain_field in H.
  apply andb_prop in H as [H _]. apply andb_prop in H as [H1 H2].
  destruct kv as [k v]; cbn [fst snd] in *.
  unfold parse_field, field_string; cbn [fst snd].
  change (k ++ "=" ++ v)%string with (k ++ String "=" v)%string.
  rewrite partition_app by (apply safe_class; auto; apply (safe_not_char "=" eq_refl)).
  rewrite (plain_nonempty _ H2).
  rewrite !replace_char_free
    by (apply safe_class; auto; apply (safe_not_char "+" eq_refl)).
  now rewrite !unquote_safe by (now apply plain_safe).
Qed.

Lemma field_string_nonempty kv : nonempty (field_string kv) = true.
Proof. destruct kv as [[|c k] v]; reflexivity. Qed.

Lemma query_of_nonempty kv fs : nonempty (query_of (kv :: fs)) = true.
Proof.
  unfold query_of. cbn [map join].
  destruct (map field_string fs); [apply field_string_nonempty|].
  destruct kv as [[|c k] v]; reflexivity.
Qed.

Lemma parse_qsl_plain fs :
  forallb plain_field fs = true -> parse_qsl (query_string fs) = fs.
Proof.
  intros Hf. destruct fs as [|kv fs]; [reflexivity|].
  unfold parse_qsl, query_string. rewrite query_of_nonempty.
  unfold query_of. rewrite split_join.
  - induction (kv :: fs) as [|f l IH]; [reflexivity|].
    cbn [forallb] in Hf. apply andb_prop in Hf as [H1 H2].
    cbn [map flat_map]. rewrite (parse_field_plain _ H1), (IH H2). reflexivity.
  - discriminate.
  - eapply forallb_map_impl; [|exact Hf].
    intros f Hf'. apply (field_string_class _ _ (field_not_char "&" eq_refl) Hf').
Qed.

Lemma parse_qs_plain fs :
  forallb plain_field fs = true -> parse_qs (query_string fs) = group fs.
Proof. intros H. unfold parse_qs. now rewrite parse_qsl_plain. Qed.

(** *** Grouping the fields by name *)

Lemma qadd_new k v d :
  ~ In k (map fst d) -> qadd k v d = (d ++ [(k, [v])])%list.
Proof.
  induction d as [|[k' vs] d IH]; simpl; [reflexivity|].
  intros H. destruct (String.eqb k' k) eqn:E.
  - apply String.eqb_eq in E. exfalso; apply H; now left.
  - rewrite IH; [reflexivity|]. intros Hin; apply H; now right.
Qed.

Lemma qadd_last k v vs d :
  ~ In k (map fst d) ->
  qadd k v (d ++ [(k, vs)])%list = (d ++ [(k, (vs ++ [v])%list)])%list.
Proof.
  induction d as [|[k' vs'] d IH]; simpl.
  - now rewrite String.eqb_refl.
  - intros H. destruct (String.eqb k' k) eqn:E.
    + apply String.eqb_eq in E. exfalso; apply H; now left.
    + rewrite IH; [reflexivity|]. intros Hin; apply H; now right.
Qed.

Lemma qadd_keys k v d :
  map fst (qadd k v d)
  = if mem k (map fst d) then map fst d else (map fst d ++ [k])%list.
Proof.
  unfold mem. induction d as [|[k' vs] d IH]; simpl; [reflexivity|].
  rewrite (String.eqb_sym k k').
  destruct (String.eqb k' k); simpl; [reflexivity|].
  rewrite IH. now destruct (existsb _ _).
Qed.

Lemma qadd_normal k v d : normal d -> normal (qadd k v d).
Proof.
  intros [Hnd Hne]. split.
  - rewrite qadd_keys. destruct (mem k (map fst d)) eqn:E; [assumption|].
    apply ParserFacts.mem_false in E.
    apply NoDup_app; auto.
    + repeat constructor; auto.
    + intros x Hx [<-|[]]. contradiction.
  - clear Hnd. induction d as [|[k' vs] d IH]; simpl.
    + intros kv [<-|[]]; discriminate.
    + destruct (String.eqb k' k); intros kv [<-|Hin]; simpl.
      * now destruct vs.
      * apply Hne; now right.
      * apply (Hne (k', vs)); now left.
      * apply IH; auto. intros kv' Hkv'. apply Hne; now right.
Qed.

Lemma qadd_holds k v d k' v' :
  holds (qadd k v d) k' v' -> holds d k' v' \/ (k' = k /\ v' = v).
Proof.
  induction d as [|[k0 vs0] d IH]; simpl; intros (vs & Hin & Hv).
  - destruct Hin as [E|[]]. injection E as <- <-.
    destruct Hv as [<-|[]]. now right.
  - destruct (String.eqb k0 k) eqn:E.
    + apply String.eqb_eq in E. subst k0.
      destruct Hin as [E|Hin].
      * injection E as <- <-. apply in_app_iff in Hv as [Hv|[<-|[]]].
        -- left. exists vs0. split; [now left|assumption].
        -- now right.
      * left. exists vs. split; [now right|assumption].
    + destruct Hin as [E'|Hin].
      * injection E' as <- <-. left. exists vs0. split; [now left|assumption].
      * destruct IH as [(vs1 & H1 & H2)|H]; [now exists vs| |now right].
        left. exists vs1. split; [now right|assumption].
Qed.

Lemma fold_add_normal fs : forall d, normal d -> normal (fold_left add_field fs d).
Proof.
  induction fs as [|kv fs IH]; intros d Hd; simpl; [assumption|].
  apply IH. now apply qadd_normal.
Qed.

Lemma fold_add_holds fs : forall d k v,
  holds (fold_left add_field fs d) k v -> holds d k v \/ In (k, v) fs.
Proof.
  induction fs as [|[k0 v0] fs IH]; intros d k v H; simpl in *; [now left|].
  destruct (IH _ _ _ H) as [H1|H1]; [|now right; right].
  destruct (qadd_holds _ _ _ _ _ H1) as [H2|[-> ->]]; [now left|].
  right; now left.
Qed.

Lemma group_normal fs : normal (group fs).
Proof.
  apply (fold_add_normal fs []). split; [constructor|intros kv []].
Qed.

Lemma group_holds fs k v : holds (group fs) k v -> In (k, v) fs.
Proof.
  intros H. destruct (fold_add_holds fs [] k v H) as [(vs & [] & _)|H1]; assumption.
Qed.

Lemma clean_qs_normal d : normal d -> normal (clean_qs d).
Proof.
  intros [Hnd Hne]. unfold clean_qs. split.
  - clear Hne. induction d as [|kv d IH]; simpl; [constructor|].
    inversion Hnd as [|x l Hx Hl]; subst.
    destruct (negb _); simpl; auto. constructor; auto.
    intros Hin. apply Hx. apply in_map_iff in Hin as (y & E & Hy).
    apply filter_In in Hy as [Hy _]. rewrite <- E. now apply in_map.
  - intros kv Hin. apply filter_In in Hin as [Hin _]. now apply Hne.
Qed.

Lemma clean_qs_holds d k v : holds (clean_qs d) k v -> holds d k v.
Proof.
  intros (vs & Hin & Hv). apply filter_In in Hin as [Hin _]. now exists vs.
Qed.

Lemma filter_idempotent {A} (p : A -> bool) l : filter p (filter p l) = filter p l.
Proof.
  induction l as [|x l IH]; simpl; [reflexivity|].
  destruct (p x) eqn:E; simpl; [rewrite E|]; now rewrite IH.
Qed.

Lemma clean_qs_idempotent d : clean_qs (clean_qs d) = clean_qs d.
Proof. apply filter_idempotent. Qed.

Lemma ungroup_In d k v : In (k, v) (ungroup d) <-> holds d k v.
Proof.
  unfold ungroup, holds. rewrite in_flat_map. split.
  - intros ([k' vs] & Hin & Hv). cbn [fst snd] in Hv.
    apply in_map_iff in Hv as (v' & E & Hv'). injection E as -> ->. now exists vs.
  - intros (vs & Hin & Hv). exists (k, vs). split; [assumption|].
    cbn [fst snd]. now apply in_map.
Qed.

Lemma fold_add_values k vs : forall d cur,
  ~ In k (map fst d) ->
  fold_left add_field (map (pair k) vs) (d ++ [(k, cur)])%list
  = (d ++ [(k, (cur ++ vs)%list)])%list.
Proof.
  induction vs as [|v vs IH]; intros d cur Hk; simpl.
  - now rewrite app_nil_r.
  - unfold add_field at 2; cbn [fst snd]. rewrite (qadd_last _ _ _ _ Hk), (IH _ _ Hk).
    now rewrite <- app_assoc.
Qed.

(** Grouping what was ungrouped gives the dictionary back. *)
Lemma fold_add_ungroup d : forall acc,
  normal (acc ++ d)%list -> fold_left add_field (ungroup d) acc = (acc ++ d)%list.
Proof.
  induction d as [|[k vs] d IH]; intros acc Hn; simpl.
  - now rewrite app_nil_r.
  - destruct Hn as [Hnd Hne].
    assert (Hk : ~ In k (map fst acc)).
    { rewrite map_app in Hnd. simpl in Hnd.
      apply NoDup_remove_2 in Hnd. intros Hin. apply Hnd, in_app_iff. now left. }
    destruct vs as [|v vs].
    { exfalso. apply (Hne (k, [])); [|reflexivity]. apply in_app_iff; right; now left. }
    rewrite fold_left_app. cbn [map fold_left].
    change (add_field acc (k, v)) with (qadd k v acc).
    rewrite (qadd_new _ _ _ Hk), (fold_add_values _ _ _ _ Hk). cbn [app].
    rewrite IH; [now rewrite <- app_assoc|].
    split; rewrite <- app_assoc; assumption.
Qed.

Lemma group_ungroup d : normal d -> group (ungroup d) = d.
Proof. intros H. apply (fold_add_ungroup d [] H). Qed.

(** *** Canonicalising a plain URL *)

Lemma render_class (q : ascii -> bool) x :
  (forall c, url_char c = true -> q c = true) ->
  well_formed x = true -> forallb_str q (render x) = true.
Proof.
  intros Hq Hwf. rewrite render_eq, !forallb_str_app.
  rewrite (after_slashes_class q x Hq Hwf), andb_true_r.
  apply andb_true_intro; split.
  - unfold scheme_of; destruct (secure x); cbn [forallb_str];
      rewrite ?Hq by reflexivity; reflexivity.
  - cbn [forallb_str]. rewrite ?Hq by reflexivity. reflexivity.
Qed.

Lemma strip_render x : well_formed x = true -> strip (render x) = render x.
Proof.
  intros Hwf. unfold strip.
  rewrite lstrip_by_none, rstrip_by_none;
    auto using render_class, safe_not_space.
Qed.

Lemma qget_In k d vs : qget k d = Some vs -> In (k, vs) d.
Proof.
  unfold qget. destruct (find _ d) as [[k' vs']|] eqn:E; [|discriminate].
  intros H; injection H as <-. apply find_some in E as [Hin E].
  cbn [fst] in E. apply String.eqb_eq in E. now subst.
Qed.

Lemma no_redirect fs names :
  forallb plain_field fs = true ->
  (forall k, In k names -> mem k _REDIRECT_PARAMS = true) ->
  redirect_candidate (group fs) names = None.
Proof.
  intros Hf. induction names as [|param names IH]; intros Hn; [reflexivity|].
  cbn [redirect_candidate].
  assert (IH' : redirect_candidate (group fs) names = None)
    by (apply IH; intros k Hk; apply Hn; now right).
  destruct (qget param (group fs)) as [[|candidate rest]|] eqn:E; auto.
  apply qget_In in E.
  assert (Hin : In (param, candidate) fs).
  { apply group_holds. exists (candidate :: rest). split; [assumption|now left]. }
  rewrite forallb_forall in Hf. specialize (Hf _ Hin).
  unfold plain_field, not_a_redirect in Hf. cbn [fst snd] in Hf.
  apply andb_prop in Hf as [_ Hf]. rewrite (Hn param (or_introl eq_refl)) in Hf.
  cbn [andb] in Hf. apply negb_true_iff in Hf. now rewrite Hf.
Qed.

Lemma extract_redirect_render x :
  well_formed x = true -> extract_redirect_url (render x) = Some (render x).
Proof.
  intros Hwf. destruct (well_formed_parts x Hwf) as (Hh & Hs & Hf).
  unfold extract_redirect_url. rewrite (urlparse_render x Hwf). cbn [query].
  rewrite (parse_qs_plain _ Hf), no_redirect; auto.
  intros k Hk. apply ParserFacts.mem_In, Hk.
Qed.

(** The path of a plain URL, normalised. *)
Lemma last_char (p : ascii -> bool) s :
  nonempty s = true -> forallb_str p s = true ->
  exists s' c, s = (s' ++ String c "")%string /\ p c = true.
Proof.
  induction s as [|x s IH]; [discriminate|]. intros _ H.
  cbn [forallb_str] in H. apply andb_prop in H as [H1 H2].
  destruct s as [|y s].
  - now exists "", x.
  - destruct (IH eq_refl H2) as (s' & c & E & Hc).
    exists (String x s'), c. split; [|assumption]. cbn [append]. now rewrite <- E.
Qed.

Lemma segments_end_safe seg segs :
  forallb plain (seg :: segs) = true ->
  ends_safe (String.concat "" (map (fun s => ("/" ++ s)%string) (seg :: segs))).
Proof.
  revert seg. induction segs as [|seg' segs IH]; intros seg Hs;
    cbn [forallb] in Hs; apply andb_prop in Hs as [H1 H2].
  - destruct (last_char always_safe seg (plain_nonempty _ H1) (plain_safe _ H1))
      as (s' & c & E & Hc).
    exists ("/" ++ s')%string, c. split; [|assumption].
    cbn [map String.concat]. rewrite E. reflexivity.
  - destruct (IH seg' H2) as (s' & c & E & Hc).
    exists (("/" ++ seg) ++ s')%string, c. split; [|assumption].
    change (String.concat "" (map (fun s => ("/" ++ s)%string) (seg :: seg' :: segs)))
      with (("/" ++ seg) ++ ""
            ++ String.concat "" (map (fun s => ("/" ++ s)%string) (seg' :: segs)))%string.
    rewrite E. cbn [append]. now rewrite !append_assoc.
Qed.

Lemma normalise_path_ends_safe s :
  ends_safe s ->
  normalise_path s = s /\ normalise_path (s ++ "/") = s.
Proof.
  intros (s' & c & -> & Hc).
  assert (Hne : Ascii.eqb "/" c = false).
  { apply Ascii.eqb_neq. intros <-. discriminate Hc. }
  unfold normalise_path.
  rewrite (rstrip_by_snoc (Ascii.eqb "/") _ "/" eq_refl).
  rewrite (rstrip_by_keep _ _ _ Hne).
  destruct s'; split; reflexivity.
Qed.

Lemma normalise_path_of segs slash :
  forallb plain segs = true ->
  normalise_path (path_of segs slash)
  = path_of segs (match segs with [] => true | _ => false end).
Proof.
  intros Hs. destruct segs as [|seg segs]; [now destruct slash|].
  destruct (normalise_path_ends_safe _ (segments_end_safe seg segs Hs)) as [E1 E2].
  unfold path_of. rewrite (append_nil_r (String.concat _ _)).
  destruct slash; [exact E2|]. now rewrite append_nil_r.
Qed.

Lemma query_string_eq fs : query_string fs = query_of fs.
Proof. now destruct fs. Qed.

Lemma urlencode_plain d :
  (forall k v, holds d k v -> plain k = true /\ plain v = true) ->
  urlencode d = query_of (ungroup d).
Proof.
  intros H. unfold urlencode, query_of, ungroup. f_equal.
  induction d as [|[k vs] d IH]; [reflexivity|].
  cbn [flat_map fst snd]. rewrite map_app, map_map. f_equal.
  - apply map_ext_in. intros v Hv.
    destruct (H k v) as [Hk Hv']; [exists vs; split; [now left|assumption]|].
    unfold field_string; cbn [fst snd].
    now rewrite !quote_plus_safe by (now apply plain_safe).
  - apply IH. intros k' v' (vs' & Hin & Hv'). apply H. exists vs'. split; [now right|assumption].
Qed.

Lemma canonical_fields_plain fs k v :
  forallb plain_field fs = true ->
  holds (clean_qs (group fs)) k v -> plain_field (k, v) = true.
Proof.
  intros Hf H. apply clean_qs_holds, group_holds in H.
  rewrite forallb_forall in Hf. now apply Hf.
Qed.

Lemma path_of_starts_with_slash segs :
  startswith (path_of segs (match segs with [] => true | _ => false end)) "/" = true.
Proof.
  destruct segs as [|seg segs]; [reflexivity|].
  unfold path_of. cbn [map String.concat]. destruct (map _ segs); reflexivity.
Qed.

Lemma path_of_nonempty segs :
  nonempty (path_of segs (match segs with [] => true | _ => false end)) = true.
Proof.
  destruct segs as [|seg segs]; [reflexivity|].
  unfold path_of. cbn [map String.concat]. destruct (map _ segs); reflexivity.
Qed.

Lemma canonical_of_render x :
  well_formed x = true ->
  canonical_of {| scheme := scheme_of x; netloc := host x;
                  path := path_of (segments x) (trailing_slash x);
                  params := ""; query := query_string (fields x); fragment := "" |}
  = render (canonical_plain x).
Proof.
  intros Hwf. destruct (well_formed_parts x Hwf) as (Hh & Hs & Hf).
  unfold canonical_of, urlunparse, urlunsplit.
  cbn [scheme netloc path params query fragment].
  change (nonempty "") with false. cbv iota.
  rewrite (normalise_path_of _ _ Hs), (parse_qs_plain _ Hf).
  rewrite urlencode_plain.
  2:{ intros k v H. pose proof (canonical_fields_plain _ _ _ Hf H) as Hp.
      unfold plain_field in Hp. cbn [fst snd] in Hp.
      apply andb_prop in Hp as [Hp _]. now apply andb_prop in Hp. }
  rewrite !lower_nonempty, (plain_nonempty _ Hh). cbn [orb].
  rewrite path_of_nonempty, path_of_starts_with_slash. cbn [andb negb].
  unfold render, canonical_plain; cbn [secure host segments trailing_slash fields].
  set (F := ungroup (clean_qs (group (fields x)))).
  set (P := path_of (segments x) _).
  assert (Hsch : lower (scheme_of x) = scheme_of x /\ nonempty (scheme_of x) = true)
    by (unfold scheme_of; destruct (secure x); split; reflexivity).
  destruct Hsch as [-> ->]. unfold scheme_of.
  destruct F as [|kv F'].
  - cbn [query_of map join nonempty]. rewrite !append_nil_r.
    destruct (secure x); reflexivity.
  - rewrite query_of_nonempty.
    destruct (secure x); cbn [append]; now rewrite !append_assoc.
Qed.

(** The canonical form of a plain URL. *)
Lemma canonicalise_render x :
  well_formed x = true ->
  canonicalise_url (render x) = Some (render (canonical_plain x)).
Proof.
  intros Hwf. unfold canonicalise_url.
  rewrite (strip_render x Hwf), (extract_redirect_render x Hwf), (urlparse_render x Hwf).
  now rewrite (canonical_of_render x Hwf).
Qed.

Lemma safe_lower c : always_safe c = true -> always_safe (lower_ascii c) = true.
Proof. revert c. by_ascii. Qed.

Lemma plain_lower s : plain s = true -> plain (lower s) = true.
Proof.
  unfold plain. intros H. apply andb_prop in H as [H1 H2].
  rewrite lower_nonempty, H1. cbn [andb].
  induction s as [|c s IH]; [reflexivity|].
  cbn [forallb_str] in H2. apply andb_prop in H2 as [H3 H4].
  cbn [lower forallb_str]. rewrite (safe_lower _ H3). destruct s; [reflexivity|].
  now apply IH.
Qed.

Lemma canonical_plain_well_formed x :
  well_formed x = true -> well_formed (canonical_plain x) = true.
Proof.
  intros Hwf. destruct (well_formed_parts x Hwf) as (Hh & Hs & Hf).
  unfold well_formed, canonical_plain; cbn [host segments fields].
  rewrite (plain_lower _ Hh), Hs. cbn [andb].
  apply forallb_forall. intros [k v] Hin.
  apply ungroup_In in Hin. now apply (canonical_fields_plain (fields x)).
Qed.

Lemma canonical_plain_idempotent x :
  canonical_plain (canonical_plain x) = canonical_plain x.
Proof.
  unfold canonical_plain; cbn [secure host segments trailing_slash fields].
  rewrite lower_idempotent, group_ungroup, clean_qs_idempotent; [reflexivity|].
  apply clean_qs_normal, group_normal.
Qed.

(** *** Fields of a query *)

Lemma parse_qsl_split qs : parse_qsl qs = flat_map field_pairs (split "&" qs).
Proof. unfold parse_qsl. now destruct qs. Qed.

Lemma parse_qsl_amp a b :
  parse_qsl (a ++ "&" ++ b) = (parse_qsl a ++ parse_qsl b)%list.
Proof.
  rewrite !parse_qsl_split.
  change (a ++ "&" ++ b)%string with (a ++ String "&" b)%string.
  now rewrite split_at, flat_map_app.
Qed.

Lemma parse_qsl_field f : free_of "&" f = true -> parse_qsl f = field_pairs f.
Proof.
  intros H. rewrite parse_qsl_split, (split_free _ _ H). cbn [flat_map].
  apply app_nil_r.
Qed.

Lemma clean_qadd k v d :
  clean_qs (qadd k v d)
  = if mem (lower k) _TRACKING_PARAMS then clean_qs d else qadd k v (clean_qs d).
Proof.
  unfold clean_qs.
  set (keep := fun kv : string * list string =>
                 negb (mem (lower (fst kv)) _TRACKING_PARAMS)).
  assert (Hkeep : forall vs, keep (k, vs) = negb (mem (lower k) _TRACKING_PARAMS))
    by reflexivity.
  destruct (mem (lower k) _TRACKING_PARAMS) eqn:Ek.
  - induction d as [|[k' vs] d IH]; cbn [qadd filter].
    + now rewrite Hkeep.
    + destruct (String.eqb k' k) eqn:E; cbn [filter].
      * apply String.eqb_eq in E; subst k'. now rewrite !Hkeep.
      * now rewrite IH.
  - induction d as [|[k' vs] d IH]; cbn [qadd filter].
    + now rewrite Hkeep.
    + destruct (String.eqb k' k) eqn:E; cbn [filter].
      * pose proof E as E'. apply String.eqb_eq in E'; subst k'.
        rewrite !Hkeep. cbn [negb qadd]. now rewrite E.
      * rewrite IH. destruct (keep (k', vs)); [|reflexivity].
        cbn [qadd]. now rewrite E.
Qed.

Lemma clean_fold l : forall d,
  clean_qs (fold_left add_field l d) = fold_left add_field (filter kept l) (clean_qs d).
Proof.
  induction l as [|[k v] l IH]; intros d; cbn [fold_left filter]; [reflexivity|].
  rewrite IH. unfold add_field at 2, kept at 2; cbn [fst snd].
  rewrite clean_qadd. now destruct (mem (lower k) _TRACKING_PARAMS).
Qed.

Lemma clean_parse_qs q :
  clean_qs (parse_qs q) = fold_left add_field (filter kept (parse_qsl q)) [].
Proof. unfold parse_qs. apply (clean_fold (parse_qsl q) []). Qed.

Lemma tracking_field_dropped f :
  is_tracking_field f = true ->
  free_of "&" f = true /\ filter kept (field_pairs f) = [].
Proof.
  unfold is_tracking_field. intros H. apply andb_prop in H as [H1 H2].
  split; [exact H1|].
  unfold field_pairs, parse_field.
  destruct (partition "=" f) as [[name value]|]; [|discriminate].
  destruct (nonempty value); [|reflexivity].
  cbn [filter]. unfold kept; cbn [fst]. now rewrite H2.
Qed.

(** Adding a tracking field leaves the fields that are kept as they were. *)
Lemma adds_tracking_field f q q' :
  is_tracking_field f = true -> adds_field f q q' ->
  filter kept (parse_qsl q') = filter kept (parse_qsl q).
Proof.
  intros Hf Hadd. destruct (tracking_field_dropped f Hf) as [Hamp Hdrop].
  pose proof (parse_qsl_field f Hamp) as Ef.
  destruct Hadd; rewrite ?parse_qsl_amp, ?filter_app, ?parse_qsl_amp, ?filter_app, ?Ef, ?Hdrop;
    cbn [app]; rewrite ?app_nil_r; reflexivity.
Qed.

(** *** What the canonical form depends on *)

Lemma qget_clean k d :
  mem (lower k) _TRACKING_PARAMS = false -> qget k (clean_qs d) = qget k d.
Proof.
  intros Hk. unfold qget, clean_qs.
  induction d as [|[k' vs] d IH]; [reflexivity|]. cbn [filter find fst].
  destruct (String.eqb k' k) eqn:E.
  - apply String.eqb_eq in E; subst k'. rewrite Hk. cbn [negb find fst].
    now rewrite String.eqb_refl.
  - destruct (negb _); [cbn [find fst]; rewrite E|]; exact IH.
Qed.

Lemma redirect_candidate_clean d names :
  (forall k, In k names -> mem (lower k) _TRACKING_PARAMS = false) ->
  redirect_candidate (clean_qs d) names = redirect_candidate d names.
Proof.
  induction names as [|param names IH]; intros H; [reflexivity|].
  cbn [redirect_candidate].
  rewrite (qget_clean param d (H param (or_introl eq_refl))).
  rewrite IH; [reflexivity|]. intros k Hk. apply H. now right.
Qed.

Lemma redirect_params_kept k :
  In k _REDIRECT_PARAMS -> mem (lower k) _TRACKING_PARAMS = false.
Proof.
  intros H. repeat (destruct H as [<-|H]; [reflexivity|]). destruct H.
Qed.

(** Two URLs whose parses agree on scheme, host, normalised path and kept
    fields have the same canonical form. *)
Lemma canonicalise_by_parts u u' p p' :
  urlparse (strip u) = Some p -> urlparse (strip u') = Some p' ->
  scheme p' = scheme p -> netloc p' = netloc p ->
  normalise_path (path p') = normalise_path (path p) ->
  clean_qs (parse_qs (query p')) = clean_qs (parse_qs (query p)) ->
  canonicalise_url u' = canonicalise_url u.
Proof.
  intros Hp Hp' Hs Hn Hpath Hq.
  unfold canonicalise_url, extract_redirect_url. rewrite Hp, Hp'.
  rewrite <- (redirect_candidate_clean (parse_qs (query p')) _ redirect_params_kept).
  rewrite <- (redirect_candidate_clean (parse_qs (query p)) _ redirect_params_kept).
  rewrite Hq.
  destruct (redirect_candidate _ _) as [candidate|]; [reflexivity|].
  rewrite Hp, Hp'. unfold canonical_of. now rewrite Hs, Hn, Hpath, Hq.
Qed.

(** *** Idempotence *)



(** *** Stability of the hash *)





End HashingFacts.

(** ** The shape of a digest *)

Module Sha256Facts.
Import PyStr Sha256.
#[local] Open Scope Z_scope.

Lemma length_append (a b : string) :
  String.length (a ++ b) = (String.length a + String.length b)%nat.
Proof. induction a; simpl; congruence. Qed.

Lemma round_length st kw : List.length st = 8%nat -> List.length (round st kw) = 8%nat.
Proof.
  intros H. do 9 (destruct st as [|? st]; try discriminate). reflexivity.
Qed.

Lemma rounds_length kws : forall st,
  List.length st = 8%nat -> List.length (fold_left round kws st) = 8%nat.
Proof.
  induction kws as [|kw kws IH]; intros st H; simpl; auto using round_length.
Qed.

Lemma compress_length h block :
  List.length h = 8%nat -> List.length (compress h block) = 8%nat.
Proof.
  intros H. unfold compress.
  rewrite length_map, length_combine, rounds_length, H; auto.
Qed.

Lemma digest_words_length msg : List.length (digest_words msg) = 8%nat.
Proof.
  unfold digest_words.
  generalize (blocks (List.length (be_words (List.length (pad msg)) (pad msg)))
                (be_words (List.length (pad msg)) (pad msg))).
  assert (H : List.length H0 = 8%nat) by reflexivity. revert H. generalize H0.
  intros h H l; revert h H.
  induction l as [|b l IH]; intros h H; simpl; auto using compress_length.
Qed.

Lemma hex_char_hex n : 0 <= n < 16 -> is_hex_lower (hex_char n) = true.
Proof.
  intros H.
  assert (A : forallb (fun k => is_hex_lower (hex_char (Z.of_nat k))) (seq 0 16) = true)
    by reflexivity.
  rewrite forallb_forall in A.
  specialize (A (Z.to_nat n)). rewrite Z2Nat.id in A by lia.
  apply A, in_seq. lia.
Qed.

Lemma hex_word_spec w :
  String.length (hex_word w) = 8%nat /\ forallb_str is_hex_lower (hex_word w) = true.
Proof.
  unfold hex_word. cbn [seq rev app map string_of_list_ascii String.length forallb_str].
  split; [reflexivity|].
  rewrite !hex_char_hex; [reflexivity| apply Z.mod_pos_bound; lia ..].
Qed.

Lemma concat_hex_words ws :
  String.length (String.concat "" (map hex_word ws)) = (8 * List.length ws)%nat
  /\ forallb_str is_hex_lower (String.concat "" (map hex_word ws)) = true.
Proof.
  induction ws as [|w ws [IH1 IH2]]; [split; reflexivity|].
  destruct (hex_word_spec w) as [H1 H2].
  assert (E : String.concat "" (map hex_word (w :: ws))
              = (hex_word w ++ String.concat "" (map hex_word ws))%string).
  { cbn [map]. destruct (map hex_word ws); cbn [String.concat]; [|reflexivity].
    symmetry; apply PyStrFacts.append_nil_r. }
  rewrite E. split.
  - rewrite length_append, H1, IH1. simpl List.length. lia.
  - rewrite PyStrFacts.forallb_str_app, H2, IH2. reflexivity.
Qed.

Lemma hexdigest_shape s :
  String.length (hexdigest s) = 64%nat /\ forallb_str is_hex_lower (hexdigest s) = true.
Proof.
  unfold hexdigest.
  destruct (concat_hex_words
              (digest_words (map (fun c => Z.of_nat (nat_of_ascii c)) (list_ascii_of_string s))))
    as [H1 H2].
  rewrite digest_words_length in H1. split; assumption.
Qed.
End Sha256Facts.

(** ** What the score depends on *)

Module ScoreFacts.
Import PyStr Filter.

Lemma score_job_no_exclusion title company location ats_type cfg :
  excluded_match cfg (lower (or_else location "")) = None ->
  score (score_job title company location ats_type cfg)
    = PyFloat.min 1.0%float (PyFloat.round3 (raw_score title location ats_type cfg))
  /\ should_queue (score_job title company location ats_type cfg)
    = PrimFloat.leb (min_score cfg)
        (PyFloat.min 1.0%float (PyFloat.round3 (raw_score title location ats_type cfg))).
Proof.
  intros H. unfold score_job, raw_score. rewrite H.
  destruct (location_step _ _ _) as [sc reasons]. split; reflexivity.
Qed.

Lemma fst_title_step cfg t sc rs :
  fst (title_step cfg t (sc, rs))
  = match matched_keywords cfg t with
    | [] => sc
    | m => (sc + keyword_score m)%float
    end.
Proof. unfold title_step. now destruct (matched_keywords cfg t). Qed.

Lemma fst_ats_step ats a :
  fst (ats_step ats a)
  = match _ATS_BOOST ats with Some b => (fst a + b)%float | None => fst a end.
Proof. destruct a as [sc rs]; unfold ats_step. now destruct (_ATS_BOOST ats). Qed.

Lemma fst_location_step cfg l a :
  fst (location_step cfg l a)
  = if location_bonus cfg l then (fst a + 0.05)%float else fst a.
Proof.
  destruct a as [sc rs]; unfold location_step, location_bonus.
  destruct (preferred_locations cfg) as [|p ps]; [now destruct (contains _ _)|].
  destruct (find _ (p :: ps)) as [x|] eqn:E.
  - apply find_some in E as [Hin Hx].
    assert (X : existsb (fun pref => contains (lower pref) l || contains "remote" l) (p :: ps) = true)
      by (apply existsb_exists; eauto).
    now rewrite X.
  - assert (X : existsb (fun pref => contains (lower pref) l || contains "remote" l) (p :: ps) = false).
    { destruct (existsb _ _) eqn:X; [|reflexivity].
      apply existsb_exists in X as (y & Hy & Hy').
      pose proof (find_none _ _ E y Hy) as N. simpl in N. congruence. }
    now rewrite X.
Qed.

Lemma raw_score_eq title location ats_type cfg :
  raw_score title location ats_type cfg
  = let s1 := match matched_keywords cfg (lower title) with
              | [] => 0%float
              | m => (0 + keyword_score m)%float
              end in
    let s2 := match _ATS_BOOST (lower (or_else ats_type "unknown")) with
              | Some b => (s1 + b)%float
              | None => s1
              end in
    if location_bonus cfg (lower (or_else location "")) then (s2 + 0.05)%float else s2.
Proof.
  unfold raw_score. rewrite fst_location_step, fst_ats_step, fst_title_step. reflexivity.
Qed.

Lemma boost_cases ats :
  _ATS_BOOST ats = Some 0.20%float \/ _ATS_BOOST ats = Some 0.10%float
  \/ _ATS_BOOST ats = None.
Proof.
  unfold _ATS_BOOST. repeat (destruct (String.eqb ats _); auto).
Qed.



Lemma matched_default_length t :
  (List.length (matched_keywords default_FilterConfig t) <= 12)%nat.
Proof. unfold matched_keywords. apply (filter_length_le _ (title_keywords default_FilterConfig)). Qed.





End ScoreFacts.

(** ** Splitting and character classes *)

Module SplitFacts.
Import PyStr PyStrFacts.

Lemma partition_parts c s a b : partition c s = Some (a, b) -> s = (a ++ String c b)%string.
Proof.
  revert a b; induction s as [|x s IH]; intros a b; simpl; [discriminate|].
  destruct (Ascii.eqb x c) eqn:E.
  - intros [= <- <-]. apply Ascii.eqb_eq in E. now subst.
  - destruct (partition c s) as [[a' b']|]; [|discriminate].
    intros [= <- <-]. simpl. f_equal. now apply IH.
Qed.

Lemma partition_before_free c s a b : partition c s = Some (a, b) -> free_of c a = true.
Proof.
  revert a b; induction s as [|x s IH]; intros a b; simpl; [discriminate|].
  destruct (Ascii.eqb x c) eqn:E.
  - now intros [= <- <-].
  - destruct (partition c s) as [[a' b']|]; [|discriminate].
    intros [= <- <-]. unfold free_of; simpl. rewrite E. simpl. now apply (IH a' b').
Qed.

Lemma partition_none_free c s : partition c s = None -> free_of c s = true.
Proof.
  induction s as [|x s IH]; simpl; [reflexivity|].
  destruct (Ascii.eqb x c) eqn:E; [discriminate|].
  destruct (partition c s) as [[a' b']|]; [discriminate|].
  intros _. unfold free_of; simpl. rewrite E. now apply IH.
Qed.

Lemma rpartition_parts c s a b : rpartition c s = Some (a, b) -> s = (a ++ String c b)%string.
Proof.
  revert a b; induction s as [|x s IH]; intros a b; simpl; [discriminate|].
  destruct (rpartition c s) as [[a' b']|].
  - intros [= <- <-]. simpl. f_equal. now apply IH.
  - destruct (Ascii.eqb x c) eqn:E; [|discriminate].
    intros [= <- <-]. apply Ascii.eqb_eq in E. now subst.
Qed.

Lemma break_at_parts p s a b :
  break_at p s = (a, b) -> s = (a ++ b)%string /\ forallb_str (fun c => negb (p c)) a = true.
Proof.
  revert a b; induction s as [|x s IH]; intros a b; simpl.
  - intros [= <- <-]. now split.
  - destruct (p x) eqn:E.
    + intros [= <- <-]. now split.
    + destruct (break_at p s) as [a' b']. intros [= <- <-].
      destruct (IH a' b' eq_refl) as [-> H]. split; [reflexivity|].
      simpl. now rewrite E, H.
Qed.

Lemma forallb_str_app_l p a b : forallb_str p (a ++ b) = true -> forallb_str p a = true.
Proof. rewrite forallb_str_app. now intros [H _]%andb_prop. Qed.

Lemma forallb_str_app_r p a b : forallb_str p (a ++ b) = true -> forallb_str p b = true.
Proof. rewrite forallb_str_app. now intros [_ H]%andb_prop. Qed.

Lemma rstrip_by_class p (q : ascii -> bool) s :
  forallb_str q s = true -> forallb_str q (rstrip_by p s) = true.
Proof.
  induction s as [|x s IH]; simpl; [reflexivity|].
  intros [Hx Hs]%andb_prop. specialize (IH Hs).
  destruct (rstrip_by p s) as [|y t].
  - destruct (p x); simpl; [reflexivity|now rewrite Hx].
  - simpl in *. now rewrite Hx, IH.
Qed.

Lemma lstrip_by_class p (q : ascii -> bool) s :
  forallb_str q s = true -> forallb_str q (lstrip_by p s) = true.
Proof.
  induction s as [|x s IH]; simpl; [reflexivity|].
  intros H. destruct (p x); [|exact H]. apply andb_prop in H as [_ H]. auto.
Qed.

Lemma remove_by_class p (q : ascii -> bool) s :
  forallb_str q s = true -> forallb_str q (remove_by p s) = true.
Proof.
  induction s as [|x s IH]; simpl; [reflexivity|].
  intros [Hx Hs]%andb_prop. destruct (p x); simpl; [auto|]. now rewrite Hx, IH.
Qed.

Lemma lower_class (q : ascii -> bool) s :
  (forall c, q c = true -> q (lower_ascii c) = true) ->
  forallb_str q s = true -> forallb_str q (lower s) = true.
Proof.
  intros Hq. induction s as [|x s IH]; simpl; [reflexivity|].
  intros [Hx Hs]%andb_prop. now rewrite (Hq x Hx), IH.
Qed.

Lemma join_class (q : ascii -> bool) sep l :
  forallb_str q sep = true -> forallb (forallb_str q) l = true ->
  forallb_str q (join sep l) = true.
Proof.
  intros Hsep. induction l as [|x l IH]; [reflexivity|].
  intros [Hx Hl]%andb_prop. destruct l as [|y l]; [exact Hx|].
  change (join sep (x :: y :: l)) with (x ++ sep ++ join sep (y :: l))%string.
  rewrite !forallb_str_app, Hx, Hsep. simpl. now apply IH.
Qed.

End SplitFacts.

(** ** What a canonical URL and its hash look like *)

Module CanonicalFacts.
Import PyStr PyStrFacts Urllib Hashing SplitFacts.

Lemma free_hash s : free_of "#" s = forallb_str not_hash s.
Proof. reflexivity. Qed.

Lemma scheme_char_not_hash c : scheme_char c = true -> not_hash c = true.
Proof. revert c. HashingFacts.by_ascii. Qed.

Lemma split_scheme_spec url sch rest :
  split_scheme url = (sch, rest) ->
  forallb_str scheme_char sch = true
  /\ (rest = url \/ exists s, url = (s ++ String ":" rest)%string).
Proof.
  unfold split_scheme.
  destruct (partition ":" url) as [[s after]|] eqn:E.
  - destruct s as [|c0 s'].
    + intros [= <- <-]. split; [reflexivity|now left].
    + destruct (is_ascii_alpha c0 && forallb_str scheme_char (String c0 s')) eqn:T.
      * intros [= <- <-]. apply andb_prop in T as [_ T].
        split.
        -- apply (lower_class scheme_char (String c0 s')); [|exact T].
           clear. HashingFacts.by_ascii.
        -- right. exists (String c0 s'). now apply partition_parts.
      * intros [= <- <-]. split; [reflexivity|now left].
  - intros [= <- <-]. split; [reflexivity|now left].
Qed.

Lemma urlsplit_free_hash url sch nl p q f :
  urlsplit url = Some (sch, nl, p, q, f) ->
  free_of "#" sch = true /\ free_of "#" nl = true /\ free_of "#" p = true.
Proof.
  unfold urlsplit.
  destruct (split_scheme _) as [sch' rest] eqn:Es.
  destruct (split_scheme_spec _ _ _ Es) as [Hsch _].
  set (nr := match rest with
             | String "/" (String "/" r) => _splitnetloc r
             | _ => (EmptyString, rest)
             end).
  assert (Hnl : free_of "#" (fst nr) = true).
  { subst nr. destruct rest as [|a rest']; [reflexivity|].
    destruct a as [[] [] [] [] [] [] [] []]; try reflexivity.
    destruct rest' as [|b r]; [reflexivity|].
    destruct b as [[] [] [] [] [] [] [] []]; try reflexivity.
    unfold _splitnetloc. destruct (break_at _ r) as [x y] eqn:B.
    apply break_at_parts in B as [_ B]. simpl.
    rewrite free_hash. eapply forallb_str_impl; [|exact B].
    clear. HashingFacts.by_ascii. }
  clearbody nr. destruct nr as [nl' u0]. simpl in Hnl.
  set (uf := match partition "#" u0 with Some (u, f0) => (u, f0) | None => (u0, EmptyString) end).
  assert (Hu : free_of "#" (fst uf) = true).
  { subst uf. destruct (partition "#" u0) as [[u f0]|] eqn:P; simpl.
    - eapply partition_before_free; eauto.
    - now apply partition_none_free. }
  clearbody uf. destruct uf as [u1 f1]. simpl in Hu.
  set (uq := match partition "?" u1 with Some (u, q0) => (u, q0) | None => (u1, EmptyString) end).
  assert (Hp : free_of "#" (fst uq) = true).
  { subst uq. destruct (partition "?" u1) as [[u q0]|] eqn:P; simpl; [|exact Hu].
    apply partition_parts in P. subst u1. rewrite free_hash in *.
    eapply forallb_str_app_l; eauto. }
  clearbody uq. destruct uq as [u2 q2]. simpl in Hp.
  destruct (netloc_ok nl'); [|discriminate].
  intros [= <- <- <- <- <-]. repeat split; auto.
  rewrite free_hash. eapply forallb_str_impl; [|exact Hsch]. exact scheme_char_not_hash.
Qed.

Lemma splitparams_free_hash url :
  free_of "#" url = true -> free_of "#" (fst (_splitparams url)) = true.
Proof.
  intros H. unfold _splitparams.
  destruct (rpartition "/" url) as [[dir last]|] eqn:R.
  - destruct (partition ";" last) as [[seg ps]|] eqn:P; simpl; [|exact H].
    apply rpartition_parts in R. apply partition_parts in P. subst url last.
    rewrite free_hash in *. rewrite !forallb_str_app in *. simpl in *.
    rewrite forallb_str_app in H.
    apply andb_prop in H as [-> H]. apply andb_prop in H as [-> _]. reflexivity.
  - destruct (partition ";" url) as [[seg ps]|] eqn:P; simpl; [|exact H].
    apply partition_parts in P. subst url. rewrite free_hash in *.
    eapply forallb_str_app_l; eauto.
Qed.

Lemma urlparse_free_hash url p :
  urlparse url = Some p ->
  free_of "#" (scheme p) = true /\ free_of "#" (netloc p) = true
  /\ free_of "#" (path p) = true.
Proof.
  unfold urlparse.
  destruct (urlsplit url) as [[[[[sch nl] u] q] f]|] eqn:E; [|discriminate].
  destruct (urlsplit_free_hash _ _ _ _ _ _ E) as (H1 & H2 & H3).
  destruct (mem sch uses_params && contains ";" u).
  - pose proof (splitparams_free_hash u H3) as H4.
    destruct (_splitparams u) as [u' ps]. intros [= <-]. simpl. auto.
  - intros [= <-]. simpl. auto.
Qed.

Lemma quote_plus_class s : forallb_str quoted_char (quote_plus s) = true.
Proof.
  induction s as [|c s IH]; [reflexivity|].
  cbn [quote_plus].
  destruct (always_safe c) eqn:S.
  - cbn [forallb_str]. unfold quoted_char at 1. now rewrite S, IH.
  - destruct (Ascii.eqb c " ").
    + cbn [forallb_str]. now rewrite IH.
    + cbn [forallb_str]. rewrite IH.
      assert (H : quoted_char (hex_digit (nat_of_ascii c / 16)) = true
                  /\ quoted_char (hex_digit (nat_of_ascii c mod 16)) = true).
      { clear. destruct c as [[] [] [] [] [] [] [] []]; vm_compute; split; reflexivity. }
      destruct H as [-> ->]. reflexivity.
Qed.

Lemma urlencode_free_hash d : free_of "#" (urlencode d) = true.
Proof.
  unfold urlencode. rewrite free_hash. apply join_class; [reflexivity|].
  apply forallb_forall. intros x Hx.
  apply in_flat_map in Hx as (kv & _ & Hx). apply in_map_iff in Hx as (v & <- & _).
  rewrite !forallb_str_app.
  assert (Q : forall s, forallb_str not_hash (quote_plus s) = true).
  { intros s. eapply forallb_str_impl; [|apply quote_plus_class]. clear. HashingFacts.by_ascii. }
  now rewrite !Q.
Qed.

Lemma normalise_path_free_hash p :
  free_of "#" p = true -> free_of "#" (normalise_path p) = true.
Proof.
  intros H. unfold normalise_path.
  pose proof (rstrip_by_class (Ascii.eqb "/") not_hash p H) as R.
  now destruct (rstrip_by _ p).
Qed.

Lemma lower_free_hash s : free_of "#" s = true -> free_of "#" (lower s) = true.
Proof. rewrite !free_hash. apply lower_class. clear. HashingFacts.by_ascii. Qed.

Lemma urlunsplit_free_hash sch nl u q :
  free_of "#" sch = true -> free_of "#" nl = true -> free_of "#" u = true ->
  free_of "#" q = true -> free_of "#" (urlunsplit sch nl u q "") = true.
Proof.
  rewrite !free_hash. intros Hs Hn Hu Hq. unfold urlunsplit.
  change (nonempty "") with false. cbv iota.
  set (u1 := if nonempty u && negb (startswith u "/") then ("/" ++ u)%string else u).
  assert (H1 : forallb_str not_hash u1 = true).
  { subst u1. destruct (_ && _); [|exact Hu]. simpl. exact Hu. }
  set (u2 := if nonempty nl || _ then _ else _).
  assert (H2 : forallb_str not_hash u2 = true).
  { subst u2. destruct (_ || _); [|exact Hu].
    rewrite !forallb_str_app, Hn, H1. reflexivity. }
  clearbody u2.
  set (u3 := if nonempty sch then _ else _).
  assert (H3 : forallb_str not_hash u3 = true).
  { subst u3. destruct (nonempty sch); [|exact H2].
    rewrite !forallb_str_app, Hs, H2. reflexivity. }
  clearbody u3.
  destruct (nonempty q); [|exact H3].
  rewrite !forallb_str_app, H3, Hq. reflexivity.
Qed.



Lemma redirect_candidate_spec qs names r :
  redirect_candidate qs names = Some r ->
  startswith r "http" = true
  /\ exists name rest, In name names /\ qget name qs = Some (r :: rest).
Proof.
  induction names as [|n names IH]; cbn [redirect_candidate]; [discriminate|].
  assert (Hrest : redirect_candidate qs names = Some r ->
                  startswith r "http" = true
                  /\ exists name rest, In name (n :: names) /\ qget name qs = Some (r :: rest)).
  { intros H. destruct (IH H) as (? & name & rest & ? & ?).
    split; [assumption|]. exists name, rest. split; [now right|assumption]. }
  destruct (qget n qs) as [[|c vs]|] eqn:G; auto.
  destruct (startswith c "http") eqn:S; auto.
  intros [= <-]. split; [exact S|]. exists n, vs. split; [now left|exact G].
Qed.



Lemma urlsplit_no_query url sch nl p q f :
  free_of "?" url = true -> urlsplit url = Some (sch, nl, p, q, f) -> q = "".
Proof.
  intros H. unfold urlsplit.
  assert (H0 : forallb_str not_qmark (remove_by unsafe_url_byte
                                       (lstrip_by c0_control_or_space url)) = true)
    by (apply remove_by_class, lstrip_by_class; exact H).
  destruct (split_scheme _) as [sch' rest] eqn:Es.
  destruct (split_scheme_spec _ _ _ Es) as [_ Hrest].
  assert (H1 : forallb_str not_qmark rest = true).
  { destruct Hrest as [->|(s & Hs)]; [exact H0|].
    rewrite Hs in H0. apply forallb_str_app_r in H0. exact H0. }
  set (nr := match rest with
             | String "/" (String "/" r) => _splitnetloc r
             | _ => (EmptyString, rest)
             end).
  assert (H2 : forallb_str not_qmark (snd nr) = true).
  { subst nr. destruct rest as [|a rest']; [reflexivity|].
    destruct a as [[] [] [] [] [] [] [] []]; try exact H1.
    destruct rest' as [|b r]; [exact H1|].
    destruct b as [[] [] [] [] [] [] [] []]; try exact H1.
    unfold _splitnetloc. destruct (break_at _ r) as [x y] eqn:B.
    apply break_at_parts in B as [B _]. subst r. simpl.
    simpl in H1. now apply forallb_str_app_r in H1. }
  clearbody nr. destruct nr as [nl' u0]. simpl in H2.
  set (uf := match partition "#" u0 with Some (u, f0) => (u, f0) | None => (u0, EmptyString) end).
  assert (H3 : forallb_str not_qmark (fst uf) = true).
  { subst uf. destruct (partition "#" u0) as [[u f0]|] eqn:P; simpl; [|exact H2].
    apply partition_parts in P. subst u0. now apply forallb_str_app_l in H2. }
  clearbody uf. destruct uf as [u1 f1]. simpl in H3.
  rewrite (partition_free "?" u1 H3).
  destruct (netloc_ok nl'); [|discriminate].
  now intros [= <- <- <- <- <-].
Qed.





Lemma lstrip_by_spaces p w s :
  forallb_str p w = true -> lstrip_by p (w ++ s) = lstrip_by p s.
Proof.
  induction w as [|c w IH]; simpl; [reflexivity|].
  intros [-> H]%andb_prop. auto.
Qed.

Lemma rstrip_by_spaces p w : forall s,
  forallb_str p w = true -> rstrip_by p (s ++ w) = rstrip_by p s.
Proof.
  induction w as [|c w IH]; intros s; simpl.
  - now rewrite append_nil_r.
  - intros [Hc H]%andb_prop.
    change (String c w) with (String c "" ++ w)%string.
    rewrite <- append_assoc, (IH _ H). now apply rstrip_by_snoc.
Qed.

Lemma lstrip_by_app p s w :
  forallb_str p w = true ->
  rstrip_by p (lstrip_by p (s ++ w)) = rstrip_by p (lstrip_by p s).
Proof.
  intros Hw. induction s as [|c s IH]; simpl.
  - assert (E : lstrip_by p w = "").
    { clear - Hw. induction w as [|c w IH]; simpl in *; [reflexivity|].
      apply andb_prop in Hw as [-> Hw]. auto. }
    now rewrite E.
  - destruct (p c); [exact IH|].
    change (String c (s ++ w)) with (String c s ++ w)%string.
    now apply rstrip_by_spaces.
Qed.

Lemma strip_spaces w1 w2 s :
  forallb_str is_space w1 = true -> forallb_str is_space w2 = true ->
  strip (w1 ++ s ++ w2) = strip s.
Proof.
  intros H1 H2. unfold strip. rewrite (lstrip_by_spaces _ _ _ H1).
  now apply lstrip_by_app.
Qed.




End CanonicalFacts.

(** ** Where the jobs of the feed come from *)

Module FeedFacts.
Import PyStr Parser GithubReadme ParserFacts.

Lemma get_apply_url_spec td url :
  _get_apply_url td = Some url ->
  contains lock_glyph (get_text td) = false
  /\ exists a, In a (anchors td) /\ existsb is_apply_alt (img_alts a) = true /\ href a = url.
Proof.
  unfold _get_apply_url.
  destruct (contains lock_glyph (get_text td)); [discriminate|].
  destruct (find _ (anchors td)) as [a|] eqn:F; [|discriminate].
  intros [= <-]. apply find_some in F as [Hin Ha]. split; [reflexivity|]. now exists a.
Qed.

Section WithRegex.
Variable _strip_emoji : string -> string.

(** One row either leaves the jobs and the hashes alone or appends one job,
    built from the row, whose hash is new. *)
Lemma row_step_spec kws now cur jobs seen cells cur' jobs' seen' :
  row_step _strip_emoji kws now (cur, jobs, seen) cells = Some (cur', jobs', seen') ->
  (jobs' = jobs /\ seen' = seen)
  \/ exists j, jobs' = (jobs ++ [j])%list /\ seen' = url_hash j :: seen
               /\ ~ In (url_hash j) seen /\ built_from _strip_emoji cells j.
Proof.
  unfold row_step; intros H.
  repeat match type of H with
         | Some _ = Some _ => injection H as <- <- <-; left; split; reflexivity
         | None = Some _ => discriminate H
         | match ?x with _ => _ end = _ => destruct x eqn:?
         | (let '(_, _) := ?x in _) = _ => destruct x eqn:?
         end.
  injection H as <- <- <-. right.
  eexists. split; [reflexivity|]. split; [reflexivity|]. simpl.
  match goal with E : mem _ seen = false |- _ => apply mem_false in E; rename E into Hnew end.
  split; [exact Hnew|].
  match goal with E : _get_apply_url _ = Some _ |- _ =>
    apply get_apply_url_spec in E; destruct E as (Hlock & a & Hin & Halt & Hhref) end.
  subst.
  unfold built_from. do 5 eexists. exists a. simpl.
  repeat match goal with E : negb _ = false |- _ => apply negb_false_iff in E end.
  repeat split; eauto.
Qed.

Lemma row_loop_spec kws now trs : forall cur jobs seen cur' jobs' seen',
  (forall h, In h seen <-> In h (map url_hash jobs)) ->
  NoDup (map url_hash jobs) ->
  row_loop _strip_emoji kws now (cur, jobs, seen) trs = Some (cur', jobs', seen') ->
  NoDup (map url_hash jobs')
  /\ forall j, In j jobs' ->
       In j jobs \/ exists cells, In cells trs /\ built_from _strip_emoji cells j.
Proof.
  induction trs as [|cells trs IH]; intros cur jobs seen cur' jobs' seen' Hseen Hnd H;
    cbn [row_loop] in H.
  - injection H as <- <- <-. split; [assumption|]. intros j Hj; now left.
  - destruct (row_step _ _ _ _ cells) as [[[cur1 jobs1] seen1]|] eqn:E; [|discriminate].
    apply row_step_spec in E as [[-> ->]|(j0 & -> & -> & Hnew & Hb)].
    + destruct (IH _ _ _ _ _ _ Hseen Hnd H) as [H1 H2].
      split; [assumption|]. intros j Hj.
      destruct (H2 j Hj) as [?|(c & ? & ?)]; [now left|].
      right. exists c. split; [now right|assumption].
    + assert (Hseen' : forall h, In h (url_hash j0 :: seen)
                                 <-> In h (map url_hash (jobs ++ [j0]))).
      { intros h. rewrite map_app, in_app_iff; simpl. rewrite Hseen. tauto. }
      assert (Hnd' : NoDup (map url_hash (jobs ++ [j0]))).
      { rewrite map_app; simpl. apply NoDup_app; auto.
        - repeat constructor; auto.
        - intros x Hx [<-|[]]. apply Hnew, Hseen, Hx. }
      destruct (IH _ _ _ _ _ _ Hseen' Hnd' H) as [H1 H2].
      split; [assumption|]. intros j Hj.
      destruct (H2 j Hj) as [Hin|(c & ? & ?)].
      * apply in_app_iff in Hin as [?|[<-|[]]]; [now left|].
        right. exists cells. split; [now left|assumption].
      * right. exists c. split; [now right|assumption].
Qed.

Lemma fetch_github_jobs_spec cfg tables now jobs :
  fetch_github_jobs _strip_emoji cfg tables now = Some jobs ->
  NoDup (map url_hash jobs)
  /\ forall j, In j jobs ->
       exists table cells,
         find (fun t => mem "Company" (headers t) && mem "Role" (headers t)
                        && mem "Application" (headers t)) tables = Some table
         /\ In cells (rows table) /\ built_from _strip_emoji cells j.
Proof.
  unfold fetch_github_jobs.
  destruct (find _ tables) as [table|].
  2:{ intros [= <-]. split; [constructor|intros j []]. }
  destruct (row_loop _ _ _ _ _) as [[[cur jobs'] seen]|] eqn:E; [|discriminate].
  intros [= <-].
  destruct (row_loop_spec _ _ _ None [] [] _ _ _ (fun h => iff_refl _) (NoDup_nil _) E)
    as [H1 H2].
  split; [assumption|]. intros j Hj.
  destruct (H2 j Hj) as [[]|(cells & Hc & Hb)]. now exists table, cells.
Qed.


End WithRegex.


End FeedFacts.

(** ** The fields of a parsed job *)

Module ParsedJobFacts.
Import PyStr Parser ParserFacts.

Lemma job_of_fields sid now c j :
  has_url_and_title c = true -> job_of sid now c = Some j ->
  Hashing.url_hash (url j) = Some (url_hash j)
  /\ ats_type j = Hashing.detect_ats_from_url (url j)
  /\ source_email_id j = sid
  /\ discovered_at j = now
  /\ nonempty (title j) = true
  /\ Hashing.canonicalise_url (snd (fst c)) = Some (url j).
Proof.
  destruct c as [[[company title] url] location]; unfold has_url_and_title, job_of; simpl.
  intros [_ Ht]%andb_prop.
  destruct (Hashing.canonicalise_url url) as [canon|]; [|discriminate].
  destruct (Hashing.url_hash canon) as [h|] eqn:Eh; [|discriminate].
  intros [= <-]. simpl. repeat split; auto.
Qed.

Section WithExtractor.
Variable extract_candidates : string -> list candidate.

End WithExtractor.

End ParsedJobFacts.

(** ** Cleaned text *)

Module CleanTextFacts.
Import PyStr PyStrFacts Parser.

Lemma collapse_head s : head_space (collapse_ws true s) = false.
Proof.
  induction s as [|c s IH]; [reflexivity|]. cbn [collapse_ws].
  destruct (is_space c) eqn:E; [exact IH|]. simpl. exact E.
Qed.

Lemma collapse_single_spaced s : forall b, single_spaced (collapse_ws b s) = true.
Proof.
  induction s as [|c s IH]; intros b; [reflexivity|]. cbn [collapse_ws].
  destruct (is_space c) eqn:E.
  - destruct b; [apply IH|].
    cbn [single_spaced]. rewrite collapse_head, IH. reflexivity.
  - cbn [single_spaced]. now rewrite E, IH.
Qed.

Lemma collapse_after_text s : head_space s = false -> collapse_ws true s = collapse_ws false s.
Proof. destruct s as [|c s]; [reflexivity|]. simpl. now intros ->. Qed.

Lemma collapse_fixed s : single_spaced s = true -> collapse_ws false s = s.
Proof.
  induction s as [|c s IH]; [reflexivity|]. cbn [single_spaced collapse_ws].
  intros [H1 H2]%andb_prop. destruct (is_space c).
  - apply andb_prop in H1 as [Hc Hh]. apply Ascii.eqb_eq in Hc. subst c.
    apply negb_true_iff in Hh. rewrite (collapse_after_text _ Hh), (IH H2). reflexivity.
  - now rewrite (IH H2).
Qed.

Lemma single_spaced_lstrip s : single_spaced s = true -> single_spaced (lstrip_by is_space s) = true.
Proof.
  induction s as [|c s IH]; [reflexivity|]. intros H. cbn [lstrip_by].
  destruct (is_space c) eqn:E; [|exact H].
  cbn [single_spaced] in H. apply andb_prop in H as [_ H]. auto.
Qed.

Lemma rstrip_head c s t : rstrip_by is_space s = String c t ->
  exists t', s = String c t'.
Proof.
  destruct s as [|d s]; [discriminate|]. simpl.
  destruct (rstrip_by is_space s); [destruct (is_space d); [discriminate|]|];
    intros [= -> _]; eauto.
Qed.

Lemma single_spaced_rstrip s : single_spaced s = true -> single_spaced (rstrip_by is_space s) = true.
Proof.
  induction s as [|c s IH]; [reflexivity|]. cbn [single_spaced rstrip_by].
  intros [H1 H2]%andb_prop. specialize (IH H2).
  destruct (rstrip_by is_space s) as [|d t] eqn:R.
  - destruct (is_space c) eqn:E; [reflexivity|]. simpl. now rewrite E.
  - destruct (rstrip_head _ _ _ R) as (t' & ->).
    change (single_spaced (String c (String d t)))
      with ((if is_space c then Ascii.eqb c " " && negb (is_space d) else true)
            && single_spaced (String d t)).
    rewrite IH, andb_true_r. exact H1.
Qed.

Lemma lstrip_twice p s : lstrip_by p (lstrip_by p s) = lstrip_by p s.
Proof.
  induction s as [|c s IH]; [reflexivity|]. simpl.
  destruct (p c) eqn:E; [exact IH|]. simpl. now rewrite E.
Qed.

Lemma rstrip_twice p s : rstrip_by p (rstrip_by p s) = rstrip_by p s.
Proof.
  induction s as [|c s IH]; [reflexivity|]. simpl.
  destruct (rstrip_by p s) as [|d t] eqn:R.
  - destruct (p c) eqn:E; [reflexivity|]. simpl. now rewrite E.
  - cbn [rstrip_by]. cbn [rstrip_by] in IH. now rewrite IH.
Qed.

Lemma strip_commute p s : lstrip_by p (rstrip_by p s) = rstrip_by p (lstrip_by p s).
Proof.
  induction s as [|c s IH]; [reflexivity|]. cbn [lstrip_by rstrip_by].
  destruct (p c) eqn:E.
  - rewrite <- IH. destruct (rstrip_by p s) as [|d t]; [reflexivity|].
    cbn [lstrip_by]. now rewrite E.
  - cbn [rstrip_by]. destruct (rstrip_by p s) as [|d t]; rewrite ?E; cbn [lstrip_by];
      now rewrite E.
Qed.

Lemma strip_twice s : strip (strip s) = strip s.
Proof.
  unfold strip. now rewrite strip_commute, rstrip_twice, lstrip_twice.
Qed.

End CleanTextFacts.

(** ** Whole runs of [queue] *)

Module QueueRunFacts.
Import Schema Cli QueueFacts.

Lemma find_active_none apps jp :
  find (fun a => Nat.eqb (job_post_id a) (id jp) && is_active (app_status a)) apps = None
  <-> has_active apps jp = false.
Proof.
  unfold has_active, active_for. induction apps as [|a apps IH]; simpl; [tauto|].
  destruct (_ && _); simpl; [split; discriminate|exact IH].
Qed.

Lemma has_active_app apps more jp :
  has_active (apps ++ more) jp = has_active apps jp || has_active more jp.
Proof. unfold has_active. apply existsb_app. Qed.

(** The loop over [to_queue], on rows with distinct keys: an application
    record is added for each job that had no active one. *)
Lemma queue_loop_applications tq : forall s n,
  NoDup (map id tq) ->
  let '(s', n') := queue_loop s n tq in
  exists added,
    applications (pending s') = (applications (pending s) ++ added)%list
    /\ map job_post_id added
       = map id (filter (fun jp => negb (has_active (applications (pending s)) jp)) tq)
    /\ Forall (fun a => app_status a = ApplicationStatus.queued) added
    /\ n' = n + List.length added
    /\ committed s' = committed s.
Proof.
  induction tq as [|jp tq IH]; intros s n Hnd; cbn [queue_loop].
  - exists []. rewrite app_nil_r. repeat split; auto.
  - inversion Hnd as [|x l Hx Hl]; subst.
    set (s1 := update_job_post (id jp) (set_status JobStatus.queued) s).
    assert (Ha1 : applications (pending s1) = applications (pending s)) by reflexivity.
    destruct (find _ (applications (pending s1))) as [a|] eqn:F.
    + assert (Hact : has_active (applications (pending s)) jp = true).
      { rewrite <- Ha1. destruct (has_active _ jp) eqn:A; [reflexivity|].
        apply find_active_none in A. congruence. }
      specialize (IH s1 n Hl). destruct (queue_loop s1 n tq) as [s' n'].
      destruct IH as (added & E1 & E2 & E3 & E4 & E5).
      exists added. cbn [filter]. rewrite Hact. cbn [negb].
      rewrite Ha1 in *. repeat split; auto.
    + apply find_active_none in F. rewrite Ha1 in F.
      set (app := {| app_id := next_id (pending s1); job_post_id := id jp;
                     app_status := ApplicationStatus.queued;
                     app_ats_type := ats_type jp |}).
      set (s2 := add_application _ s1).
      assert (Ha2 : applications (pending s2) = (applications (pending s) ++ [app])%list)
        by reflexivity.
      specialize (IH s2 (S n) Hl). destruct (queue_loop s2 (S n) tq) as [s' n'].
      destruct IH as (added & E1 & E2 & E3 & E4 & E5).
      exists (app :: added). cbn [filter]. rewrite F. cbn [negb map].
      rewrite E1, Ha2, <- app_assoc. split; [reflexivity|].
      split.
      { f_equal. rewrite E2, Ha2. f_equal. apply filter_ext_in. intros r Hr.
        rewrite has_active_app. unfold has_active at 2, active_for. simpl.
        destruct (Nat.eqb_spec (id jp) (id r)) as [E|_].
        - exfalso. apply Hx. rewrite E. now apply in_map.
        - simpl. now rewrite orb_false_r. }
      split; [constructor; [reflexivity|assumption]|].
      split; [simpl; lia|exact E5].
Qed.

Lemma filter_loop_rest fo : forall s,
  applications (pending (filter_loop s fo)) = applications (pending s)
  /\ next_id (pending (filter_loop s fo)) = next_id (pending s).
Proof.
  unfold filter_loop.
  induction fo as [|jp fo IH]; intros s; cbn [fold_left]; [now split|].
  destruct (IH (update_job_post (id jp) (set_status JobStatus.filtered_out) s)) as [-> ->].
  now split.
Qed.

(** A run of [queue] that goes past the confirmation, as a whole. *)
Lemma queue_confirmed db cfg min_score_opt yes confirmed :
  unique_ids db ->
  let cfg' := with_min_score cfg min_score_opt in
  confirmed_run cfg' db yes confirmed ->
  exists first second added,
    queue db cfg min_score_opt yes confirmed
    = {| commits := [first; second]; final := second |}
    /\ job_posts second = map (decided cfg') (job_posts db)
    /\ applications second = (applications db ++ added)%list
    /\ map job_post_id added = map id (needs_application cfg' db)
    /\ Forall (fun a => app_status a = ApplicationStatus.queued) added.
Proof.
  intros Hu cfg' [Hq Hyes]. unfold needs_application. unfold queued_by in *.
  unfold queue. fold cfg'. cbn [get_session pending]. fold is_discovered.
  set (D := filter is_discovered (job_posts db)) in *.
  assert (ED : D = filter is_discovered (job_posts db)) by reflexivity.
  set (to_queue := filter (fun jp => Filter.should_queue (result_of cfg' jp)) D) in *.
  assert (Etq : to_queue = filter (fun jp => Filter.should_queue (result_of cfg' jp)) D)
    by reflexivity.
  clearbody to_queue. clearbody D.
  pose proof (score_loop_spec cfg' D (get_session db) [] []) as Hs.
  destruct (score_loop cfg' (get_session db) [] [] D) as [[s tq] fo].
  cbn zeta in Hs. destruct Hs as (Hc & Ha & Hn & Hj & Htq & Hfo).
  cbn [get_session pending app] in *.
  rewrite <- Etq in Htq. subst tq.
  rewrite ED, (scored_rows cfg' _ Hu) in Hj.
  destruct D as [|d D'].
  { exfalso. apply Hq. now rewrite Etq. }
  destruct to_queue as [|q tq'] eqn:Eq; [congruence|].
  assert (Hgo : negb yes && negb confirmed = false)
    by (destruct Hyes as [-> | ->]; [reflexivity|apply andb_false_r]).
  rewrite Hgo. cbn [commit committed pending close].
  assert (Hnd : NoDup (map id (q :: tq'))).
  { rewrite Etq, ED. now apply NoDup_map_filter, NoDup_map_filter. }
  pose proof (queue_loop_spec (q :: tq')
                {| committed := pending s; pending := pending s |} 0) as Hql.
  pose proof (queue_loop_applications (q :: tq')
                {| committed := pending s; pending := pending s |} 0 Hnd) as Hqa.
  destruct (queue_loop _ 0 (q :: tq')) as [s2 n2].
  destruct Hqa as (added & A1 & A2 & A3 & A4 & A5).
  cbn [commit committed pending close] in *.
  destruct (filter_loop_rest fo s2) as [F1 F2].
  eexists; eexists; exists added. split; [reflexivity|].
  split.
  { rewrite filter_loop_spec, Hql. rewrite Hj, Hfo, Etq, ED.
    apply (decided_rows cfg' (job_posts db) Hu). }
  split; [now rewrite F1, A1, Ha|].
  split; [now rewrite A2, Ha|assumption].
Qed.

Lemma decided_not_discovered cfg r : is_discovered (decided cfg r) = false.
Proof.
  unfold decided. destruct (is_discovered r) eqn:E; [|exact E].
  now destruct (Filter.should_queue _).
Qed.

Lemma no_discovered_left cfg rows : filter is_discovered (map (decided cfg) rows) = [].
Proof.
  induction rows as [|r rows IH]; simpl; [reflexivity|].
  now rewrite decided_not_discovered.
Qed.

(** X18: after a run of [queue] that went past the confirmation no job is
    left in the status [discovered], and a second run, whatever its options,
    commits nothing and leaves the store as it is. *)
Theorem queue_again_is_noop db cfg min_score_opt yes confirmed cfg2 min2 yes2 confirmed2 :
  unique_ids db ->
  confirmed_run (with_min_score cfg min_score_opt) db yes confirmed ->
  let db' := final (queue db cfg min_score_opt yes confirmed) in
  filter is_discovered (job_posts db') = []
  /\ queue db' cfg2 min2 yes2 confirmed2 = {| commits := []; final := db' |}.
Proof.
  intros Hu Hc.
  destruct (queue_confirmed db cfg min_score_opt yes confirmed Hu Hc)
    as (first & second & added & -> & Hj & _).
  cbv zeta. cbn [final].
  assert (E : filter is_discovered (job_posts second) = [])
    by (rewrite Hj; apply no_discovered_left).
  split; [exact E|].
  unfold queue. cbn [get_session pending]. fold is_discovered. now rewrite E.
Qed.

Lemma queue_again_is_noop_witness :
  let db' := final (queue one_discovered_job default_FilterConfig None true false) in
  filter is_discovered (job_posts db') = []
  /\ queue db' default_FilterConfig (Some 0.9%float) false true
     = {| commits := []; final := db' |}.
Proof.
  apply (queue_again_is_noop one_discovered_job default_FilterConfig None true false
           default_FilterConfig (Some 0.9%float) false true).
  - unfold unique_ids. simpl. repeat constructor. intros [].
  - split; [vm_compute; discriminate|now left].
Defined.

(** X17: a run of [queue] that went past the confirmation appends one
    application record, in the status [queued], for each queued job that had
    no active application, and none for the others; afterwards every job it
    queued has an active application. *)
Theorem queue_creates_applications db cfg min_score_opt yes confirmed :
  unique_ids db ->
  let cfg' := with_min_score cfg min_score_opt in
  confirmed_run cfg' db yes confirmed ->
  let db' := final (queue db cfg min_score_opt yes confirmed) in
  (exists added,
      applications db' = (applications db ++ added)%list
      /\ map job_post_id added = map id (needs_application cfg' db)
      /\ Forall (fun a => app_status a = ApplicationStatus.queued) added)
  /\ forall jp, In jp (queued_by cfg' db) -> has_active (applications db') jp = true.
Proof.
  intros Hu cfg' Hc.
  destruct (queue_confirmed db cfg min_score_opt yes confirmed Hu Hc)
    as (first & second & added & -> & _ & Ha & Hm & Hq).
  cbv zeta. cbn [final].
  split; [now exists added|].
  intros jp Hjp. rewrite Ha, has_active_app.
  destruct (has_active (applications db) jp) eqn:A; [reflexivity|]. simpl.
  assert (Hin : In (id jp) (map job_post_id added)).
  { fold cfg' in Hm. rewrite Hm. apply in_map. unfold needs_application.
    apply filter_In. split; [exact Hjp|]. now rewrite A. }
  apply in_map_iff in Hin as (a & Hid & Hin).
  unfold has_active. apply existsb_exists. exists a. split; [exact Hin|].
  unfold active_for. rewrite Hid, Nat.eqb_refl.
  rewrite Forall_forall in Hq. now rewrite (Hq a Hin).
Qed.

Lemma queue_creates_applications_witness :
  let cfg' := with_min_score default_FilterConfig None in
  let db' := final (queue one_discovered_job default_FilterConfig None true false) in
  (exists added,
      applications db' = (applications one_discovered_job ++ added)%list
      /\ map job_post_id added = map id (needs_application cfg' one_discovered_job)
      /\ Forall (fun a => app_status a = ApplicationStatus.queued) added)
  /\ forall jp, In jp (queued_by cfg' one_discovered_job) ->
       has_active (applications db') jp = true.
Proof.
  apply (queue_creates_applications one_discovered_job default_FilterConfig None true false).
  - unfold unique_ids. simpl. repeat constructor. intros [].
  - split; [vm_compute; discriminate|now left].
Defined.

(** A run of [queue] that stops before the statuses: no job reaches the
    threshold, or the prompt is declined. *)
Lemma queue_unconfirmed db cfg min_score_opt yes confirmed :
  unique_ids db ->
  let cfg' := with_min_score cfg min_score_opt in
  filter is_discovered (job_posts db) <> [] ->
  queued_by cfg' db = [] \/ (yes = false /\ confirmed = false) ->
  queue db cfg min_score_opt yes confirmed
  = let first := {| job_posts := map (scored cfg') (job_posts db);
                    applications := applications db;
                    next_id := next_id db |} in
    {| commits := [first]; final := first |}.
Proof.
  intros Hu cfg' HD Hstop. unfold queued_by in Hstop.
  unfold queue. fold cfg'. cbn [get_session pending]. fold is_discovered.
  set (D := filter is_discovered (job_posts db)) in *.
  assert (ED : D = filter is_discovered (job_posts db)) by reflexivity.
  clearbody D.
  pose proof (score_loop_spec cfg' D (get_session db) [] []) as Hs.
  destruct (score_loop cfg' (get_session db) [] [] D) as [[s tq] fo].
  cbn zeta in Hs. destruct Hs as (Hc & Ha & Hn & Hj & Htq & Hfo).
  cbn [get_session pending app] in *.
  rewrite ED, (scored_rows cfg' _ Hu) in Hj.
  destruct D as [|d D']; [congruence|].
  cbn [commit committed pending close].
  assert (Ep : pending s = {| job_posts := map (scored cfg') (job_posts db);
                              applications := applications db;
                              next_id := next_id db |}).
  { destruct (pending s); simpl in *; congruence. }
  rewrite Ep. cbv zeta.
  destruct Hstop as [E|[-> ->]].
  - rewrite Htq, E. reflexivity.
  - now destruct tq.
Qed.

Lemma scored_twice cfg r : scored cfg (scored cfg r) = scored cfg r.
Proof.
  unfold scored. destruct (is_discovered r) eqn:E; [|now rewrite E].
  destruct r; simpl in *. unfold is_discovered in *; simpl in *. now rewrite E.
Qed.

Lemma scored_discovered cfg r : is_discovered (scored cfg r) = is_discovered r.
Proof. unfold scored. destruct (is_discovered r) eqn:E; [|exact E]. exact E. Qed.

(** X19: as long as the prompt is declined, running [queue] again with the
    same configuration leaves the store as the first run left it: the scores
    and the reasons it writes are the same. *)
Theorem queue_declined_is_repeatable db cfg min_score_opt :
  unique_ids db ->
  let db1 := final (queue db cfg min_score_opt false false) in
  final (queue db1 cfg min_score_opt false false) = db1.
Proof.
  intros Hu. cbv zeta.
  destruct (filter is_discovered (job_posts db)) as [|d D] eqn:ED.
  - assert (E : queue db cfg min_score_opt false false = {| commits := []; final := db |}).
    { unfold queue. cbn [get_session pending]. fold is_discovered. now rewrite ED. }
    rewrite E. cbn [final]. now rewrite E.
  - rewrite (queue_unconfirmed db cfg min_score_opt false false Hu);
      [|now rewrite ED|now right].
    cbv zeta. cbn [final].
    rewrite queue_unconfirmed; [| | |now right].
    + cbv zeta. cbn [final job_posts applications next_id].
      f_equal. rewrite map_map. apply map_ext. intros r. apply scored_twice.
    + unfold unique_ids. cbn [job_posts]. rewrite map_map.
      rewrite (map_ext _ id (id_scored _)). exact Hu.
    + cbn [job_posts]. intros E.
      assert (Hin : In d (filter is_discovered (job_posts db))) by (rewrite ED; now left).
      apply filter_In in Hin as [Hin Hd].
      assert (X : In (scored (with_min_score cfg min_score_opt) d)
                     (filter is_discovered
                        (map (scored (with_min_score cfg min_score_opt)) (job_posts db)))).
      { apply filter_In. split; [now apply in_map|]. now rewrite scored_discovered. }
      now rewrite E in X.
Qed.

Lemma queue_declined_is_repeatable_witness :
  let db1 := final (queue one_discovered_job default_FilterConfig None false false) in
  final (queue db1 default_FilterConfig None false false) = db1.
Proof.
  apply (queue_declined_is_repeatable one_discovered_job default_FilterConfig None).
  unfold unique_ids. simpl. repeat constructor. intros [].
Defined.
End QueueRunFacts.

(** ** What [_store_jobs] returns *)

Module StoreCountFacts.
Import Schema Cli StoreFacts.

Lemma store_loop_dry src jobs : forall s n,
  store_loop src true (s, n) jobs = Some (s, n + unknown_jobs s jobs).
Proof.
  induction jobs as [|job jobs IH]; intros s n; cbn [store_loop].
  - unfold unknown_jobs; simpl. f_equal. f_equal. lia.
  - unfold store_step. unfold unknown_jobs. cbn [filter].
    destruct (first_by_hash (Parser.url_hash job) s) as [r|] eqn:E.
    + assert (M : PyStr.mem (Parser.url_hash job) (hashes (pending s)) = true).
      { apply ParserFacts.mem_In. destruct (first_by_hash_none (Parser.url_hash job) s) as [_ H].
        destruct (in_dec string_dec (Parser.url_hash job) (hashes (pending s))); [assumption|].
        rewrite (H n0) in E. discriminate. }
      rewrite M. cbn [negb]. apply IH.
    + apply first_by_hash_none in E. apply ParserFacts.mem_false in E.
      rewrite E. cbn [negb List.length]. rewrite IH. unfold unknown_jobs.
      f_equal. f_equal. lia.
Qed.

Lemma unknown_cons s job jobs :
  unknown_jobs s (job :: jobs)
  = (if PyStr.mem (Parser.url_hash job) (hashes (pending s)) then 0 else 1)
    + unknown_jobs s jobs.
Proof. unfold unknown_jobs. cbn [filter]. now destruct (PyStr.mem _ _). Qed.

(** One turn of a real run: a job whose hash is stored is skipped, and any
    other job is appended as a row in the status [discovered]. *)
Lemma store_step_real src s n job :
  (In (Parser.url_hash job) (hashes (pending s))
   /\ store_step src false (s, n) job = Some (s, n))
  \/ (~ In (Parser.url_hash job) (hashes (pending s))
      /\ exists s1,
           store_step src false (s, n) job = Some (s1, S n)
           /\ committed s1 = committed s
           /\ job_posts (pending s1)
              = (job_posts (pending s) ++ [row_of src (next_id (pending s)) job])%list
           /\ applications (pending s1) = applications (pending s)).
Proof.
  unfold store_step.
  destruct (first_by_hash (Parser.url_hash job) s) as [r|] eqn:E.
  - left. split; [|reflexivity].
    apply find_some in E as [Hr E]. apply String.eqb_eq in E.
    unfold hashes. rewrite <- E. now apply in_map.
  - right. apply first_by_hash_none in E. split; [exact E|].
    unfold add_job_post. cbn [url_hash].
    rewrite (existsb_hash_false _ _ E).
    eexists. split; [reflexivity|]. repeat split.
Qed.

(** The loop of a real run, against a session [s0] that holds no more hashes
    than the session of the loop. *)
Lemma store_loop_real src jobs : forall s n s0,
  (forall h, In h (hashes (pending s0)) -> In h (hashes (pending s))) ->
  exists s' added,
    store_loop src false (s, n) jobs = Some (s', n + List.length added)
    /\ committed s' = committed s
    /\ job_posts (pending s') = (job_posts (pending s) ++ added)%list
    /\ applications (pending s') = applications (pending s)
    /\ Forall (fun r => status r = JobStatus.discovered /\ source_email_id r = src
                        /\ exists job, In job jobs /\ url_hash r = Parser.url_hash job) added
    /\ List.length added <= unknown_jobs s0 jobs
    /\ ((forall job, In job jobs -> In (Parser.url_hash job) (hashes (pending s)) ->
           In (Parser.url_hash job) (hashes (pending s0))) ->
        NoDup (map Parser.url_hash jobs) ->
        List.length added = unknown_jobs s0 jobs).
Proof.
  induction jobs as [|job jobs IH]; intros s n s0 Hsub; cbn [store_loop].
  - exists s, []. rewrite app_nil_r. repeat split; auto. simpl; f_equal; f_equal; lia.
  - rewrite unknown_cons.
    destruct (store_step_real src s n job) as [[Hin ->]|(Hn & s1 & -> & Hc & Hj & Hap)].
    + destruct (IH s n s0 Hsub) as (s' & added & -> & H1 & H2 & H3 & H4 & H5 & H6).
      exists s', added. repeat split; auto; [| lia |].
      * eapply Forall_impl; [|exact H4]. intros r (? & ? & j & ? & ?).
        repeat split; auto. exists j. split; [now right|assumption].
      * intros Hagree Hnd. inversion Hnd as [|x l Hx Hl]; subst.
        rewrite H6; auto.
        -- assert (M : PyStr.mem (Parser.url_hash job) (hashes (pending s0)) = true)
             by (apply ParserFacts.mem_In, Hagree; [now left|exact Hin]).
           now rewrite M.
        -- intros j Hj. apply Hagree. now right.
    + assert (M : PyStr.mem (Parser.url_hash job) (hashes (pending s0)) = false).
      { apply ParserFacts.mem_false. intros H. apply Hn, Hsub, H. }
      rewrite M.
      assert (Hsub1 : forall h, In h (hashes (pending s0)) -> In h (hashes (pending s1))).
      { intros h H. unfold hashes. rewrite Hj, map_app, in_app_iff. left. now apply Hsub. }
      destruct (IH s1 (S n) s0 Hsub1) as (s' & added & -> & H1 & H2 & H3 & H4 & H5 & H6).
      exists s', (row_of src (next_id (pending s)) job :: added).
      split; [cbn [List.length]; f_equal; f_equal; lia|].
      split; [congruence|].
      split; [now rewrite H2, Hj, <- app_assoc|].
      split; [congruence|].
      split.
      { constructor.
        - repeat split. exists job. split; [now left|reflexivity].
        - eapply Forall_impl; [|exact H4]. intros r (? & ? & j & ? & ?).
          repeat split; auto. exists j. split; [now right|assumption]. }
      split; [cbn [List.length]; lia|].
      intros Hagree Hnd. inversion Hnd as [|x l Hx Hl]; subst.
      cbn [List.length]. rewrite H6; auto.
      intros j Hjin Hjs1. unfold hashes in Hjs1. rewrite Hj, map_app, in_app_iff in Hjs1.
      destruct Hjs1 as [H|[H|[]]].
      * apply Hagree; [now right|exact H].
      * exfalso. apply Hx. cbn [row_of url_hash] in H. rewrite H. now apply in_map.
Qed.



(** On a dry run a job that occurs twice in the batch is counted twice;
    the real run stores it once. *)
Example dry_run_counts_repeats :
  option_map snd (_store_jobs (get_session empty_db)
                    (Parser.example_jobs ++ Parser.example_jobs)%list None true)
  = Some (2, 2)
  /\ option_map snd (_store_jobs (get_session empty_db)
                       (Parser.example_jobs ++ Parser.example_jobs)%list None false)
     = Some (2, 1).
Proof. split; vm_compute; reflexivity. Qed.
End StoreCountFacts.

(** ** The cache of answers *)

Module AnswersFacts.
Import PyStr Answers.

Lemma matches_same l l' ats qa :
  normalised l' = normalised l -> matches l' ats qa = matches l ats qa.
Proof. unfold matches. now intros ->. Qed.

Lemma find_same {A} (p q : A -> bool) l : (forall x, p x = q x) -> find p l = find q l.
Proof.
  intros H. induction l as [|x l IH]; simpl; [reflexivity|]. now rewrite H, IH.
Qed.

Lemma find_update_first (p : QuestionAnswer -> bool) f l r :
  find p l = Some r -> p (f r) = true -> find p (update_first p f l) = Some (f r).
Proof.
  induction l as [|x l IH]; simpl; [discriminate|].
  destruct (p x) eqn:E.
  - intros [= ->] H. simpl. now rewrite H.
  - intros H1 H2. simpl. rewrite E. auto.
Qed.

Lemma find_snoc (p : QuestionAnswer -> bool) l x :
  find p l = None -> find p (l ++ [x]) = if p x then Some x else None.
Proof.
  induction l as [|y l IH]; simpl; [reflexivity|].
  destruct (p y); [discriminate|exact IH].
Qed.

Lemma find_other_update (p q : QuestionAnswer -> bool) f l :
  (forall r, p r = true -> q r = false) -> (forall r, p r = true -> q (f r) = false) ->
  find q (update_first p f l) = find q l.
Proof.
  intros H1 H2. induction l as [|x l IH]; simpl; [reflexivity|].
  destruct (p x) eqn:E; simpl.
  - now rewrite (H1 x E), (H2 x E).
  - now rewrite IH.
Qed.

Lemma length_update_first (p : QuestionAnswer -> bool) f l :
  List.length (update_first p f l) = List.length l.
Proof.
  induction l as [|x l IH]; simpl; [reflexivity|].
  destruct (p x); simpl; congruence.
Qed.

Lemma upsert_spec session label label' ats a created now :
  normalised label' = normalised label ->
  let '(session', qa) := upsert_answer session label ats a created now in
  find_cached_answer session' label' ats = Some qa
  /\ answer qa = a
  /\ question_label qa = normalised label
  /\ committed session' = pending session'.
Proof.
  intros Hn. unfold upsert_answer, find_cached_answer.
  destruct (find (matches label ats) (rows (pending session))) as [r|] eqn:F;
    cbn [commit pending rows committed];
    rewrite (find_same _ _ _ (fun qa => matches_same label label' ats qa Hn)).
  - apply find_some in F as Hr. destruct Hr as [_ Hm].
    rewrite (find_update_first _ (set_answer a now) _ r F) by exact Hm.
    repeat split. cbn. unfold matches in Hm.
    apply andb_prop in Hm as [Hm _]. now apply String.eqb_eq in Hm.
  - rewrite (find_snoc _ _ _ F). unfold matches at 1. cbn.
    now rewrite !String.eqb_refl.
Qed.




End AnswersFacts.

(** ** The question resolver *)

Module ResolverFacts.
Import PyStr Answers Resolver AnswersFacts.

Lemma cache_get_set key value c : cache_get key (cache_set key value c) = Some value.
Proof.
  unfold cache_get. induction c as [|[k v] c IH]; simpl.
  - now rewrite String.eqb_refl.
  - destruct (String.eqb k key) eqn:E; simpl; rewrite E; [reflexivity|exact IH].
Qed.

Lemma cache_key_same label label' ats :
  normalised label' = normalised label -> cache_key label' ats = cache_key label ats.
Proof. unfold cache_key. now intros ->. Qed.

Lemma find_cached_same session label label' ats :
  normalised label' = normalised label ->
  find_cached_answer session label' ats = find_cached_answer session label ats.
Proof.
  intros H. unfold find_cached_answer. apply find_same. intros qa. now apply matches_same.
Qed.



(** X23: an answer that the user typed is saved: a resolver that starts
    later, with an empty run cache, finds it in the table, returns it
    without asking, and leaves the table as it is. *)
Theorem resolve_persists c db label ats typed created now a c1 db1
    label' typed' created' now' :
  resolve c db label ats typed created now = (a, c1, db1, from_prompt) ->
  normalised label' = normalised label ->
  a = typed
  /\ resolve [] db1 label' ats typed' created' now'
     = (typed, [(cache_key label ats, typed)], db1, from_database).
Proof.
  unfold resolve. intros H Hn.
  destruct (cache_get (cache_key label ats) c) as [a0|]; [discriminate|].
  destruct (find_cached_answer (get_session db) label ats) as [cached|];
    [discriminate|].
  pose proof (upsert_spec (get_session db) label label' ats typed created now Hn) as U.
  destruct (upsert_answer _ _ _ _ _ _) as [s qa].
  destruct U as (U1 & U2 & _ & U4).
  injection H as <- <- <-. split; [reflexivity|].
  rewrite (cache_key_same _ _ ats Hn). cbn [cache_get find].
  assert (E : find_cached_answer (get_session (close s)) label' ats = Some qa).
  { unfold find_cached_answer in *. unfold close, get_session. cbn [pending].
    now rewrite U4. }
  rewrite E, U2. reflexivity.
Qed.

Lemma resolve_persists_witness :
  "Yes" = "Yes"
  /\ resolve [] (snd (fst (resolve [] example_table "Relocate?" "lever" "Yes" 1 2)))
       "relocate? " "lever" "No" 3 4
     = ("Yes", [(cache_key "Relocate?" "lever", "Yes")],
        snd (fst (resolve [] example_table "Relocate?" "lever" "Yes" 1 2)), from_database).
Proof.
  apply (resolve_persists [] example_table "Relocate?" "lever" "Yes" 1 2
           "Yes" (snd (fst (fst (resolve [] example_table "Relocate?" "lever" "Yes" 1 2))))
           (snd (fst (resolve [] example_table "Relocate?" "lever" "Yes" 1 2)))
           "relocate? " "No" 3 4); reflexivity.
Defined.
End ResolverFacts.

(** ** The resume of the configuration *)

Module ConfigFacts.
Import PyStr Config.

Section WithFiles.
Variable exists_ : string -> bool.

(** X24: a path that [get_resume] returns names a file that exists: the
    path of the variant when the variant is configured, the default path
    otherwise.  A configured variant whose file is missing is an error,
    also when the default file exists. *)
Theorem get_resume_exists cfg variant p :
  get_resume exists_ cfg variant = inr p ->
  exists_ p = true
  /\ match variant with
     | Some v =>
         if nonempty v
         then match variant_path cfg v with
              | Some q => p = q
              | None => resume_default_path cfg = Some p
              end
         else resume_default_path cfg = Some p
     | None => resume_default_path cfg = Some p
     end.
Proof.
  assert (D : forall q,
             match validate_resume exists_ cfg with
             | inl e => inl e
             | inr _ => match resume_default_path cfg with
                        | Some p0 => inr p0
                        | None => inl ValueError
                        end
             end = inr q ->
             exists_ q = true /\ resume_default_path cfg = Some q).
  { intros q. unfold validate_resume.
    destruct (resume_default_path cfg) as [d|]; [|discriminate].
    destruct (exists_ d) eqn:E; [|discriminate]. intros [= <-]. now split. }
  unfold get_resume. destruct variant as [v|]; [|apply D].
  destruct (nonempty v); [|apply D].
  destruct (variant_path cfg v) as [q|]; [|apply D].
  destruct (exists_ q) eqn:E; [|discriminate]. intros [= <-]. now split.
Qed.
End WithFiles.

Lemma get_resume_exists_witness :
  String.eqb "/home/u/resume-backend.pdf" "/home/u/resume-backend.pdf" = true
  /\ "/home/u/resume-backend.pdf" = "/home/u/resume-backend.pdf".
Proof.
  apply (get_resume_exists (String.eqb "/home/u/resume-backend.pdf") example_config
           (Some "backend") "/home/u/resume-backend.pdf").
  reflexivity.
Defined.

(** A configured variant whose file is missing: no fall-back to the default
    resume, which exists. *)
Example missing_variant_is_an_error :
  get_resume (String.eqb "/home/u/resume.pdf") example_config (Some "backend")
  = inl FileNotFoundError
  /\ get_resume (String.eqb "/home/u/resume.pdf") example_config (Some "frontend")
     = inr "/home/u/resume.pdf".
Proof. split; reflexivity. Qed.
End ConfigFacts.

(** ** The adapter registry *)

Module AdaptersFacts.
Import PyStr PyStrFacts Adapters.

Lemma startswith_app s a b : startswith s (a ++ b) = true -> startswith s a = true.
Proof.
  revert s; induction a as [|x a IH]; intros s; [reflexivity|].
  destruct s as [|y s]; simpl; [discriminate|].
  intros [-> H]%andb_prop. simpl. auto.
Qed.

Lemma contains_here needle s : startswith s needle = true -> contains needle s = true.
Proof. intros H. destruct s; simpl; now rewrite H. Qed.

Lemma contains_tail needle c s : contains needle s = true -> contains needle (String c s) = true.
Proof. intros H. cbn [contains]. rewrite H. apply orb_true_r. Qed.

Lemma startswith_skip a b : forall s, startswith s (a ++ b) = true ->
  exists t, s = (a ++ t)%string /\ startswith t b = true.
Proof.
  induction a as [|x a IH]; intros s H; [now exists s|].
  destruct s as [|y s]; simpl in H; [discriminate|].
  apply andb_prop in H as [E H]. apply Ascii.eqb_eq in E. subst y.
  destruct (IH s H) as (t & -> & Ht). now exists t.
Qed.

Lemma contains_after a needle s : contains needle s = true -> contains needle (a ++ s) = true.
Proof. induction a as [|x a IH]; intros H; [exact H|]. simpl append. now apply contains_tail, IH. Qed.

Lemma contains_suffix a b s : contains (a ++ b) s = true -> contains b s = true.
Proof.
  assert (Here : forall s, startswith s (a ++ b) = true -> contains b s = true).
  { intros s0 H. destruct (startswith_skip a b _ H) as (t & E & Ht).
    rewrite E. now apply contains_after, contains_here. }
  induction s as [|c s IH]; intros H; cbn [contains] in H.
  - rewrite orb_false_r in H. now apply Here.
  - apply orb_prop in H as [H|H]; [now apply Here|].
    apply contains_tail. now apply IH.
Qed.

Lemma drop_prefix_startswith p : forall s r, drop_prefix p s = Some r -> startswith s p = true.
Proof.
  induction p as [|a p IH]; intros s r; [reflexivity|].
  destruct s as [|b s]; simpl; [discriminate|].
  destruct (Ascii.eqb a b); [|discriminate]. intros H. simpl. eauto.
Qed.

Lemma hiring_contains s : search hiring_here s = true -> contains "workday.com" s = true.
Proof.
  induction s as [|c s IH]; cbn [search].
  - rewrite orb_false_r. intros H. unfold hiring_here in H. simpl in H. discriminate.
  - intros [H|H]%orb_prop; [|now apply contains_tail, IH].
    unfold hiring_here in H.
    destruct (drop_prefix "workday.com/" (String c s)) as [r|] eqn:D; [|discriminate].
    apply drop_prefix_startswith in D. apply contains_here.
    exact (startswith_app _ "workday.com" "/" D).
Qed.

(** The tests of [detect_ats_from_url] which fail on a URL that it does not
    recognise. *)
Lemma unknown_url url :
  Hashing.detect_ats_from_url url = "unknown" ->
  contains "ashbyhq.com" (lower url) = false
  /\ contains "greenhouse.io" (lower url) = false
  /\ contains "grnh.se" (lower url) = false
  /\ contains "lever.co" (lower url) = false
  /\ contains "myworkdayjobs.com" (lower url) = false
  /\ contains "workday.com" (lower url) = false.
Proof.
  unfold Hashing.detect_ats_from_url. cbv zeta.
  repeat match goal with
         | |- context [if ?b then _ else _] =>
             let E := fresh "E" in destruct b eqn:E; [discriminate|]
         end.
  intros _.
  repeat match goal with
         | E : _ || _ = false |- _ => apply orb_false_elim in E; destruct E
         end.
  repeat split; assumption.
Qed.


(** The registry and the URL test disagree on some URLs: a Lever URL that is
    not under [jobs.lever.co] has the tag "lever" and no adapter, and
    [ashby.com] has an adapter and no tag. *)
Example registry_and_tags :
  Hashing.detect_ats_from_url "https://lever.co/acme/1" = "lever"
  /\ get_adapter "https://lever.co/acme/1" = None
  /\ Hashing.detect_ats_from_url "https://www.ashby.com/acme" = "unknown"
  /\ get_adapter "https://www.ashby.com/acme" = Some "ashby"
  /\ get_adapter "https://acme.workday.com/en-US/hiring/1" = Some "workday".
Proof. repeat split; vm_compute; reflexivity. Qed.
End AdaptersFacts.

(** ** Ingestion, end to end *)

Module IngestFacts.
Import Schema Cli StoreFacts StoreCountFacts.

(** A batch of jobs with pairwise distinct hashes, none of them stored:
    every job gives a row, in the order of the batch. *)
Lemma store_loop_fresh src jobs : forall s n,
  NoDup (map Parser.url_hash jobs) ->
  (forall job, In job jobs -> ~ In (Parser.url_hash job) (hashes (pending s))) ->
  exists s' added,
    store_loop src false (s, n) jobs = Some (s', n + List.length jobs)
    /\ committed s' = committed s
    /\ job_posts (pending s') = (job_posts (pending s) ++ added)%list
    /\ map url_hash added = map Parser.url_hash jobs
    /\ Forall (fun r => status r = JobStatus.discovered /\ source_email_id r = src) added.
Proof.
  induction jobs as [|job jobs IH]; intros s n Hnd Hnew; cbn [store_loop].
  - exists s, []. rewrite app_nil_r. repeat split; auto. simpl; f_equal; f_equal; lia.
  - inversion Hnd as [|x l Hx Hl]; subst.
    destruct (store_step_real src s n job) as [[Hin _]|(_ & s1 & -> & Hc & Hj & _)].
    { exfalso. apply (Hnew job); [now left|exact Hin]. }
    destruct (IH s1 (S n) Hl) as (s' & added & -> & H1 & H2 & H3 & H4).
    { intros j Hjin Hs1. unfold hashes in Hs1. rewrite Hj, map_app, in_app_iff in Hs1.
      destruct Hs1 as [H|[H|[]]].
      - apply (Hnew j); [now right|exact H].
      - apply Hx. cbn [row_of url_hash] in H. rewrite H. now apply in_map. }
    exists s', (row_of src (next_id (pending s)) job :: added).
    split; [cbn [List.length]; f_equal; f_equal; lia|].
    split; [congruence|].
    split; [now rewrite H2, Hj, <- app_assoc|].
    split; [cbn [map row_of url_hash]; now rewrite H3|].
    constructor; [now split|exact H4].
Qed.

Section WithExtractor.
Variable extract_candidates : string -> list Parser.candidate.

End WithExtractor.


(** X27: once a batch is stored, storing it again, dry run or not, reports
    no new job and leaves the session as it is. *)
Theorem stored_batch_is_not_new db jobs src db1 src' dry :
  unique_hashes db ->
  store_batch src false db jobs = Some db1 ->
  _store_jobs (get_session db1) jobs src' dry
  = Some (get_session db1, (List.length jobs, 0)).
Proof.
  intros Hu Hs.
  destruct (store_batch_spec src false db jobs Hu) as (db' & E & Hu' & _ & _ & Hall).
  rewrite E in Hs. injection Hs as <-.
  destruct (store_loop_spec src' dry jobs (get_session db') 0 Hu')
    as (s' & n' & El & _ & _ & _ & _ & _ & Hold & _).
  destruct Hold as [-> ->]; [intros job Hj; now apply Hall|].
  unfold _store_jobs. now rewrite El.
Qed.

Lemma stored_batch_is_not_new_witness :
  exists db1,
    store_batch None false empty_db Parser.example_jobs = Some db1
    /\ _store_jobs (get_session db1) Parser.example_jobs (Some "email-1") true
       = Some (get_session db1, (List.length Parser.example_jobs, 0)).
Proof.
  eexists. split; [vm_compute; reflexivity|].
  apply (stored_batch_is_not_new empty_db Parser.example_jobs None _ (Some "email-1") true).
  - constructor.
  - vm_compute; reflexivity.
Defined.
End IngestFacts.
